(** * cntr: centring a text document on the terminal

    A shallow embedding of [cntr.c] and the properties of its text-layout
    pipeline: the document parser ([parseDocument]), the width oracle
    ([getDisplayWidth]), the terminal probe ([getTerminalWidth]) and the
    renderer ([printCenteredDocument]).

    Modelling conventions.
    - A [const char *] is the list of bytes found in memory from the pointer
      on ([cptr]).  Reading past the end of the list yields the terminating
      NUL that the loaders store behind the input, so a buffer holding NUL
      bytes of its own is an ordinary value of the type.
    - Pointer arithmetic [p + k] is [skipn k p]; the difference of two
      pointers into the same buffer is a [nat].
    - [int] values are unbounded integers: buffers, line counts and widths
      are taken to stay below [INT_MAX].
    - [malloc], [realloc] and [strdup] draw their outcome from an allocation
      oracle, indexed by the number of allocation requests made so far. *)

From Stdlib Require Import List ZArith NArith Bool Arith Lia.
From Stdlib Require Import Strings.Byte.
From Equations Require Import Equations.
Import ListNotations.

Set Implicit Arguments.

(* ===================================================================== *)
(** * Bytes and C strings                                                 *)
(* ===================================================================== *)

Module CStr.

Definition NUL : byte := x00.
Definition NL  : byte := x0a.
Definition SP  : byte := x20.

(** Memory seen from a [const char *]. *)
Definition cptr := list byte.

(** [*p] *)
Definition deref (p : cptr) : byte :=
  match p with
  | [] => NUL
  | b :: _ => b
  end.

(** The bytes of the C string at [p]: everything before the first NUL. *)
Fixpoint cstr (p : cptr) : list byte :=
  match p with
  | [] => []
  | b :: p' => if Byte.eqb b NUL then [] else b :: cstr p'
  end.

(** [strlen(p)] *)
Definition strlen (p : cptr) : nat := length (cstr p).

(** [strdup(p)]: the content of the copy. *)
Definition strdup_content (p : cptr) : cptr := cstr p.

Fixpoint is_prefix (n h : list byte) : bool :=
  match n, h with
  | [], _ => true
  | _ :: _, [] => false
  | x :: n', y :: h' => Byte.eqb x y && is_prefix n' h'
  end.

(** [strstr(h, n)]: the offset of the first occurrence of the string [n]
    in the string [h], or [None] for a null result. *)
Fixpoint strstr (h n : cptr) : option nat :=
  if is_prefix (cstr n) (cstr h) then Some 0
  else match h with
       | [] => None
       | b :: h' =>
           if Byte.eqb b NUL then None
           else option_map S (strstr h' n)
       end.

(** [strncpy(dest, src, n)]: the [n] bytes written to [dest]; the string is
    copied up to its NUL and the remainder is filled with NUL bytes. *)
Definition strncpy (src : cptr) (n : nat) : list byte :=
  firstn n (cstr src ++ repeat NUL n).

Definition nonzero (b : byte) : Prop := b <> NUL.
Definition nonnl (b : byte) : Prop := b <> NL.

End CStr.
Import CStr.

(* ===================================================================== *)
(** * Allocation                                                          *)
(* ===================================================================== *)

Module Alloc.

(** A computation that may allocate: it is run from the number of
    allocation requests made so far and returns the new count. *)
Definition M (A : Type) : Type := nat -> A * nat.

Definition ret {A : Type} (a : A) : M A := fun n => (a, n).

Definition bind {A B : Type} (m : M A) (k : A -> M B) : M B :=
  fun n => let (a, n') := m n in k a n'.

(** [malloc] and [realloc]: request number [n] succeeds when the oracle
    says so. *)
Definition malloc (alloc_ok : nat -> bool) : M bool :=
  fun n => (alloc_ok n, S n).

(** [strdup(p)]: a copy of the string at [p], or [None] for a null result. *)
Definition strdup (alloc_ok : nat -> bool) (p : cptr) : M (option cptr) :=
  bind (malloc alloc_ok)
       (fun ok => ret (if ok then Some (strdup_content p) else None)).

(** The allocator that never runs out of memory. *)
Definition never_fails : nat -> bool := fun _ => true.

(** The allocator whose request number [k] (counted from 0) fails. *)
Definition fails_at (k : nat) : nat -> bool := fun n => negb (Nat.eqb n k).

(** What a function returning a pointer produces: a value, a null pointer,
    or no answer within the fuel given to a loop of the model. *)
Inductive outcome (A : Type) : Type :=
| Ret (a : A)
| Null
| OutOfFuel.
Arguments Null {A}.
Arguments OutOfFuel {A}.

End Alloc.
Import Alloc.

Notation "x <- m ;; k" := (bind m (fun x => k))
  (at level 61, m at next level, right associativity).

(* ===================================================================== *)
(** * The document model and the parser                                   *)
(* ===================================================================== *)

Module Parser.

(** [struct Paragraph]: [lines] holds the [lineCount] strings stored so far
    in the array, [capacity] the size of the array. *)
Record Paragraph : Type := mkParagraph {
  lines : list cptr;
  capacity : Z
}.

Definition lineCount (para : Paragraph) : Z := Z.of_nat (length (lines para)).

(** [struct Document], likewise. *)
Record Document : Type := mkDocument {
  paragraphs : list Paragraph;
  docCapacity : Z
}.

Definition paragraphCount (doc : Document) : Z :=
  Z.of_nat (length (paragraphs doc)).

Section WithAllocator.

Variable alloc_ok : nat -> bool.

Definition createParagraph : M (option Paragraph) :=
  ok <- malloc alloc_ok ;;
  if negb ok then ret None
  else
    ok' <- malloc alloc_ok ;;
    if negb ok' then ret None
    else ret (Some {| lines := []; capacity := 8 |}).

(** [addLineToParagraph(para, line)] with [para] not null; the result is
    the paragraph after the call. *)
Definition addLineToParagraph (para : Paragraph) (line : cptr) : M Paragraph :=
  let store (para : Paragraph) : M Paragraph :=
    d <- strdup alloc_ok line ;;
    match d with
    | None => ret para
    | Some copy =>
        ret {| lines := lines para ++ [copy]; capacity := capacity para |}
    end in
  if (lineCount para >=? capacity para)%Z then
    let newCapacity := (capacity para * 2)%Z in
    ok <- malloc alloc_ok ;;
    if negb ok then ret para
    else store {| lines := lines para; capacity := newCapacity |}
  else store para.

Definition createDocument : M (option Document) :=
  ok <- malloc alloc_ok ;;
  if negb ok then ret None
  else
    ok' <- malloc alloc_ok ;;
    if negb ok' then ret None
    else ret (Some {| paragraphs := []; docCapacity := 8 |}).

(** [addParagraphToDocument(doc, para)] with neither pointer null. *)
Definition addParagraphToDocument (doc : Document) (para : Paragraph)
  : M Document :=
  let store (doc : Document) : M Document :=
    ret {| paragraphs := paragraphs doc ++ [para];
           docCapacity := docCapacity doc |} in
  if (paragraphCount doc >=? docCapacity doc)%Z then
    let newCapacity := (docCapacity doc * 2)%Z in
    ok <- malloc alloc_ok ;;
    if negb ok then ret doc
    else store {| paragraphs := paragraphs doc; docCapacity := newCapacity |}
  else store doc.

(** the loop that advances [textPtr] over newline bytes *)
Fixpoint skip_newlines (textPtr : cptr) : cptr :=
  match textPtr with
  | [] => []
  | b :: p' => if Byte.eqb b NL then skip_newlines p' else textPtr
  end.

(** The scan that advances [lineEnd] to the next newline or to [paraEnd], started at
    [lineEnd = lineStart] with [room = paraEnd - lineStart]; the result is
    [lineEnd - lineStart]. *)
Fixpoint find_line_end (room : nat) (lineEnd : cptr) : nat :=
  match room with
  | 0 => 0
  | S room' =>
      if Byte.eqb (deref lineEnd) NL then 0
      else S (find_line_end room' (tl lineEnd))
  end.

(** The loop over the lines of one paragraph,
    run while [lineStart < paraEnd] and [lineStart] is not at a NUL, with
    [room = paraEnd - lineStart]. *)
Fixpoint line_loop (fuel : nat) (lineStart : cptr) (room : nat)
         (para : Paragraph) : M (outcome Paragraph) :=
  match fuel with
  | 0 => ret OutOfFuel
  | S fuel' =>
      if (0 <? room) && negb (Byte.eqb (deref lineStart) NUL) then
        let lineLength := find_line_end room lineStart in
        ok <- malloc alloc_ok ;;
        if negb ok then ret Null
        else
          let line := strncpy lineStart lineLength ++ [NUL] in
          para' <- addLineToParagraph para line ;;
          let lineStart' := skipn lineLength lineStart in
          let room' := room - lineLength in
          if (0 <? room') && Byte.eqb (deref lineStart') NL
          then line_loop fuel' (tl lineStart') (room' - 1) para'
          else line_loop fuel' lineStart' room' para'
      else ret (Ret para)
  end.

(** The main loop of [parseDocument], the loop that runs until [textPtr] is at a NUL. *)
Fixpoint parse_loop (fuel : nat) (doc : Document) (textPtr : cptr)
  : M (outcome Document) :=
  match fuel with
  | 0 => ret OutOfFuel
  | S fuel' =>
      if Byte.eqb (deref textPtr) NUL then ret (Ret doc)
      else
        let textPtr := skip_newlines textPtr in
        if Byte.eqb (deref textPtr) NUL then ret (Ret doc)
        else
          let paraStart := textPtr in
          let '(paraEnd, nextParaStart) :=
            match strstr paraStart [NL; NL] with
            | None =>
                let e := strlen paraStart in (e, skipn e paraStart)
            | Some q => (q, skipn (q + 2) paraStart)
            end in
          p <- createParagraph ;;
          match p with
          | None => ret Null
          | Some para =>
              r <- line_loop (S paraEnd) paraStart paraEnd para ;;
              match r with
              | Ret para' =>
                  doc' <- addParagraphToDocument doc para' ;;
                  parse_loop fuel' doc' nextParaStart
              | Null => ret Null
              | OutOfFuel => ret OutOfFuel
              end
          end
  end.

Definition parseDocument (text : cptr) : M (outcome Document) :=
  d <- createDocument ;;
  match d with
  | None => ret Null
  | Some doc => parse_loop (S (strlen text)) doc text
  end.

End WithAllocator.

(** The lines of a document, paragraph by paragraph. *)
Definition doc_lines (doc : Document) : list (list cptr) :=
  map lines (paragraphs doc).

End Parser.
Import Parser.

(* ===================================================================== *)
(** * The width oracle                                                    *)
(* ===================================================================== *)

Module Width.

(** [wchar_t] *)
Definition wchar := N.

(** What [mbrtowc] returns: [(size_t)-1], [(size_t)-2], [0], or the
    positive number of bytes that complete the character stored in [wc]. *)
Inductive mbresult : Type :=
| MbInvalid
| MbIncomplete
| MbZero
| MbChar (consumed : positive) (wc : wchar).

(** [mbstate_t]: the bytes of a character begun by earlier calls. *)
Record mbstate : Type := mkState { pending : list byte }.

(** [memset(&state, 0, sizeof(state))] *)
Definition mbstate_init : mbstate := {| pending := [] |}.

Definition in_range (lo hi : N) (b : byte) : bool :=
  ((lo <=? Byte.to_N b) && (Byte.to_N b <=? hi))%N.

(** The continuation bytes of a character: [need] of them are expected, the
    next one within [lo..hi]; [acc] holds the bits read so far, [n] the
    number of bytes read so far. *)
Fixpoint utf8_tail (need : nat) (lo hi : N) (acc : N) (n : positive)
         (s : list byte) : mbresult :=
  match need with
  | 0 => MbChar n acc
  | S need' =>
      match s with
      | [] => MbIncomplete
      | b :: s' =>
          if in_range lo hi b
          then utf8_tail need' 128 191 (acc * 64 + (Byte.to_N b - 128))%N
                         (Pos.succ n) s'
          else MbInvalid
      end
  end.

(** Modelled from the spec: the C library's multibyte decoder is not part of
    the repository; the spec has [displayWidth] decode its input as UTF-8.
    [utf8_decode s] decodes the first character of [s] from the initial
    conversion state, accepting the well-formed sequences of one to four
    bytes (no overlong forms, no surrogates, nothing above U+10FFFF). *)
Definition utf8_decode (s : list byte) : mbresult :=
  match s with
  | [] => MbIncomplete
  | b :: s' =>
      let v := Byte.to_N b in
      if (v =? 0)%N then MbZero
      else if (v <? 128)%N then MbChar 1 v
      else if (v <? 194)%N then MbInvalid
      else if (v <? 224)%N then utf8_tail 1 128 191 (v - 192)%N 1 s'
      else if (v <? 240)%N then
        utf8_tail 2 (if (v =? 224)%N then 160 else 128)%N
                    (if (v =? 237)%N then 159 else 191)%N (v - 224)%N 1 s'
      else if (v <? 245)%N then
        utf8_tail 3 (if (v =? 240)%N then 144 else 128)%N
                    (if (v =? 244)%N then 143 else 191)%N (v - 240)%N 1 s'
      else MbInvalid
  end.

(** Modelled from the spec: [mbrtowc(&wc, ptr, len, &state)] in a UTF-8
    locale, given the [len] bytes at [ptr].  The bytes kept in the state are
    decoded ahead of the new ones; an incomplete character is absorbed into
    the state; a complete one leaves the initial state. *)
Definition mbrtowc (s : list byte) (state : mbstate) : mbresult * mbstate :=
  match utf8_decode (pending state ++ s) with
  | MbChar total wc =>
      (MbChar (Pos.of_nat (Pos.to_nat total - length (pending state))) wc,
       mbstate_init)
  | MbZero => (MbZero, mbstate_init)
  | MbIncomplete => (MbIncomplete, {| pending := pending state ++ s |})
  | MbInvalid => (MbInvalid, state)
  end.

Section WithTable.

(** [wcwidth]: the column width of a wide character according to the C
    library's table, negative for a character that is not printable. *)
Variable wcwidth : wchar -> Z.

(** The loop of [getDisplayWidth], run while [len > 0]. *)
Equations? width_loop (ptr : cptr) (len : nat) (state : mbstate) (width : Z)
  : Z by wf len lt :=
  width_loop ptr 0 state width := width;
  width_loop ptr (S l) state width with mbrtowc (firstn (S l) ptr) state => {
    | (MbInvalid, _) := width_loop (tl ptr) l mbstate_init (width + 1);
    | (MbIncomplete, _) := width_loop (tl ptr) l mbstate_init (width + 1);
    | (MbZero, _) := width;
    | (MbChar consumed wc, state') :=
        let char_width := wcwidth wc in
        let char_width := if (char_width <? 0)%Z then 1%Z else char_width in
        width_loop (skipn (Pos.to_nat consumed) ptr)
                   (S l - Pos.to_nat consumed) state' (width + char_width) }.
Proof.
  all: try lia.
  pose proof (Pos2Nat.is_pos consumed).
  destruct (Pos.to_nat consumed); lia.
Qed.

Definition getDisplayWidth (str : cptr) : Z :=
  width_loop str (strlen str) mbstate_init 0.

End WithTable.

(** A small width table for examples: control characters are not printable,
    combining marks and the zero-width space take no column, CJK and
    full-width forms take two, everything else one. *)
Definition wcwidth_sample (wc : wchar) : Z :=
  if ((wc <? 32) || ((127 <=? wc) && (wc <? 160)))%N then (-1)%Z
  else if (((768 <=? wc) && (wc <=? 879)) || (wc =? 8203))%N then 0%Z
  else if (((4352 <=? wc) && (wc <=? 4447))
           || ((11904 <=? wc) && (wc <=? 42191))
           || ((44032 <=? wc) && (wc <=? 55203))
           || ((63744 <=? wc) && (wc <=? 64255))
           || ((65280 <=? wc) && (wc <=? 65376)))%N then 2%Z
  else 1%Z.

End Width.
Import Width.

(* ===================================================================== *)
(** * The terminal probe                                                  *)
(* ===================================================================== *)

Module Terminal.

(** [struct winsize]; its fields are unsigned. *)
Record winsize : Type := mkWinsize {
  ws_row : N;
  ws_col : N;
  ws_xpixel : N;
  ws_ypixel : N
}.

(** [getTerminalWidth], given what [ioctl(STDOUT_FILENO, TIOCGWINSZ, &w)]
    does: [None] when it returns -1, otherwise the structure it fills in. *)
Definition getTerminalWidth (ioctl_winsz : option winsize) : Z :=
  match ioctl_winsz with
  | None => 80
  | Some w => Z.of_N (ws_col w)
  end.

End Terminal.
Import Terminal.

(* ===================================================================== *)
(** * The renderer                                                        *)
(* ===================================================================== *)

Module Render.

(** [for (k = ...; k < padding; k++) putchar(' ');] from the given [k]:
    the bytes written to standard output. *)
Equations? pad_loop (k padding : Z) : list byte
  by wf (Z.to_nat (padding - k)) lt :=
  pad_loop k padding with Z_lt_dec k padding => {
    | left _ := SP :: pad_loop (k + 1) padding;
    | right _ := [] }.
Proof. lia. Qed.

Section WithTable.

Variable wcwidth : wchar -> Z.

(** The body of the loop over the lines of a paragraph. *)
Definition print_line (terminalWidth : Z) (line : cptr) : list byte :=
  let displayWidth := getDisplayWidth wcwidth line in
  let padding := Z.quot (terminalWidth - displayWidth) 2 in
  let padding := if (padding <? 0)%Z then 0%Z else padding in
  pad_loop 0 padding ++ (cstr line ++ [NL]).

(** The loop over the lines of a paragraph, from line [j] on. *)
Fixpoint print_lines (terminalWidth : Z) (ls : list cptr) : list byte :=
  match ls with
  | [] => []
  | line :: rest => print_line terminalWidth line ++ print_lines terminalWidth rest
  end.

(** The loop over the paragraphs, from paragraph [i] on. *)
Fixpoint print_paragraphs (terminalWidth paragraphCount i : Z)
         (ps : list Paragraph) : list byte :=
  match ps with
  | [] => []
  | para :: rest =>
      print_lines terminalWidth (lines para)
      ++ (if (i <? paragraphCount - 1)%Z then [NL] else [])
      ++ print_paragraphs terminalWidth paragraphCount (i + 1) rest
  end.

(** [printCenteredDocument(doc)]: the bytes written to standard output. *)
Definition printCenteredDocument (ioctl_winsz : option winsize)
           (doc : option Document) : list byte :=
  match doc with
  | None => []
  | Some doc =>
      let terminalWidth := getTerminalWidth ioctl_winsz in
      print_paragraphs terminalWidth (paragraphCount doc) 0 (paragraphs doc)
  end.

End WithTable.

End Render.
Import Render.

(* ===================================================================== *)
(** * The driver                                                          *)
(* ===================================================================== *)

Module Driver.

Record run : Type := mkRun {
  exit_status : Z;
  stdout : list byte
}.

(** [main] from the point where the input has been read: [inputContent] is
    the buffer returned by the loader, or [None] for a null pointer.  The
    result is [None] only if a loop of the model runs out of fuel. *)
Definition main_after_read (alloc_ok : nat -> bool) (wcwidth : wchar -> Z)
           (ioctl_winsz : option winsize) (inputContent : option cptr)
  : M (option run) :=
  match inputContent with
  | None => ret (Some {| exit_status := 1; stdout := [] |})
  | Some text =>
      r <- parseDocument alloc_ok text ;;
      match r with
      | Null => ret (Some {| exit_status := 1; stdout := [] |})
      | Ret doc =>
          ret (Some {| exit_status := 0;
                       stdout := printCenteredDocument wcwidth ioctl_winsz
                                                       (Some doc) |})
      | OutOfFuel => ret None
      end
  end.

End Driver.
Import Driver.

(* ===================================================================== *)
(** * Word wrapping                                                       *)
(* ===================================================================== *)

Module Wrap.

Section WithLocale.

Variable alloc_ok : nat -> bool.
Variable wcwidth : wchar -> Z.

(** [iswspace(btowc(c))] for the byte [c]: the white space of the locale. *)
Variable wspace : byte -> bool.

(** The loop that advances [ptr] over white space, up to a NUL. *)
Fixpoint skip_spaces (ptr : cptr) : cptr :=
  match ptr with
  | [] => []
  | b :: ptr' =>
      if negb (Byte.eqb b NUL) && wspace b then skip_spaces ptr' else ptr
  end.

(** The loop that copies the next word into [word], which holds [i] bytes
    so far, and advances [ptr] to the white space or NUL behind the word;
    no more than [textLen] bytes are stored. *)
Fixpoint word_loop (textLen : nat) (ptr : cptr) (word : list byte)
  : list byte * cptr :=
  match ptr with
  | [] => (word, [])
  | b :: ptr' =>
      if negb (Byte.eqb b NUL) && negb (wspace b) then
        word_loop textLen ptr'
                  (if length word <? textLen then word ++ [b] else word)
      else (word, ptr)
  end.

(** [strcat(dest, src)]: the string that [dest] holds afterwards. *)
Definition strcat (dest src : cptr) : cptr := cstr dest ++ cstr src.

(** [strcpy(dest, src)], likewise. *)
Definition strcpy (src : cptr) : cptr := cstr src.

(** What follows the main loop of [wrapTextToWidth]: the last line is
    added if it has content. *)
Definition wrap_finish (currentLine : cptr) (currentLineWidth : Z)
           (para : Paragraph) : M (outcome Paragraph) :=
  if (0 <? currentLineWidth)%Z then
    para' <- addLineToParagraph alloc_ok para currentLine ;;
    ret (Ret para')
  else ret (Ret para).

(** The main loop of [wrapTextToWidth], run until [ptr] is at a NUL. *)
Fixpoint wrap_loop (fuel : nat) (textLen : nat) (maxWidth : Z) (ptr : cptr)
         (currentLine : cptr) (currentLineWidth : Z) (para : Paragraph)
  : M (outcome Paragraph) :=
  match fuel with
  | 0 => ret OutOfFuel
  | S fuel' =>
      if Byte.eqb (deref ptr) NUL
      then wrap_finish currentLine currentLineWidth para
      else
        let ptr := skip_spaces ptr in
        if Byte.eqb (deref ptr) NUL
        then wrap_finish currentLine currentLineWidth para
        else
          let '(word, ptr) := word_loop textLen ptr [] in
          let word := word ++ [NUL] in
          let wordWidth := getDisplayWidth wcwidth word in
          if (currentLineWidth =? 0)%Z
             || (currentLineWidth + 1 + wordWidth <=? maxWidth)%Z
          then
            let '(currentLine, currentLineWidth) :=
              if (0 <? currentLineWidth)%Z then
                if strlen currentLine + 1 <? textLen
                then (strcat currentLine [SP], (currentLineWidth + 1)%Z)
                else (currentLine, currentLineWidth)
              else (currentLine, currentLineWidth) in
            let '(currentLine, currentLineWidth) :=
              if strlen currentLine + strlen word <? textLen
              then (strcat currentLine word, (currentLineWidth + wordWidth)%Z)
              else (currentLine, currentLineWidth) in
            wrap_loop fuel' textLen maxWidth ptr currentLine currentLineWidth
                      para
          else
            para' <- addLineToParagraph alloc_ok para currentLine ;;
            let '(currentLine, currentLineWidth) :=
              if strlen word <? textLen + 1
              then (strcpy word, wordWidth)
              else ([], 0%Z) in
            wrap_loop fuel' textLen maxWidth ptr currentLine currentLineWidth
                      para'
  end.

(** [wrapTextToWidth(text, maxWidth)] *)
Definition wrapTextToWidth (text : cptr) (maxWidth : Z)
  : M (outcome Paragraph) :=
  p <- createParagraph alloc_ok ;;
  match p with
  | None => ret Null
  | Some para =>
      let textLen := strlen text in
      ok <- malloc alloc_ok ;;
      if negb ok then ret Null
      else
        let currentLine : cptr := [] in
        ok' <- malloc alloc_ok ;;
        if negb ok' then ret Null
        else wrap_loop (S (length text)) textLen maxWidth text currentLine 0
                       para
  end.

End WithLocale.

(** The white space of the C locale: space, tab, newline, vertical tab,
    form feed, carriage return. *)
Definition wspace_c (b : byte) : bool :=
  Byte.eqb b x20 || Byte.eqb b x09 || Byte.eqb b x0a || Byte.eqb b x0b
  || Byte.eqb b x0c || Byte.eqb b x0d.

End Wrap.
Import Wrap.

(* ===================================================================== *)
(** * Reading standard input                                              *)
(* ===================================================================== *)

Module Loader.

(** [size_t] arithmetic, on 64 bits. *)
Definition SIZE_MOD : N := (2 ^ 64)%N.
Definition size_sub (a b : N) : N := ((a + SIZE_MOD - b mod SIZE_MOD) mod SIZE_MOD)%N.
Definition size_mul (a b : N) : N := ((a * b) mod SIZE_MOD)%N.

(** An input stream: the bytes that can be read from it, and whether they
    end in a read error rather than in the end of the stream. *)
Record stream : Type := mkStream {
  data : list byte;
  fails : bool
}.

(** [fread(ptr, 1, request, stdin)]: the bytes stored and the stream
    afterwards. *)
Definition fread (request : N) (st : stream) : list byte * stream :=
  (firstn (N.to_nat request) (data st),
   mkStream (skipn (N.to_nat request) (data st)) (fails st)).

(** [ferror(stdin)] behind a call of [fread] that stored nothing. *)
Definition ferror (st : stream) : bool := fails st.

Section WithAllocator.

Variable alloc_ok : nat -> bool.

(** The loop of [readStdinToString]; [buffer] holds the [size] bytes read
    so far.  The result is the bytes read and the capacity of the block. *)
Fixpoint read_loop (fuel : nat) (buffer : list byte) (capacity : N)
         (stdin : stream) : M (outcome (list byte * N)) :=
  match fuel with
  | 0 => ret OutOfFuel
  | S fuel' =>
      let size := N.of_nat (length buffer) in
      let '(chunk, stdin) :=
        fread (size_sub (size_sub capacity size) 1) stdin in
      let bytesRead := N.of_nat (length chunk) in
      if (0 <? bytesRead)%N then
        let buffer := buffer ++ chunk in
        let size := N.of_nat (length buffer) in
        if (size_sub capacity 1 <=? size)%N then
          let newCapacity := size_mul capacity 2 in
          if (newCapacity <? capacity)%N then ret Null
          else
            ok <- malloc alloc_ok ;;
            if negb ok then ret Null
            else read_loop fuel' buffer newCapacity stdin
        else read_loop fuel' buffer capacity stdin
      else if ferror stdin then ret Null
           else ret (Ret (buffer, capacity))
  end.

(** [readStdinToString()] *)
Definition readStdinToString (stdin : stream)
  : M (outcome (list byte * N)) :=
  ok <- malloc alloc_ok ;;
  if negb ok then ret Null
  else read_loop (S (length (data stdin))) [] 1024 stdin.

(** [main] without arguments: standard input is read, parsed and
    printed. *)
Definition main_stdin (wcwidth : wchar -> Z) (ioctl_winsz : option winsize)
           (stdin : stream) : M (option run) :=
  r <- readStdinToString stdin ;;
  match r with
  | Ret (buffer, _) =>
      main_after_read alloc_ok wcwidth ioctl_winsz (Some buffer)
  | Null => main_after_read alloc_ok wcwidth ioctl_winsz None
  | OutOfFuel => ret None
  end.

End WithAllocator.

End Loader.
Import Loader.

(* ===================================================================== *)
(** * The specification's vocabulary                                      *)
(* ===================================================================== *)

Module Spec.

(** The strings [xs] joined by [sep]. *)
Fixpoint join (sep : list byte) (xs : list (list byte)) : list byte :=
  match xs with
  | [] => []
  | x :: rest =>
      match rest with
      | [] => x
      | _ :: _ => x ++ sep ++ join sep rest
      end
  end.

(** The lines of each paragraph joined by a newline, the paragraphs joined
    by two. *)
Definition join_document (doc : Document) : list byte :=
  join [NL; NL] (map (join [NL]) (doc_lines doc)).

Fixpoint drop_leading_newlines (s : list byte) : list byte :=
  match s with
  | [] => []
  | b :: s' => if Byte.eqb b NL then drop_leading_newlines s' else s
  end.

Definition drop_trailing_newlines (s : list byte) : list byte :=
  rev (drop_leading_newlines (rev s)).

(** [B] stripped of its leading and of its trailing newline bytes. *)
Definition strip_newlines (s : list byte) : list byte :=
  drop_trailing_newlines (drop_leading_newlines s).

(** [s] read from left to right, [pending] newline bytes having been seen
    since the last other byte: the newlines before the first other byte
    ([started = false]) and after the last one are dropped, and a run of
    newlines between two other bytes is cut down to two at most. *)
Fixpoint squeeze_newlines (started : bool) (pending : nat) (s : list byte)
  : list byte :=
  match s with
  | [] => []
  | b :: s' =>
      if Byte.eqb b NL then squeeze_newlines started (S pending) s'
      else (if started then repeat NL (Nat.min pending 2) else [])
           ++ b :: squeeze_newlines true 0 s'
  end.

(** The number of bytes of [s] other than a newline that are the first such
    byte of [s] or come right after a run of at least [gap] newlines.  With
    [gap = 2] this counts the runs of content separated by blank lines, with
    [gap = 1] the non-empty lines. *)
Fixpoint count_starts (gap : nat) (started : bool) (pending : nat)
         (s : list byte) : nat :=
  match s with
  | [] => 0
  | b :: s' =>
      if Byte.eqb b NL then count_starts gap started (S pending) s'
      else (if negb started || (gap <=? pending) then 1 else 0)
           + count_starts gap true 0 s'
  end.

(** The line being read, finished: no line when no byte was read. *)
Definition close_line (line : list byte) : list (list byte) :=
  match line with
  | [] => []
  | _ :: _ => [line]
  end.

(** The paragraph being read, finished: no paragraph when it has no
    line. *)
Definition close_para (para : list (list byte)) : list (list (list byte)) :=
  match para with
  | [] => []
  | _ :: _ => [para]
  end.

(** The paragraphs of a text and their lines, as the specification words
    the boundaries: a byte of content behind a run of two or more newline
    bytes opens a new paragraph, a byte of content behind a single newline
    opens a new line of the same paragraph, and the newlines before the
    first and behind the last byte of content bound nothing.  [para] holds
    the finished lines of the paragraph being read, [line] the bytes of the
    line being read and [pending] the number of newlines since the last
    byte of content. *)
Fixpoint paragraphs_from (para : list (list byte)) (line : list byte)
         (pending : nat) (s : list byte) : list (list (list byte)) :=
  match s with
  | [] => close_para (para ++ close_line line)
  | b :: s' =>
      if Byte.eqb b NL then paragraphs_from para line (S pending) s'
      else match pending with
           | 0 => paragraphs_from para (line ++ [b]) 0 s'
           | 1 => paragraphs_from (para ++ close_line line) [b] 0 s'
           | _ => close_para (para ++ close_line line)
                  ++ paragraphs_from [] [b] 0 s'
           end
  end.

Definition paragraphs_of_text (s : list byte) : list (list (list byte)) :=
  paragraphs_from [] [] 0 s.

(** Whether [s] holds three newline bytes in a row. *)
Fixpoint has_triple_newline (s : list byte) : bool :=
  match s with
  | [] => false
  | a :: s' =>
      match s' with
      | b :: c :: _ => Byte.eqb a NL && Byte.eqb b NL && Byte.eqb c NL
      | _ => false
      end
      || has_triple_newline s'
  end.

(** The width of a character: [wcwidth], with 1 for a negative answer. *)
Definition column_width (wcwidth : wchar -> Z) (wc : wchar) : Z :=
  if (wcwidth wc <? 0)%Z then 1%Z else wcwidth wc.

(** [displayWidth] as the specification words it: the scan ends at the
    first NUL or at the end of the buffer; a decoded character adds its
    column width and the scan goes on behind it; a malformed or incomplete
    sequence adds one column and the scan goes on one byte further, with a
    fresh decoder. *)
Inductive displayWidth_spec (wcwidth : wchar -> Z) : cptr -> Z -> Prop :=
| dw_end : displayWidth_spec wcwidth [] 0
| dw_nul : forall s, displayWidth_spec wcwidth (NUL :: s) 0
| dw_char : forall s n wc w,
    utf8_decode (cstr s) = MbChar n wc ->
    displayWidth_spec wcwidth (skipn (Pos.to_nat n) s) w ->
    displayWidth_spec wcwidth s (column_width wcwidth wc + w)
| dw_bad : forall b s w,
    b <> NUL ->
    utf8_decode (cstr (b :: s)) = MbInvalid
    \/ utf8_decode (cstr (b :: s)) = MbIncomplete ->
    displayWidth_spec wcwidth s w ->
    displayWidth_spec wcwidth (b :: s) (1 + w).

(** The byte of value [x], for [x < 256]. *)
Definition byte_of (x : N) : byte :=
  match Byte.of_N x with
  | Some b => b
  | None => x00
  end.

(** The UTF-8 encoding of the code point [cp], in one to four bytes. *)
Definition utf8_encode (cp : N) : list byte :=
  if (cp <? 128)%N then [byte_of cp]
  else if (cp <? 2048)%N then
    [byte_of (192 + cp / 64); byte_of (128 + cp mod 64)]
  else if (cp <? 65536)%N then
    [byte_of (224 + cp / 4096); byte_of (128 + (cp / 64) mod 64);
     byte_of (128 + cp mod 64)]
  else
    [byte_of (240 + cp / 262144); byte_of (128 + (cp / 4096) mod 64);
     byte_of (128 + (cp / 64) mod 64); byte_of (128 + cp mod 64)].

(** The code points that UTF-8 encodes: up to U+10FFFF, surrogates left
    out. *)
Definition is_scalar (cp : N) : bool :=
  ((cp <? 55296) || ((57343 <? cp) && (cp <=? 1114111)))%N.

(** Whether the byte string [a] ends on a character boundary: a decoder
    that reads [a] alone, resuming one byte further after a malformed
    sequence, is never left with an unfinished character.  A NUL is the
    character U+0000, of one byte. *)
Equations? ends_on_boundary (a : list byte) : bool by wf (length a) lt :=
  ends_on_boundary [] := true;
  ends_on_boundary (b :: a') with utf8_decode (b :: a') => {
    | MbChar n wc := ends_on_boundary (skipn (Pos.to_nat n) (b :: a'));
    | MbInvalid := ends_on_boundary a';
    | MbZero := ends_on_boundary a';
    | MbIncomplete := false }.
Proof.
  pose proof (Pos2Nat.is_pos n) as Hn.
  destruct (Pos.to_nat n) as [|k]; [lia|]. simpl.
  pose proof (length_skipn k a'). lia.
Qed.

(** A line as the parser stores it: not empty, free of newline and NUL. *)
Definition good_line (l : list byte) : Prop :=
  l <> [] /\ Forall (fun b => b <> NL /\ b <> NUL) l.

Definition good_para (ls : list (list byte)) : Prop :=
  ls <> [] /\ Forall good_line ls.

(** The shape of a text and its paragraphs: newlines, then the lines of a
    paragraph joined by single newlines, then either the end of the text
    (behind one newline at most) or two newlines and the rest of the
    text. *)
Inductive paras_of : list byte -> list (list (list byte)) -> Prop :=
| po_nil : forall nls,
    Forall (eq NL) nls -> paras_of nls []
| po_last : forall nls ls t,
    Forall (eq NL) nls -> good_para ls -> t = [] \/ t = [NL] ->
    paras_of (nls ++ join [NL] ls ++ t) [ls]
| po_cons : forall nls ls rest pss,
    Forall (eq NL) nls -> good_para ls -> paras_of rest pss ->
    paras_of (nls ++ join [NL] ls ++ NL :: NL :: rest) (ls :: pss).

(** The newlines that [squeeze_newlines] puts before a byte of content. *)
Definition lead (started : bool) (pending : nat) : list byte :=
  if started then repeat NL (Nat.min pending 2) else [].

(** Lines joined into paragraphs and paragraphs into a text. *)
Definition joined (pss : list (list (list byte))) : list byte :=
  join [NL; NL] (map (join [NL]) pss).

(** What [count_starts] adds for a byte of content. *)
Definition hit (gap : nat) (started : bool) (pending : nat) : nat :=
  if negb started || (gap <=? pending) then 1 else 0.

(** Whether the last byte of [t] is something other than a newline. *)
Definition ends_in_text (t : list byte) : Prop :=
  exists t' c, t = t' ++ [c] /\ c <> NL.

(** What comes back when the parsed text is joined again; no allocation
    fails. *)
Definition roundtrip (text : cptr) : outcome (list byte) :=
  match fst (parseDocument never_fails text 0) with
  | Ret doc => Ret (join_document doc)
  | Null => Null
  | OutOfFuel => OutOfFuel
  end.

End Spec.
Import Spec.

(* ===================================================================== *)
(** * Invariants of the growing arrays                                    *)
(* ===================================================================== *)

Module Invariants.

(** A line without newline and without NUL. *)
Definition clean_line (l : list byte) : Prop :=
  Forall (fun b => b <> NL /\ b <> NUL) l.

(** A capacity reached from 8 by doubling. *)
Definition is_doubling (c : Z) : Prop :=
  exists k : nat, c = (8 * 2 ^ Z.of_nat k)%Z.

(** The array of a paragraph holds its lines, and has grown only when it
    was full. *)
Definition para_fits (para : Paragraph) : Prop :=
  (lineCount para <= capacity para)%Z
  /\ (capacity para = 8 \/ capacity para <= 2 * lineCount para)%Z
  /\ is_doubling (capacity para).

(** Likewise for the array of a document. *)
Definition doc_fits (doc : Document) : Prop :=
  (paragraphCount doc <= docCapacity doc)%Z
  /\ (docCapacity doc = 8 \/ docCapacity doc <= 2 * paragraphCount doc)%Z
  /\ is_doubling (docCapacity doc).

(** A byte of 7-bit text: not NUL and below 128. *)
Definition is_ascii (b : byte) : Prop :=
  (0 < Byte.to_N b < 128)%N.

(** A byte that begins a character in no form of UTF-8, the strict one or
    the older one of up to six bytes: a continuation byte (80 to BF), a
    lead byte of an overlong form (C0, C1), or FE or FF. *)
Definition is_stray (b : byte) : Prop :=
  (128 <= Byte.to_N b < 194 \/ 254 <= Byte.to_N b)%N.

(** The column widths of the bytes of a 7-bit text, added up. *)
Definition ascii_width (wcwidth : wchar -> Z) (s : list byte) : Z :=
  fold_right (fun b acc => (column_width wcwidth (Byte.to_N b) + acc)%Z) 0%Z s.

(** One of the allocation requests number [n] to [n' - 1] fails: the
    requests that a call makes when it starts at count [n] and ends at
    count [n']. *)
Definition request_fails (alloc_ok : nat -> bool) (n n' : nat) : Prop :=
  exists k, n <= k < n' /\ alloc_ok k = false.

(** A byte of a word: no NUL and no white space. *)
Definition word_byte (wspace : byte -> bool) (b : byte) : Prop :=
  b <> NUL /\ wspace b = false.

(** A byte of a wrapped line: no NUL, and no white space but the space. *)
Definition wrapped_byte (wspace : byte -> bool) (b : byte) : Prop :=
  b <> NUL /\ (b = SP \/ wspace b = false).

(** The line buffer of the wrapping of a text of [textLen] bytes, with the
    width counted for it: an empty buffer has width 0. *)
Definition line_buffer (wspace : byte -> bool) (textLen : nat)
           (currentLine : list byte) (currentLineWidth : Z) : Prop :=
  Forall (wrapped_byte wspace) currentLine
  /\ length currentLine <= textLen
  /\ (0 <= currentLineWidth)%Z
  /\ match currentLine with
     | [] => currentLineWidth = 0%Z
     | b :: _ => word_byte wspace b
     end.

(** A line of the wrapping of a text of [textLen] bytes: it begins with a
    byte of a word. *)
Definition wrapped_line (wspace : byte -> bool) (textLen : nat)
           (l : list byte) : Prop :=
  Forall (wrapped_byte wspace) l
  /\ length l <= textLen
  /\ exists b l', l = b :: l' /\ word_byte wspace b.

(** A 7-bit byte that takes one column. *)
Definition narrow_byte (wcwidth : wchar -> Z) (b : byte) : Prop :=
  is_ascii b /\ column_width wcwidth (Byte.to_N b) = 1%Z.

(** The words of a text, its maximal runs of bytes that are not white
    space, in their order; [word] holds the bytes of the run being read. *)
Fixpoint words (wspace : byte -> bool) (s word : list byte)
  : list (list byte) :=
  match s with
  | [] => match word with [] => [] | _ :: _ => [word] end
  | b :: s' =>
      if wspace b then
        match word with
        | [] => words wspace s' []
        | _ :: _ => word :: words wspace s' []
        end
      else words wspace s' (word ++ [b])
  end.

(** The words [ws] of a line fit [maxWidth] columns, or are one word. *)
Definition fits (maxWidth : Z) (ws : list (list byte)) : Prop :=
  length ws = 1 \/ (Z.of_nat (length (join [SP] ws)) <= maxWidth)%Z.

(** The lines [ls] are a wrapping of the text [total] to [maxWidth]
    columns: each line is made of words, one at least, joined by single
    spaces; the words of the lines, in their order, are the words of the
    text; and a line of more than one word has [maxWidth] bytes at most. *)
Definition wrapped (wspace : byte -> bool) (maxWidth : Z)
           (total : list byte) (ls : list (list byte)) : Prop :=
  exists wss : list (list (list byte)),
    ls = map (join [SP]) wss
    /\ concat wss = words wspace total []
    /\ Forall (fun ws => ws <> [] /\ fits maxWidth ws) wss.

(** The capacities that the buffer of the loader runs through. *)
Definition is_buffer_size (c : N) : Prop :=
  exists k : nat, c = (1024 * 2 ^ N.of_nat k)%N.

End Invariants.
Import Invariants.

(* ===================================================================== *)
(** * Sample inputs                                                       *)
(* ===================================================================== *)

Module Samples.

(** A terminal of 20 columns, and one of 80. *)
Definition tty20 : option winsize := Some (mkWinsize 24 20 0 0).
Definition tty80 : option winsize := Some (mkWinsize 24 80 0 0).

(** A terminal that reports no columns. *)
Definition tty0 : option winsize := Some (mkWinsize 0 0 0 0).

(** ["hi\n"] *)
Definition text_hi : cptr := [x68; x69; x0a].

(** ["hi\n\nworld\n"] *)
Definition text_hi_world : cptr :=
  [x68; x69; x0a; x0a; x77; x6f; x72; x6c; x64; x0a].

(** ["a\nb\n\nc\n"] *)
Definition text_abc : cptr := [x61; x0a; x62; x0a; x0a; x63; x0a].

(** ["\n\nhi\n\n\n"] *)
Definition text_blank_hi : cptr := [x0a; x0a; x68; x69; x0a; x0a; x0a].

(** U+65E5 U+672C, two wide characters, and a newline. *)
Definition text_nihon : cptr := [xe6; x97; xa5; xe6; x9c; xac; x0a].

(** ["a\n\n\nb"]: two paragraphs three newlines apart. *)
Definition text_wide_gap : cptr := [x61; x0a; x0a; x0a; x62].

(** U+200B, the zero-width space. *)
Definition zwsp : cptr := [xe2; x80; x8b].

(** U+65E5 alone, and its first two bytes. *)
Definition nichi : cptr := [xe6; x97; xa5].
Definition nichi_cut : cptr := [xe6; x97].

(** ["a"], and nine one-letter paragraphs. *)
Definition text_a : cptr := [x61].
Definition text_nine : cptr :=
  [x61; x0a; x0a; x62; x0a; x0a; x63; x0a; x0a; x64; x0a; x0a; x65; x0a; x0a;
   x66; x0a; x0a; x67; x0a; x0a; x68; x0a; x0a; x69].

(** Two buffers that hold the string ["a\n"] and differ behind its NUL. *)
Definition buffer_one : cptr := [x61; x0a; x00; x62; x0a].
Definition buffer_two : cptr := [x61; x0a; x00; x0a; x0a; x63; x00; x64].

(** Three bytes that begin no character. *)
Definition stray_bytes : cptr := [x80; xc0; xff].

(** The document of the text ["a\nb\n\nc\n"]. *)
Definition doc_abc : Document :=
  mkDocument [mkParagraph [[x61]; [x62]] 8; mkParagraph [[x63]] 8] 8.

End Samples.
Import Samples.

(* ===================================================================== *)
(** * Facts about bytes and C strings                                     *)
(* ===================================================================== *)

Lemma byte_eqb_spec (b c : byte) : reflect (b = c) (Byte.eqb b c).
Proof.
  destruct (Byte.eqb b c) eqn:E; constructor.
  - now apply Byte.byte_dec_bl.
  - now apply Byte.eqb_false.
Qed.

Lemma byte_eqb_refl (b : byte) : Byte.eqb b b = true.
Proof. now apply Byte.byte_dec_lb. Qed.

Lemma byte_eqb_neq (b c : byte) : b <> c -> Byte.eqb b c = false.
Proof. intros H. now destruct (byte_eqb_spec b c). Qed.

Ltac byte_cases b c :=
  let E := fresh "E" in
  destruct (byte_eqb_spec b c) as [E|E]; [try subst b|].

Section CStrFacts.

Lemma cstr_nonzero (s : list byte) : Forall nonzero (cstr s).
Proof.
  induction s as [|b s IH]; simpl; [constructor|].
  byte_cases b NUL; [constructor|]. now constructor.
Qed.

Lemma cstr_id (s : list byte) : Forall nonzero s -> cstr s = s.
Proof.
  induction 1 as [|b s Hb _ IH]; simpl; [reflexivity|].
  rewrite (byte_eqb_neq Hb). now rewrite IH.
Qed.

Lemma cstr_idem (s : list byte) : cstr (cstr s) = cstr s.
Proof. apply cstr_id, cstr_nonzero. Qed.

Lemma cstr_app (a b : list byte) :
  Forall nonzero a -> cstr (a ++ b) = a ++ cstr b.
Proof.
  induction 1 as [|x a Hx _ IH]; simpl; [reflexivity|].
  rewrite (byte_eqb_neq Hx). now rewrite IH.
Qed.

(** A buffer is its string followed by whatever lies behind it. *)
Lemma cstr_split (s : list byte) :
  exists r, s = cstr s ++ r /\ deref r = NUL.
Proof.
  induction s as [|b s [r [IH Hr]]]; simpl.
  - now exists [].
  - byte_cases b NUL.
    + now exists (NUL :: s).
    + exists r. split; [simpl; now f_equal | assumption].
Qed.

Lemma deref_cstr (s : list byte) : deref (cstr s) = deref s.
Proof.
  destruct s as [|b s]; simpl; [reflexivity|].
  now byte_cases b NUL.
Qed.

Lemma strlen_cstr (s : list byte) : strlen (cstr s) = strlen s.
Proof. unfold strlen. now rewrite cstr_idem. Qed.

Lemma strlen_pos (s : list byte) : deref s <> NUL -> 0 < strlen s.
Proof.
  destruct s as [|b s]; simpl; [congruence|]. intros Hb.
  unfold strlen. simpl. rewrite (byte_eqb_neq Hb). simpl. lia.
Qed.

Lemma tl_cstr (s : list byte) : tl (cstr s) = cstr (tl s) \/ deref s = NUL.
Proof.
  destruct s as [|b s]; simpl; [now left|].
  byte_cases b NUL; [now right | now left].
Qed.

Lemma skipn_cstr (k : nat) (s : list byte) :
  k <= strlen s -> skipn k (cstr s) = cstr (skipn k s).
Proof.
  revert s. induction k as [|k IH]; intros s Hk; [reflexivity|].
  destruct s as [|b s]; [reflexivity|].
  unfold strlen in *. simpl in *.
  byte_cases b NUL; simpl in *; [lia|]. apply IH. lia.
Qed.

Lemma strlen_skipn (k : nat) (s : list byte) :
  k <= strlen s -> strlen (skipn k s) = strlen s - k.
Proof.
  intros Hk. unfold strlen at 1. rewrite <- skipn_cstr by assumption.
  now rewrite length_skipn.
Qed.

Lemma strstr_cstr (s n : list byte) : strstr (cstr s) n = strstr s n.
Proof.
  induction s as [|b s IH]; simpl; [reflexivity|].
  byte_cases b NUL; simpl.
  - now destruct (is_prefix (cstr n) []).
  - rewrite (byte_eqb_neq E). rewrite cstr_idem. now rewrite IH.
Qed.

Lemma strstr_bound (s n : list byte) (q : nat) :
  strstr s n = Some q -> q + strlen n <= strlen s.
Proof.
  revert q. induction s as [|b s IH]; intros q; simpl.
  - destruct (is_prefix (cstr n) []) eqn:P; [|discriminate].
    intros [= <-]. unfold strlen. destruct (cstr n); [simpl; lia|discriminate].
  - assert (Hpre : forall x y, is_prefix x y = true -> length x <= length y).
    { induction x as [|a x IHx]; intros [|c y]; simpl; try lia; try discriminate.
      intros [_ H]%andb_prop. apply IHx in H. lia. }
    destruct (is_prefix _ _) eqn:P.
    + intros [= <-]. apply Hpre in P. exact P.
    + byte_cases b NUL; [discriminate|].
      destruct (strstr s n) as [q'|] eqn:Q; [|discriminate].
      intros [= <-]. specialize (IH _ eq_refl).
      unfold strlen in *. simpl. rewrite (byte_eqb_neq E). simpl. lia.
Qed.

End CStrFacts.

(* ===================================================================== *)
(** * The parser reads its input as a C string                            *)
(* ===================================================================== *)

Lemma line_loop_S (alloc_ok : nat -> bool) (fuel : nat) (lineStart : cptr)
      (room : nat) (para : Paragraph) :
  line_loop alloc_ok (S fuel) lineStart room para
  = if (0 <? room) && negb (Byte.eqb (deref lineStart) NUL) then
      let lineLength := find_line_end room lineStart in
      ok <- malloc alloc_ok ;;
      if negb ok then ret Null
      else
        let line := strncpy lineStart lineLength ++ [NUL] in
        para' <- addLineToParagraph alloc_ok para line ;;
        let lineStart' := skipn lineLength lineStart in
        let room' := room - lineLength in
        if (0 <? room') && Byte.eqb (deref lineStart') NL
        then line_loop alloc_ok fuel (tl lineStart') (room' - 1) para'
        else line_loop alloc_ok fuel lineStart' room' para'
    else ret (Ret para).
Proof. reflexivity. Qed.

Lemma parse_loop_S (alloc_ok : nat -> bool) (fuel : nat) (doc : Document)
      (textPtr : cptr) :
  parse_loop alloc_ok (S fuel) doc textPtr
  = if Byte.eqb (deref textPtr) NUL then ret (Ret doc)
    else
      let paraStart := skip_newlines textPtr in
      if Byte.eqb (deref paraStart) NUL then ret (Ret doc)
      else
        let '(paraEnd, nextParaStart) :=
          match strstr paraStart [NL; NL] with
          | None => let e := strlen paraStart in (e, skipn e paraStart)
          | Some q => (q, skipn (q + 2) paraStart)
          end in
        p <- createParagraph alloc_ok ;;
        match p with
        | None => ret Null
        | Some para =>
            r <- line_loop alloc_ok (S paraEnd) paraStart paraEnd para ;;
            match r with
            | Ret para' =>
                doc' <- addParagraphToDocument alloc_ok doc para' ;;
                parse_loop alloc_ok fuel doc' nextParaStart
            | Null => ret Null
            | OutOfFuel => ret OutOfFuel
            end
        end.
Proof. reflexivity. Qed.

Arguments line_loop : simpl never.
Arguments parse_loop : simpl never.

Lemma bind_ext {A B : Type} (m1 m2 : M A) (k1 k2 : A -> M B) (n : nat) :
  m1 n = m2 n ->
  (forall a n', k1 a n' = k2 a n') ->
  bind m1 k1 n = bind m2 k2 n.
Proof.
  intros Hm Hk. unfold bind. rewrite Hm. destruct (m2 n) as [a n']. apply Hk.
Qed.

Section ParserReadsString.

Variable alloc_ok : nat -> bool.

Lemma tl_skipn (s : list byte) : tl s = skipn 1 s.
Proof. now destruct s. Qed.

Lemma skip_newlines_cstr (s : list byte) :
  skip_newlines (cstr s) = cstr (skip_newlines s).
Proof.
  induction s as [|b s IH]; simpl; [reflexivity|].
  byte_cases b NUL; simpl; [reflexivity|].
  byte_cases b NL; simpl.
  - exact IH.
  - now rewrite (byte_eqb_neq E).
Qed.

Lemma strlen_skip_newlines (s : list byte) :
  strlen (skip_newlines s) <= strlen s.
Proof.
  induction s as [|b s IH]; simpl; [lia|].
  byte_cases b NL; [|lia].
  unfold strlen in *. simpl. lia.
Qed.

Lemma find_line_end_le (room : nat) (p : cptr) : find_line_end room p <= room.
Proof.
  revert p. induction room as [|room IH]; intros p; simpl; [lia|].
  destruct (Byte.eqb (deref p) NL); [lia|]. specialize (IH (tl p)). lia.
Qed.

Lemma find_line_end_cstr (room : nat) (p : cptr) :
  room <= strlen p -> find_line_end room (cstr p) = find_line_end room p.
Proof.
  revert p. induction room as [|room IH]; intros p Hr; simpl; [reflexivity|].
  rewrite deref_cstr. destruct (Byte.eqb (deref p) NL); [reflexivity|].
  f_equal. destruct (tl_cstr p) as [-> | Hz].
  - apply IH. rewrite tl_skipn, strlen_skipn; lia.
  - destruct p as [|b p]; simpl in *; [unfold strlen in Hr; simpl in Hr; lia|].
    subst b. unfold strlen in Hr. simpl in Hr. lia.
Qed.

Lemma strncpy_cstr (p : cptr) (k : nat) : strncpy (cstr p) k = strncpy p k.
Proof. unfold strncpy. now rewrite cstr_idem. Qed.

Lemma line_loop_cstr (fuel : nat) :
  forall (p : cptr) (room : nat) (para : Paragraph) (n : nat),
    room <= strlen p ->
    line_loop alloc_ok fuel (cstr p) room para n
    = line_loop alloc_ok fuel p room para n.
Proof.
  induction fuel as [|fuel IH]; intros p room para n Hr; [reflexivity|].
  rewrite !line_loop_S, deref_cstr.
  destruct ((0 <? room) && negb (Byte.eqb (deref p) NUL)) eqn:C; [|reflexivity].
  cbv zeta.
  rewrite find_line_end_cstr, strncpy_cstr by assumption.
  pose proof (find_line_end_le room p) as HL.
  set (L := find_line_end room p) in *.
  apply bind_ext; [reflexivity|]. intros [|] m; simpl; [|reflexivity].
  apply bind_ext; [reflexivity|]. intros para' n'.
  rewrite skipn_cstr by lia. rewrite deref_cstr.
  assert (Hs : room - L <= strlen (skipn L p)) by (rewrite strlen_skipn; lia).
  destruct ((0 <? room - L) && Byte.eqb (deref (skipn L p)) NL) eqn:D.
  - apply andb_prop in D as [D _]. apply Nat.ltb_lt in D.
    destruct (tl_cstr (skipn L p)) as [-> | Hz].
    + apply IH. rewrite tl_skipn, strlen_skipn; lia.
    + exfalso. destruct (skipn L p) as [|b q]; simpl in *.
      * unfold strlen in Hs; simpl in Hs; lia.
      * subst b. unfold strlen in Hs; simpl in Hs; lia.
  - now apply IH.
Qed.

Lemma parse_loop_cstr (fuel : nat) :
  forall (doc : Document) (s : cptr) (n : nat),
    parse_loop alloc_ok fuel doc (cstr s) n
    = parse_loop alloc_ok fuel doc s n.
Proof.
  induction fuel as [|fuel IH]; intros doc s n; [reflexivity|].
  rewrite !parse_loop_S, deref_cstr.
  destruct (Byte.eqb (deref s) NUL); [reflexivity|]. cbv zeta.
  rewrite skip_newlines_cstr, deref_cstr.
  set (p := skip_newlines s).
  destruct (Byte.eqb (deref p) NUL); [reflexivity|].
  rewrite strstr_cstr, strlen_cstr.
  assert (Hnext : forall k, k <= strlen p ->
            forall paraEnd (para : Paragraph) m,
              paraEnd <= strlen p ->
              (r <- line_loop alloc_ok (S paraEnd) (cstr p) paraEnd para ;;
               match r with
               | Ret para' =>
                   doc' <- addParagraphToDocument alloc_ok doc para' ;;
                   parse_loop alloc_ok fuel doc' (skipn k (cstr p))
               | Null => ret Null
               | OutOfFuel => ret OutOfFuel
               end) m
              = (r <- line_loop alloc_ok (S paraEnd) p paraEnd para ;;
                 match r with
                 | Ret para' =>
                     doc' <- addParagraphToDocument alloc_ok doc para' ;;
                     parse_loop alloc_ok fuel doc' (skipn k p)
                 | Null => ret Null
                 | OutOfFuel => ret OutOfFuel
                 end) m).
  { intros k Hk paraEnd para m He.
    apply bind_ext; [now apply line_loop_cstr|].
    intros [para'| |] m'; try reflexivity.
    apply bind_ext; [reflexivity|]. intros doc' m''.
    rewrite skipn_cstr by assumption. apply IH. }
  destruct (strstr p [NL; NL]) as [q|] eqn:Q.
  - apply strstr_bound in Q. change (strlen [NL; NL]) with 2 in Q.
    apply bind_ext; [reflexivity|]. intros [para|] m; [|reflexivity].
    apply Hnext; lia.
  - apply bind_ext; [reflexivity|]. intros [para|] m; [|reflexivity].
    apply Hnext; lia.
Qed.

Lemma parseDocument_cstr (text : cptr) (n : nat) :
  parseDocument alloc_ok (cstr text) n = parseDocument alloc_ok text n.
Proof.
  unfold parseDocument, bind.
  destruct (createDocument alloc_ok n) as [[doc|] m]; [|reflexivity].
  rewrite strlen_cstr. apply parse_loop_cstr.
Qed.

End ParserReadsString.

(* ===================================================================== *)
(** * The loops of the parser end within their fuel                       *)
(* ===================================================================== *)

Section ParserTerminates.

Variable alloc_ok : nat -> bool.

Lemma find_line_end_0 (room : nat) (p : cptr) :
  find_line_end room p = 0 -> room = 0 \/ deref p = NL.
Proof.
  destruct room as [|room]; simpl; [now left|].
  byte_cases (deref p) NL; [now right | discriminate].
Qed.

Lemma line_loop_fuel (fuel : nat) :
  forall (p : cptr) (room : nat) (para : Paragraph) (n : nat),
    room < fuel ->
    fst (line_loop alloc_ok fuel p room para n) <> OutOfFuel.
Proof.
  induction fuel as [|fuel IH]; intros p room para n Hf; [lia|].
  rewrite line_loop_S.
  destruct ((0 <? room) && negb (Byte.eqb (deref p) NUL)) eqn:C;
    [|discriminate].
  apply andb_prop in C as [C _]. apply Nat.ltb_lt in C.
  cbv zeta. set (L := find_line_end room p).
  unfold bind at 1. simpl. destruct (alloc_ok n); simpl; [|discriminate].
  unfold bind at 1.
  destruct (addLineToParagraph alloc_ok para _ (S n)) as [para' n'].
  destruct ((0 <? room - L) && Byte.eqb (deref (skipn L p)) NL) eqn:D.
  - apply IH. lia.
  - apply IH. destruct (Nat.eq_dec L 0) as [EL|EL]; [|lia]. exfalso.
    destruct (find_line_end_0 _ _ EL) as [H|H]; [lia|]. rewrite EL in D.
    simpl in D. rewrite H, byte_eqb_refl, andb_true_r in D.
    apply Nat.ltb_ge in D. lia.
Qed.

Lemma parse_loop_fuel (fuel : nat) :
  forall (doc : Document) (s : cptr) (n : nat),
    strlen s < fuel ->
    fst (parse_loop alloc_ok fuel doc s n) <> OutOfFuel.
Proof.
  induction fuel as [|fuel IH]; intros doc s n Hf; [lia|].
  rewrite parse_loop_S.
  destruct (Byte.eqb (deref s) NUL); [discriminate|]. cbv zeta.
  pose proof (strlen_skip_newlines s) as Hp.
  set (p := skip_newlines s) in *.
  byte_cases (deref p) NUL; [discriminate|].
  apply strlen_pos in E.
  assert (Hnext : forall paraEnd next (n : nat),
            strlen next < fuel ->
            fst ((p0 <- createParagraph alloc_ok ;;
                  match p0 with
                  | None => ret Null
                  | Some para =>
                      r <- line_loop alloc_ok (S paraEnd) p paraEnd para ;;
                      match r with
                      | Ret para' =>
                          doc' <- addParagraphToDocument alloc_ok doc para' ;;
                          parse_loop alloc_ok fuel doc' next
                      | Null => ret Null
                      | OutOfFuel => ret OutOfFuel
                      end
                  end) n) <> OutOfFuel).
  { intros paraEnd next m Hn. unfold bind at 1.
    destruct (createParagraph alloc_ok m) as [[para|] m1]; [|discriminate].
    unfold bind at 1.
    pose proof (@line_loop_fuel (S paraEnd) p paraEnd para m1 (Nat.lt_succ_diag_r _)) as HL.
    destruct (line_loop alloc_ok (S paraEnd) p paraEnd para m1) as [[para'| |] m2];
      simpl in HL; [|discriminate|congruence].
    unfold bind.
    destruct (addParagraphToDocument alloc_ok doc para' m2) as [doc' m3].
    now apply IH. }
  destruct (strstr p [NL; NL]) as [q|] eqn:Q.
  - apply strstr_bound in Q. change (strlen [NL; NL]) with 2 in Q.
    apply Hnext. rewrite strlen_skipn; lia.
  - apply Hnext. rewrite strlen_skipn; lia.
Qed.

(** [parseDocument] returns, whatever the allocator does. *)
Lemma parseDocument_returns (text : cptr) (n : nat) :
  fst (parseDocument alloc_ok text n) <> OutOfFuel.
Proof.
  unfold parseDocument, bind.
  destruct (createDocument alloc_ok n) as [[doc|] m]; [|discriminate].
  apply parse_loop_fuel. lia.
Qed.

End ParserTerminates.

(* ===================================================================== *)
(** * The parser when no allocation fails                                 *)
(* ===================================================================== *)

Section ParserSucceeds.

Lemma createParagraph_ok (n : nat) :
  createParagraph never_fails n = (Some (mkParagraph [] 8), S (S n)).
Proof. reflexivity. Qed.

Lemma addLineToParagraph_ok (para : Paragraph) (line : cptr) (n : nat) :
  exists cap n',
    addLineToParagraph never_fails para line n
    = (mkParagraph (lines para ++ [cstr line]) cap, n').
Proof.
  unfold addLineToParagraph.
  destruct (lineCount para >=? capacity para)%Z; cbn; unfold ret; eauto.
Qed.

Lemma addParagraphToDocument_ok (doc : Document) (para : Paragraph) (n : nat) :
  exists cap n',
    addParagraphToDocument never_fails doc para n
    = (mkDocument (paragraphs doc ++ [para]) cap, n').
Proof.
  unfold addParagraphToDocument.
  destruct (paragraphCount doc >=? docCapacity doc)%Z; cbn; unfold ret; eauto.
Qed.

Lemma good_line_nonnl (l : list byte) : good_line l -> Forall nonnl l.
Proof. intros [_ H]. eapply Forall_impl; [|exact H]. now intros b [Hb _]. Qed.

Lemma good_line_nonzero (l : list byte) : good_line l -> Forall nonzero l.
Proof. intros [_ H]. eapply Forall_impl; [|exact H]. now intros b [_ Hb]. Qed.

Lemma good_line_length (l : list byte) : good_line l -> 0 < length l.
Proof. intros [H _]. destruct l; [congruence | simpl; lia]. Qed.

Lemma good_line_deref (l rest : list byte) :
  good_line l -> deref (l ++ rest) <> NL /\ deref (l ++ rest) <> NUL.
Proof.
  intros [Hne H]. destruct l as [|b l]; [congruence|].
  now inversion H.
Qed.

Lemma find_line_end_line (l rest : list byte) (room : nat) :
  Forall nonnl l ->
  room = length l \/ (length l < room /\ deref rest = NL) ->
  find_line_end room (l ++ rest) = length l.
Proof.
  intros Hl. revert room. induction Hl as [|b l Hb _ IH]; intros room Hr; simpl.
  - destruct Hr as [-> | [Hlt Hd]]; [reflexivity|].
    destruct room; [lia|]. simpl. now rewrite Hd, byte_eqb_refl.
  - destruct room as [|room]; [simpl in Hr; lia|]. simpl.
    rewrite (byte_eqb_neq Hb). f_equal. apply IH. simpl in Hr.
    destruct Hr as [Hr | [Hr Hd]]; [left; lia | right; split; [lia | exact Hd]].
Qed.

Lemma strncpy_line (l rest : list byte) :
  Forall nonzero l -> cstr (strncpy (l ++ rest) (length l) ++ [NUL]) = l.
Proof.
  intros Hl. unfold strncpy. rewrite (cstr_app _ Hl), <- app_assoc.
  rewrite firstn_app, firstn_all, Nat.sub_diag, firstn_0, app_nil_r.
  rewrite (cstr_app _ Hl). simpl. apply app_nil_r.
Qed.

Lemma line_loop_done (fuel : nat) (p : cptr) (para : Paragraph) (n : nat) :
  0 < fuel ->
  line_loop never_fails fuel p 0 para n = (Ret para, n).
Proof. destruct fuel; [lia|]. reflexivity. Qed.

Lemma join_cons (sep l : list byte) (ls : list (list byte)) :
  ls <> [] -> join sep (l :: ls) = l ++ sep ++ join sep ls.
Proof. destruct ls; [congruence | reflexivity]. Qed.

(** The line loop stores the lines of a well-shaped paragraph, in order. *)
Lemma line_loop_lines (ls : list (list byte)) :
  forall (l t after : list byte) (fuel : nat) (para : Paragraph) (n : nat),
    Forall good_line (l :: ls) ->
    t = [] \/ t = [NL] ->
    length (join [NL] (l :: ls) ++ t) < fuel ->
    exists cap n',
      line_loop never_fails fuel (join [NL] (l :: ls) ++ t ++ after)
                (length (join [NL] (l :: ls) ++ t)) para n
      = (Ret (mkParagraph (lines para ++ l :: ls) cap), n').
Proof.
  induction ls as [|l2 ls IH]; intros l t after fuel para n Hg Ht Hf;
    inversion Hg as [|? ? Hl Hls]; subst;
    pose proof (good_line_length Hl) as Hlen;
    pose proof (good_line_nonnl Hl) as Hnl;
    pose proof (good_line_nonzero Hl) as Hnz;
    (destruct fuel as [|fuel]; [lia|]); rewrite line_loop_S.
  - (* the last line *)
    cbn [join] in *. rewrite length_app in *.
    destruct (good_line_deref (t ++ after) Hl) as [_ Hd].
    replace (0 <? length l + length t) with true by (symmetry; apply Nat.ltb_lt; lia).
    rewrite (byte_eqb_neq Hd). cbn [andb negb]. cbv zeta.
    rewrite (@find_line_end_line l (t ++ after) (length l + length t) Hnl)
      by (destruct Ht as [-> | ->]; simpl;
          [left; lia | right; split; [lia | reflexivity]]).
    unfold bind at 1. cbn [malloc never_fails negb]. unfold bind at 1.
    destruct (addLineToParagraph_ok para (strncpy (l ++ t ++ after) (length l) ++ [NUL]) (S n))
      as [cap [n' ->]].
    rewrite (strncpy_line _ Hnz), skipn_app, skipn_all, Nat.sub_diag. cbn [app skipn].
    replace (length l + length t - length l) with (length t) by lia.
    destruct Ht as [-> | ->]; cbn - [line_loop].
    + exists cap, n'. apply line_loop_done. lia.
    + exists cap, n'. apply line_loop_done. simpl in Hf. lia.
  - (* a line followed by others *)
    rewrite join_cons in * by discriminate.
    set (more := join [NL] (l2 :: ls)) in *.
    replace ((l ++ [NL] ++ more) ++ t ++ after)
      with (l ++ NL :: (more ++ t) ++ after)
      by (rewrite <- !app_assoc; reflexivity).
    replace (length ((l ++ [NL] ++ more) ++ t))
      with (length l + S (length (more ++ t))) in *
      by (rewrite <- !app_assoc, (length_app l); reflexivity).
    destruct (good_line_deref (NL :: (more ++ t) ++ after) Hl) as [_ Hd].
    replace (0 <? length l + S (length (more ++ t))) with true
      by (symmetry; apply Nat.ltb_lt; lia).
    rewrite (byte_eqb_neq Hd). cbn [andb negb]. cbv zeta.
    rewrite (@find_line_end_line l (NL :: (more ++ t) ++ after) _ Hnl)
      by (right; split; [lia | reflexivity]).
    unfold bind at 1. cbn [malloc never_fails negb]. unfold bind at 1.
    destruct (addLineToParagraph_ok para
                (strncpy (l ++ NL :: (more ++ t) ++ after) (length l) ++ [NUL]) (S n))
      as [cap [n' ->]].
    rewrite (strncpy_line _ Hnz), skipn_app, skipn_all, Nat.sub_diag. cbn [app skipn].
    replace (length l + S (length (more ++ t)) - length l)
      with (S (length (more ++ t))) by lia.
    cbn [deref Nat.ltb Nat.leb andb tl]. rewrite byte_eqb_refl.
    cbn [Nat.sub]. rewrite Nat.sub_0_r.
    destruct (IH l2 t after fuel (mkParagraph (lines para ++ [l]) cap) n' Hls Ht)
      as [cap' [n'' E]].
    { fold more. lia. }
    fold more in E. rewrite <- app_assoc, E. cbn [lines].
    rewrite <- app_assoc. cbn [app]. now exists cap', n''.
Qed.

Lemma strstr_nlnl_cons (b : byte) (h : list byte) :
  strstr (b :: h) [NL; NL]
  = if is_prefix [NL; NL] (cstr (b :: h)) then Some 0
    else if Byte.eqb b NUL then None
         else option_map S (strstr h [NL; NL]).
Proof. reflexivity. Qed.

Lemma strstr_found (rest : list byte) :
  strstr (NL :: NL :: rest) [NL; NL] = Some 0.
Proof. reflexivity. Qed.

(** Where [strstr] finds the end of a paragraph. *)
Lemma strstr_line (l u : list byte) :
  Forall (fun b => b <> NL /\ b <> NUL) l ->
  strstr (l ++ u) [NL; NL]
  = option_map (Nat.add (length l)) (strstr u [NL; NL]).
Proof.
  induction 1 as [|b l [Hb Hz] _ IH].
  - cbn [app length]. now destruct (strstr u [NL; NL]).
  - cbn [app]. rewrite strstr_nlnl_cons. cbn [cstr]. rewrite (byte_eqb_neq Hz).
    cbn [is_prefix]. rewrite (byte_eqb_neq (not_eq_sym Hb)). cbn [andb].
    rewrite IH. now destruct (strstr u [NL; NL]).
Qed.

Lemma strstr_break (b : byte) (u : list byte) :
  b <> NL ->
  strstr (NL :: b :: u) [NL; NL] = option_map S (strstr (b :: u) [NL; NL]).
Proof.
  intros Hb. rewrite strstr_nlnl_cons. cbn [cstr].
  change (Byte.eqb NL NUL) with false. cbv iota.
  cbn [is_prefix]. rewrite byte_eqb_refl. cbn [andb].
  byte_cases b NUL; cbn [is_prefix]; [reflexivity|].
  now rewrite (byte_eqb_neq (not_eq_sym Hb)).
Qed.

Lemma strstr_join (ls : list (list byte)) :
  forall (l u : list byte),
    Forall good_line (l :: ls) ->
    strstr (join [NL] (l :: ls) ++ u) [NL; NL]
    = option_map (Nat.add (length (join [NL] (l :: ls)))) (strstr u [NL; NL]).
Proof.
  induction ls as [|l2 ls IH]; intros l u Hg;
    inversion Hg as [|? ? Hl Hls]; subst.
  - cbn [join]. apply strstr_line, Hl.
  - rewrite join_cons by discriminate.
    set (more := join [NL] (l2 :: ls)) in *.
    rewrite <- !app_assoc. rewrite strstr_line by apply Hl.
    cbn [app]. assert (Hm : exists b m, more ++ u = b :: m /\ b <> NL).
    { inversion Hls as [|? ? [Hne H2] _]; subst. subst more.
      destruct l2 as [|b l2]; [congruence|]. inversion H2 as [|? ? [Hb _] _]; subst.
      destruct ls; cbn [join app]; eauto. }
    destruct Hm as [b [m [Em Hb]]]. rewrite Em, (strstr_break _ Hb), <- Em.
    unfold more. rewrite IH by assumption.
    rewrite !length_app. cbn [length].
    destruct (strstr u [NL; NL]); cbn [option_map]; [f_equal; lia | reflexivity].
Qed.

(** Every text that begins with a byte other than a newline begins with a
    well-shaped paragraph. *)
Lemma span_line (s : list byte) :
  exists l r, s = l ++ r /\ Forall nonnl l /\ (r = [] \/ deref r = NL).
Proof.
  induction s as [|b s [l [r [E [Hl Hr]]]]].
  - exists [], []. auto.
  - byte_cases b NL.
    + exists [], (NL :: s). auto.
    + exists (b :: l), r. subst s. repeat split; auto.
Qed.

Lemma para_decomp (k : nat) :
  forall s : list byte,
    length s <= k -> Forall nonzero s -> s <> [] -> deref s <> NL ->
    exists ls, good_para ls /\
      ((exists rest, s = join [NL] ls ++ NL :: NL :: rest)
       \/ (exists t, (t = [] \/ t = [NL]) /\ s = join [NL] ls ++ t)).
Proof.
  induction k as [|k IH]; intros s Hk Hz Hne Hd.
  - destruct s; [congruence | simpl in Hk; lia].
  - destruct s as [|b s]; [congruence|]. cbn [deref] in Hd.
    destruct (span_line s) as [l [r [-> [Hl Hr]]]].
    assert (Hg : good_line (b :: l)).
    { split; [discriminate|]. apply Forall_cons_iff in Hz as [Hb Hz].
      apply Forall_app in Hz as [Hz _]. constructor; [now split|].
      apply Forall_forall. intros x Hx. split.
      - exact (proj1 (Forall_forall _ _) Hl x Hx).
      - exact (proj1 (Forall_forall _ _) Hz x Hx). }
    destruct r as [|c1 r].
    { exists [b :: l]. split; [split; [discriminate | now constructor]|].
      right. exists []. split; [now left|]. cbn [join]. now rewrite !app_nil_r. }
    destruct Hr as [Hr|Hr]; [discriminate|]. cbn [deref] in Hr. subst c1.
    destruct r as [|c2 r].
    { exists [b :: l]. split; [split; [discriminate | now constructor]|].
      right. exists [NL]. split; [now right | reflexivity]. }
    byte_cases c2 NL.
    { exists [b :: l]. split; [split; [discriminate | now constructor]|].
      left. now exists r. }
    destruct (IH (c2 :: r)) as [ls [[Hls1 Hls2] Hs]].
    { cbn [length] in Hk. rewrite length_app in Hk. cbn [length] in *. lia. }
    { apply Forall_cons_iff in Hz as [_ Hz]. apply Forall_app in Hz as [_ Hz].
      now apply Forall_cons_iff in Hz as [_ Hz]. }
    { discriminate. }
    { exact E. }
    exists ((b :: l) :: ls). split; [split; [discriminate | now constructor]|].
    rewrite join_cons by assumption.
    destruct Hs as [[rest Hs] | [t [Ht Hs]]].
    + left. exists rest. rewrite <- !app_assoc. cbn [app]. now rewrite <- Hs.
    + right. exists t. split; [assumption|].
      rewrite <- !app_assoc. cbn [app]. now rewrite <- Hs.
Qed.

Lemma skip_newlines_split (s : list byte) :
  exists nls, Forall (eq NL) nls /\ s = nls ++ skip_newlines s
              /\ deref (skip_newlines s) <> NL.
Proof.
  induction s as [|b s [nls [Hn [E Hd]]]].
  - exists []. repeat split; [constructor | discriminate].
  - cbn [skip_newlines]. byte_cases b NL.
    + exists (NL :: nls). repeat split; [now constructor | | assumption].
      cbn [app]. now f_equal.
    + exists []. repeat split; [constructor | assumption].
Qed.

Lemma nonzero_deref_nil (s : list byte) :
  Forall nonzero s -> deref s = NUL -> s = [].
Proof. intros H E. destruct s as [|b s]; [reflexivity|]. inversion H. now subst. Qed.

(** One turn of the main loop on a text that holds a paragraph. *)
Lemma parse_loop_turn (fuel : nat) (doc : Document) (s : cptr)
      (paraEnd : nat) (next : cptr) (n : nat) :
  deref s <> NUL ->
  deref (skip_newlines s) <> NUL ->
  match strstr (skip_newlines s) [NL; NL] with
  | None => (strlen (skip_newlines s),
             skipn (strlen (skip_newlines s)) (skip_newlines s))
  | Some q => (q, skipn (q + 2) (skip_newlines s))
  end = (paraEnd, next) ->
  parse_loop never_fails (S fuel) doc s n
  = (r <- line_loop never_fails (S paraEnd) (skip_newlines s) paraEnd
                    (mkParagraph [] 8) ;;
     match r with
     | Ret para' =>
         doc' <- addParagraphToDocument never_fails doc para' ;;
         parse_loop never_fails fuel doc' next
     | Null => ret Null
     | OutOfFuel => ret OutOfFuel
     end) (S (S n)).
Proof.
  intros H1 H2 H3. rewrite parse_loop_S, (byte_eqb_neq H1). cbv zeta.
  rewrite (byte_eqb_neq H2), H3. reflexivity.
Qed.

(** The main loop produces the paragraphs that the shape of the text
    prescribes. *)
Lemma parse_loop_shape (fuel : nat) :
  forall s : list byte,
    Forall nonzero s -> length s < fuel ->
    exists pss,
      paras_of s pss /\
      forall (doc : Document) (n : nat),
      exists ps cap n',
        parse_loop never_fails fuel doc s n
        = (Ret (mkDocument (paragraphs doc ++ ps) cap), n')
        /\ map lines ps = pss.
Proof.
  induction fuel as [|fuel IH]; intros s Hz Hf; [lia|].
  assert (Hstop : forall (doc : Document) (n : nat),
            exists ps cap n',
              (Ret doc, n) = (Ret (mkDocument (paragraphs doc ++ ps) cap), n')
              /\ map lines ps = []).
  { intros [ps cap] n. exists [], cap, n. cbn. now rewrite app_nil_r. }
  byte_cases (deref s) NUL.
  { rewrite (nonzero_deref_nil Hz E). exists []. split; [now apply po_nil|].
    intros doc n. apply Hstop. }
  destruct (skip_newlines_split s) as [nls [Hn [Es Hd]]].
  assert (Hzp : Forall nonzero (skip_newlines s)).
  { rewrite Es in Hz. now apply Forall_app in Hz. }
  assert (Hlen : length s = length nls + length (skip_newlines s)).
  { rewrite Es at 1. apply length_app. }
  byte_cases (deref (skip_newlines s)) NUL.
  { exists []. split.
    - rewrite Es, (nonzero_deref_nil Hzp E0), app_nil_r. now apply po_nil.
    - intros doc n. rewrite parse_loop_S, (byte_eqb_neq E). cbv zeta.
      rewrite E0. apply Hstop. }
  assert (Hp : skip_newlines s <> []) by (intros Hp; rewrite Hp in E0; now apply E0).
  destruct (@para_decomp _ (skip_newlines s) (le_n _) Hzp Hp Hd) as [ls [Hg Hs]].
  destruct Hg as [Hne Hg]. destruct ls as [|l ls]; [congruence|].
  set (body := join [NL] (l :: ls)) in *.
  destruct Hs as [[rest Hs] | [t [Ht Hs]]].
  - (* two newlines end the paragraph *)
    assert (Hzr : Forall nonzero rest).
    { rewrite Hs in Hzp. apply Forall_app in Hzp as [_ Hzp].
      now inversion Hzp as [|? ? _ Hzp']; inversion Hzp'. }
    destruct (IH rest Hzr) as [pss [Hpss Hrun]].
    { rewrite Hs, length_app in Hlen. cbn [length] in Hlen. lia. }
    exists ((l :: ls) :: pss). split.
    { rewrite Es, Hs. apply po_cons; [assumption | now split | assumption]. }
    intros doc n.
    rewrite (@parse_loop_turn fuel doc s (length body) rest n E E0).
    2:{ rewrite Hs. unfold body. rewrite (strstr_join _ Hg). fold body.
        rewrite strstr_found. cbn [option_map]. rewrite Nat.add_0_r.
        replace (length body + 2) with (length (body ++ [NL; NL]))
          by (rewrite length_app; reflexivity).
        replace (body ++ NL :: NL :: rest) with ((body ++ [NL; NL]) ++ rest)
          by (rewrite <- app_assoc; reflexivity).
        now rewrite skipn_app, skipn_all, Nat.sub_diag. }
    rewrite Hs. unfold bind at 1.
    destruct (@line_loop_lines ls l [] (NL :: NL :: rest) (S (length body))
                (mkParagraph [] 8) (S (S n)) Hg (or_introl eq_refl)) as [cap [n1 EL]].
    { rewrite app_nil_r. fold body. lia. }
    fold body in EL. rewrite app_nil_r in EL. cbn [app] in EL.
    rewrite EL. cbn [lines app]. unfold bind at 1.
    destruct (addParagraphToDocument_ok doc (mkParagraph (l :: ls) cap) n1)
      as [cap' [n2 ->]].
    destruct (Hrun (mkDocument (paragraphs doc ++ [mkParagraph (l :: ls) cap]) cap') n2)
      as [ps [cap'' [n3 [-> Hps]]]].
    exists (mkParagraph (l :: ls) cap :: ps), cap'', n3. cbn [paragraphs map lines].
    rewrite <- app_assoc. split; [reflexivity | now f_equal].
  - (* the paragraph runs to the end of the text *)
    exists [l :: ls]. split.
    { rewrite Es, Hs. apply po_last; [assumption | now split | assumption]. }
    intros doc n.
    rewrite (@parse_loop_turn fuel doc s (length (body ++ t)) [] n E E0).
    2:{ unfold strlen. rewrite (cstr_id Hzp), skipn_all.
        rewrite Hs. unfold body. rewrite (strstr_join _ Hg).
        now destruct Ht as [-> | ->]. }
    rewrite Hs. unfold bind at 1.
    destruct (@line_loop_lines ls l t [] (S (length (body ++ t)))
                (mkParagraph [] 8) (S (S n)) Hg Ht) as [cap [n1 EL]].
    { fold body. lia. }
    fold body in EL. rewrite app_nil_r in EL.
    rewrite EL. cbn [lines app]. unfold bind at 1.
    destruct (addParagraphToDocument_ok doc (mkParagraph (l :: ls) cap) n1)
      as [cap' [n2 ->]].
    assert (Hfuel : 0 < fuel).
    { destruct (skip_newlines s); [congruence|]. cbn [length] in Hlen. lia. }
    destruct fuel as [|fuel]; [lia|]. rewrite parse_loop_S. cbn [deref].
    rewrite byte_eqb_refl.
    exists [mkParagraph (l :: ls) cap], cap', n2. split; reflexivity.
Qed.

(** With memory to spare, [parseDocument] returns a document whose
    paragraphs are those of the text before its first NUL. *)
Lemma parseDocument_shape (text : cptr) (n : nat) :
  exists doc n',
    parseDocument never_fails text n = (Ret doc, n')
    /\ paras_of (cstr text) (doc_lines doc).
Proof.
  rewrite <- parseDocument_cstr. unfold parseDocument, bind.
  cbn [createDocument malloc never_fails negb]. unfold bind. cbn.
  rewrite strlen_cstr.
  destruct (@parse_loop_shape (S (strlen text)) (cstr text) (cstr_nonzero text))
    as [pss [Hpss Hrun]]; [unfold strlen; lia|].
  destruct (Hrun (mkDocument [] 8) (S (S n))) as [ps [cap [n' [E Hps]]]].
  exists (mkDocument ps cap), n'. split; [exact E|].
  unfold doc_lines. cbn [paragraphs]. now rewrite Hps.
Qed.

End ParserSucceeds.

(* ===================================================================== *)
(** * What the shape of a text says about its paragraphs                  *)
(* ===================================================================== *)

Section Shape.

Lemma paras_of_good (s : list byte) (pss : list (list (list byte))) :
  paras_of s pss -> Forall good_para pss.
Proof. induction 1; auto. Qed.

(** ** Joining the paragraphs again *)

Lemma squeeze_newlines_run (nls u : list byte) (started : bool) (k : nat) :
  Forall (eq NL) nls ->
  squeeze_newlines started k (nls ++ u)
  = squeeze_newlines started (k + length nls) u.
Proof.
  intros H. revert k. induction H as [|b nls <- _ IH]; intros k; cbn [app length].
  - now rewrite Nat.add_0_r.
  - cbn [squeeze_newlines]. rewrite byte_eqb_refl, IH. f_equal. lia.
Qed.

Lemma squeeze_newlines_text (l u : list byte) :
  Forall nonnl l ->
  squeeze_newlines true 0 (l ++ u) = l ++ squeeze_newlines true 0 u.
Proof.
  induction 1 as [|b l Hb _ IH]; [reflexivity|].
  cbn [app squeeze_newlines]. rewrite (byte_eqb_neq Hb). cbn. now rewrite IH.
Qed.

Lemma squeeze_newlines_line (l u : list byte) (started : bool) (k : nat) :
  good_line l ->
  squeeze_newlines started k (l ++ u)
  = lead started k ++ l ++ squeeze_newlines true 0 u.
Proof.
  intros Hl. pose proof (good_line_nonnl Hl) as Hn. destruct Hl as [Hne _].
  destruct l as [|b l]; [congruence|]. inversion Hn as [|? ? Hb Hn']; subst.
  cbn [app squeeze_newlines]. rewrite (byte_eqb_neq Hb).
  now rewrite (squeeze_newlines_text _ Hn').
Qed.

Lemma squeeze_newlines_join (ls : list (list byte)) :
  forall (l u : list byte) (started : bool) (k : nat),
    Forall good_line (l :: ls) ->
    squeeze_newlines started k (join [NL] (l :: ls) ++ u)
    = lead started k ++ join [NL] (l :: ls) ++ squeeze_newlines true 0 u.
Proof.
  induction ls as [|l2 ls IH]; intros l u started k Hg;
    inversion Hg as [|? ? Hl Hls]; subst.
  - cbn [join]. now apply squeeze_newlines_line.
  - rewrite join_cons by discriminate. rewrite <- !app_assoc.
    rewrite (squeeze_newlines_line _ _ _ Hl). cbn [app squeeze_newlines].
    rewrite byte_eqb_refl, (IH _ _ _ _ Hls). reflexivity.
Qed.

Lemma squeeze_newlines_paras (s : list byte) (pss : list (list (list byte))) :
  paras_of s pss ->
  forall (started : bool) (k : nat),
    started = false \/ 2 <= k ->
    squeeze_newlines started k s
    = match pss with
      | [] => []
      | _ :: _ => lead started k ++ joined pss
      end.
Proof.
  induction 1 as [nls Hn | nls ls t Hn [Hne Hg] Ht
                  | nls ls rest pss Hn [Hne Hg] Hrest IH];
    intros started k Hk.
  - rewrite <- (app_nil_r nls), (squeeze_newlines_run _ _ _ Hn). reflexivity.
  - rewrite (squeeze_newlines_run _ _ _ Hn).
    destruct ls as [|l ls]; [congruence|].
    rewrite (squeeze_newlines_join _ _ _ Hg).
    replace (squeeze_newlines true 0 t) with (@nil byte)
      by (destruct Ht as [-> | ->]; reflexivity).
    rewrite app_nil_r. unfold joined. cbn [map join]. f_equal.
    unfold lead. destruct started; [|reflexivity].
    destruct Hk as [Hk|Hk]; [discriminate|].
    now rewrite !Nat.min_r by lia.
  - rewrite (squeeze_newlines_run _ _ _ Hn).
    destruct ls as [|l ls]; [congruence|].
    rewrite (squeeze_newlines_join _ _ _ Hg).
    cbn [squeeze_newlines]. rewrite byte_eqb_refl.
    rewrite (IH true 2) by (right; lia).
    assert (Hlead : lead started (k + length nls) = lead started k).
    { unfold lead. destruct started; [|reflexivity].
      destruct Hk as [Hk|Hk]; [discriminate|]. now rewrite !Nat.min_r by lia. }
    rewrite Hlead. f_equal. unfold joined. cbn [map].
    destruct pss as [|ps pss]; cbn [map join]; [now rewrite app_nil_r|].
    reflexivity.
Qed.

(** ** Counting paragraphs and lines *)

Variable gap : nat.
Hypothesis gap_pos : 1 <= gap.

Lemma count_starts_run (nls u : list byte) (started : bool) (k : nat) :
  Forall (eq NL) nls ->
  count_starts gap started k (nls ++ u)
  = count_starts gap started (k + length nls) u.
Proof.
  intros H. revert k. induction H as [|b nls <- _ IH]; intros k; cbn [app length].
  - now rewrite Nat.add_0_r.
  - cbn [count_starts]. rewrite byte_eqb_refl, IH. f_equal. lia.
Qed.

Lemma count_starts_text (l u : list byte) :
  Forall nonnl l ->
  count_starts gap true 0 (l ++ u) = count_starts gap true 0 u.
Proof.
  induction 1 as [|b l Hb _ IH]; [reflexivity|].
  cbn [app count_starts]. rewrite (byte_eqb_neq Hb), IH. cbn [negb orb].
  now replace (gap <=? 0) with false by (symmetry; apply Nat.leb_gt; lia).
Qed.

Lemma count_starts_line (l u : list byte) (started : bool) (k : nat) :
  good_line l ->
  count_starts gap started k (l ++ u)
  = hit gap started k + count_starts gap true 0 u.
Proof.
  intros Hl. pose proof (good_line_nonnl Hl) as Hn. destruct Hl as [Hne _].
  destruct l as [|b l]; [congruence|]. inversion Hn as [|? ? Hb Hn']; subst.
  cbn [app count_starts]. rewrite (byte_eqb_neq Hb).
  now rewrite (count_starts_text _ Hn').
Qed.

Lemma count_starts_join (ls : list (list byte)) :
  forall (l u : list byte) (started : bool) (k : nat),
    Forall good_line (l :: ls) ->
    count_starts gap started k (join [NL] (l :: ls) ++ u)
    = hit gap started k + length ls * hit gap true 1
      + count_starts gap true 0 u.
Proof.
  induction ls as [|l2 ls IH]; intros l u started k Hg;
    inversion Hg as [|? ? Hl Hls]; subst.
  - cbn [join length]. rewrite (count_starts_line _ _ _ Hl). lia.
  - rewrite join_cons by discriminate. rewrite <- !app_assoc.
    rewrite (count_starts_line _ _ _ Hl). cbn [app count_starts].
    rewrite byte_eqb_refl, (IH _ _ _ _ Hls). cbn [length]. lia.
Qed.

Lemma count_starts_paras (s : list byte) (pss : list (list (list byte))) :
  gap <= 2 ->
  paras_of s pss ->
  forall (started : bool) (k : nat),
    started = false \/ 2 <= k ->
    count_starts gap started k s
    = list_sum (map (fun ls => 1 + (length ls - 1) * hit gap true 1) pss).
Proof.
  intros Hgap.
  assert (Hhit : forall started k, started = false \/ 2 <= k ->
                                   hit gap started k = 1).
  { intros started k [-> | Hk]; unfold hit; [reflexivity|].
    replace (gap <=? k) with true by (symmetry; apply Nat.leb_le; lia).
    now rewrite orb_true_r. }
  induction 1 as [nls Hn | nls ls t Hn [Hne Hg] Ht
                  | nls ls rest pss Hn [Hne Hg] Hrest IH];
    intros started k Hk.
  - rewrite <- (app_nil_r nls), (count_starts_run _ _ _ Hn). reflexivity.
  - rewrite (count_starts_run _ _ _ Hn).
    destruct ls as [|l ls]; [congruence|].
    rewrite (count_starts_join _ _ _ Hg).
    replace (count_starts gap true 0 t) with 0
      by (destruct Ht as [-> | ->]; cbn [count_starts]; now rewrite ?byte_eqb_refl).
    rewrite Hhit by (destruct Hk; [now left | right; lia]).
    unfold list_sum. cbn [map fold_right length].
    replace (S (length ls) - 1) with (length ls) by lia.
    generalize (length ls * hit gap true 1). intros; lia.
  - rewrite (count_starts_run _ _ _ Hn).
    destruct ls as [|l ls]; [congruence|].
    rewrite (count_starts_join _ _ _ Hg).
    cbn [count_starts]. rewrite byte_eqb_refl.
    rewrite (IH true 2) by (right; lia).
    rewrite Hhit by (destruct Hk; [now left | right; lia]).
    unfold list_sum. cbn [map fold_right length].
    replace (S (length ls) - 1) with (length ls) by lia.
    generalize (length ls * hit gap true 1). intros; lia.
Qed.

End Shape.

Section ParagraphBoundaries.

(** Where the boundaries fall. *)

Lemma paragraphs_from_run (nls s : list byte) (para : list (list byte))
      (line : list byte) :
  Forall (eq NL) nls ->
  forall p, paragraphs_from para line p (nls ++ s)
            = paragraphs_from para line (length nls + p) s.
Proof.
  induction 1 as [|b nls <- _ IH]; intros p; [reflexivity|].
  cbn [app paragraphs_from length]. rewrite byte_eqb_refl, IH.
  f_equal. lia.
Qed.

Lemma paragraphs_from_text (l s : list byte) (para : list (list byte)) :
  Forall nonnl l ->
  forall line, paragraphs_from para line 0 (l ++ s)
               = paragraphs_from para (line ++ l) 0 s.
Proof.
  induction 1 as [|b l Hb _ IH]; intros line; [now rewrite app_nil_r|].
  cbn [app paragraphs_from]. rewrite (byte_eqb_neq Hb), IH, <- app_assoc.
  reflexivity.
Qed.

(** Behind a newline only the finished lines count. *)
Lemma paragraphs_from_closed (s : list byte) :
  forall (para : list (list byte)) (line : list byte) (p : nat),
    1 <= p ->
    paragraphs_from para line p s
    = paragraphs_from (para ++ close_line line) [] p s.
Proof.
  induction s as [|b s IH]; intros para line p Hp; cbn [paragraphs_from].
  - cbn [close_line]. now rewrite app_nil_r.
  - byte_cases b NL; [apply IH; lia|].
    destruct p as [|[|p]]; [lia| |]; cbn [close_line];
      now rewrite app_nil_r.
Qed.

Lemma paragraphs_from_break (s : list byte) (para : list (list byte))
      (line : list byte) :
  s = [] \/ (exists s', s = NL :: s') ->
  paragraphs_from para line 0 s
  = paragraphs_from (para ++ close_line line) [] 0 s.
Proof.
  intros [-> | [s' ->]]; cbn [paragraphs_from].
  - cbn [close_line]. now rewrite app_nil_r.
  - rewrite byte_eqb_refl. apply paragraphs_from_closed. lia.
Qed.

Lemma paragraphs_from_first_line (l s : list byte) (q : list (list byte))
      (p : nat) :
  good_line l -> q = [] \/ 2 <= p ->
  paragraphs_from q [] p (l ++ s)
  = close_para q ++ paragraphs_from [] l 0 s.
Proof.
  intros [Hne Hl] Hq. destruct l as [|c l]; [congruence|].
  inversion Hl as [|? ? [Hc _] Hl']; subst.
  assert (Hnl : Forall nonnl l)
    by (eapply Forall_impl; [|exact Hl']; now intros b [Hb _]).
  cbn [app paragraphs_from]. rewrite (byte_eqb_neq Hc).
  destruct p as [|[|p]].
  - destruct Hq as [-> | Hq]; [|lia]. cbn [app close_para].
    now rewrite paragraphs_from_text.
  - destruct Hq as [-> | Hq]; [|lia]. cbn [app close_line close_para].
    now rewrite paragraphs_from_text.
  - cbn [close_line]. rewrite app_nil_r. f_equal.
    now rewrite paragraphs_from_text.
Qed.

Lemma join_tail (l : list byte) (ls : list (list byte)) :
  join [NL] (l :: ls) = l ++ concat (map (cons NL) ls).
Proof.
  revert l. induction ls as [|l2 ls IH]; intros l.
  - cbn. now rewrite app_nil_r.
  - rewrite join_cons by discriminate. rewrite IH. reflexivity.
Qed.

Lemma paragraphs_from_lines (ls : list (list byte)) :
  forall (para : list (list byte)) (l s : list byte),
    l <> [] -> Forall good_line ls ->
    s = [] \/ (exists s', s = NL :: s') ->
    paragraphs_from para l 0 (concat (map (cons NL) ls) ++ s)
    = paragraphs_from (para ++ l :: ls) [] 0 s.
Proof.
  induction ls as [|l2 ls IH]; intros para l s Hl Hls Hs.
  - cbn [map concat app]. rewrite paragraphs_from_break by assumption.
    destruct l; [congruence | reflexivity].
  - inversion Hls as [|? ? [Hne Hl2] Hls']; subst.
    destruct l2 as [|c l2]; [congruence|].
    inversion Hl2 as [|? ? [Hc _] Hl2']; subst.
    assert (Hnl : Forall nonnl l2)
      by (eapply Forall_impl; [|exact Hl2']; now intros b [Hb _]).
    cbn [map concat]. rewrite <- !app_assoc. cbn [app paragraphs_from].
    rewrite byte_eqb_refl, (byte_eqb_neq Hc).
    rewrite paragraphs_from_text by assumption. cbn [app].
    rewrite IH by (assumption || discriminate).
    destruct l; [congruence|]. cbn [close_line].
    now rewrite <- app_assoc.
Qed.

(** The paragraphs of a well-shaped text are the ones that the boundaries
    bound. *)
Lemma paragraphs_from_paras (s : list byte) (pss : list (list (list byte))) :
  paras_of s pss ->
  forall (q : list (list byte)) (p : nat),
    q = [] \/ 2 <= p ->
    paragraphs_from q [] p s = close_para q ++ pss.
Proof.
  induction 1 as [nls Hn | nls ls t Hn [Hne Hls] Ht
                  | nls ls rest pss Hn [Hne Hls] _ IH]; intros q p Hq.
  - rewrite <- (app_nil_r nls), paragraphs_from_run by assumption.
    cbn [paragraphs_from close_line]. now rewrite !app_nil_r.
  - rewrite paragraphs_from_run by assumption.
    destruct ls as [|l ls]; [congruence|].
    inversion Hls as [|? ? Hl Hls']; subst.
    rewrite join_tail, <- app_assoc.
    rewrite paragraphs_from_first_line
      by (first [assumption | destruct Hq; [now left | right; lia]]).
    f_equal.
    rewrite paragraphs_from_lines;
      [|now destruct Hl | assumption
       |destruct Ht as [-> | ->]; [now left | right; now exists []]].
    cbn [app].
    destruct Ht as [-> | ->]; cbn [paragraphs_from close_line close_para];
      rewrite ?byte_eqb_refl; cbn [paragraphs_from close_line close_para];
      now rewrite app_nil_r.
  - rewrite paragraphs_from_run by assumption.
    destruct ls as [|l ls]; [congruence|].
    inversion Hls as [|? ? Hl Hls']; subst.
    rewrite join_tail, <- app_assoc.
    rewrite paragraphs_from_first_line
      by (first [assumption | destruct Hq; [now left | right; lia]]).
    f_equal.
    rewrite paragraphs_from_lines;
      [|now destruct Hl | assumption | right; now exists (NL :: rest)].
    cbn [app paragraphs_from]. rewrite ?byte_eqb_refl.
    cbn [paragraphs_from]. rewrite ?byte_eqb_refl.
    rewrite IH by (right; lia). reflexivity.
Qed.

Lemma paragraphs_of_text_paras (s : list byte)
      (pss : list (list (list byte))) :
  paras_of s pss -> paragraphs_of_text s = pss.
Proof.
  intros H. unfold paragraphs_of_text.
  now rewrite (paragraphs_from_paras H) by (now left).
Qed.

(** The text ["a\nb\n\nc\n"]: the single newline breaks a line, the two
    newlines end the paragraph, the last newline bounds nothing. *)
Lemma paragraphs_of_text_abc :
  paragraphs_of_text (cstr text_abc) = [[[x61]; [x62]]; [[x63]]]
  /\ doc_lines doc_abc = paragraphs_of_text (cstr text_abc).
Proof. split; reflexivity. Qed.

End ParagraphBoundaries.

Lemma list_sum_ones {A : Type} (xs : list A) :
  list_sum (map (fun _ => 1) xs) = length xs.
Proof. induction xs; simpl; auto. Qed.

Lemma list_sum_lengths (pss : list (list (list byte))) :
  Forall good_para pss ->
  list_sum (map (fun ls => 1 + (length ls - 1) * 1) pss)
  = list_sum (map (@length _) pss).
Proof.
  induction 1 as [|ls pss [Hne _] _ IH]; [reflexivity|].
  unfold list_sum in *. cbn [map fold_right]. rewrite IH.
  destruct ls; [congruence|]. cbn [length]. lia.
Qed.

(* ===================================================================== *)
(** * The decoder                                                         *)
(* ===================================================================== *)

Section Decoder.

Lemma to_N_zero (b : byte) : Byte.to_N b = 0%N -> b = NUL.
Proof.
  intros H. pose proof (Byte.of_to_N b) as E. rewrite H in E.
  cbn in E. now inversion E.
Qed.

Lemma in_range_nonzero (lo hi : N) (b : byte) :
  (0 < lo)%N -> in_range lo hi b = true -> b <> NUL.
Proof.
  intros Hlo H ->. unfold in_range in H. cbn in H.
  apply andb_prop in H as [H _]. apply N.leb_le in H. lia.
Qed.

Lemma utf8_tail_char (need : nat) :
  forall (lo hi acc : N) (n : positive) (s : list byte) (m : positive) (wc : wchar),
    (0 < lo)%N ->
    utf8_tail need lo hi acc n s = MbChar m wc ->
    Pos.to_nat m = Pos.to_nat n + need
    /\ need <= length s
    /\ Forall nonzero (firstn need s).
Proof.
  induction need as [|need IH]; intros lo hi acc n s m wc Hlo H; cbn in H.
  - inversion H; subst. repeat split; [lia | lia | constructor].
  - destruct s as [|b s]; [discriminate|].
    destruct (in_range lo hi b) eqn:R; [|discriminate].
    apply IH in H as [H1 [H2 H3]]; [|lia].
    rewrite Pos2Nat.inj_succ in H1. cbn [length firstn].
    repeat split; [lia | lia |].
    constructor; [eapply in_range_nonzero; eauto | exact H3].
Qed.

Lemma utf8_tail_app (need : nat) :
  forall (lo hi acc : N) (n : positive) (s t : list byte),
    utf8_tail need lo hi acc n s <> MbIncomplete ->
    utf8_tail need lo hi acc n (s ++ t) = utf8_tail need lo hi acc n s.
Proof.
  induction need as [|need IH]; intros lo hi acc n s t H; [reflexivity|].
  destruct s as [|b s]; [now cbn in H|]. cbn in *.
  destruct (in_range lo hi b); [now apply IH | reflexivity].
Qed.

Lemma utf8_tail_not_zero (need : nat) :
  forall (lo hi acc : N) (n : positive) (s : list byte),
    utf8_tail need lo hi acc n s <> MbZero.
Proof.
  induction need as [|need IH]; intros lo hi acc n s; cbn; [discriminate|].
  destruct s as [|b s]; [discriminate|].
  destruct (in_range lo hi b); [apply IH | discriminate].
Qed.

(** What the first byte of a sequence decides. *)
Lemma utf8_decode_head (b : byte) :
  (b = NUL /\ forall s, utf8_decode (b :: s) = MbZero)
  \/ (b <> NUL
      /\ ((forall s, utf8_decode (b :: s) = MbChar 1 (Byte.to_N b))
          \/ (forall s, utf8_decode (b :: s) = MbInvalid)
          \/ (exists need lo hi acc,
                 (0 < lo)%N
                 /\ forall s, utf8_decode (b :: s) = utf8_tail need lo hi acc 1 s))).
Proof.
  unfold utf8_decode. destruct (N.eqb_spec (Byte.to_N b) 0) as [E|E].
  - left. split; [now apply to_N_zero | reflexivity].
  - right. split; [intros ->; now apply E|].
    destruct (Byte.to_N b <? 128)%N; [now left|].
    destruct (Byte.to_N b <? 194)%N; [right; now left|].
    destruct (Byte.to_N b <? 224)%N.
    { right; right. exists 1, 128%N, 191%N, (Byte.to_N b - 192)%N.
      split; [lia | reflexivity]. }
    destruct (Byte.to_N b <? 240)%N.
    { right; right.
      exists 2, (if (Byte.to_N b =? 224)%N then 160 else 128)%N,
             (if (Byte.to_N b =? 237)%N then 159 else 191)%N,
             (Byte.to_N b - 224)%N.
      split; [destruct (Byte.to_N b =? 224)%N; lia | reflexivity]. }
    destruct (Byte.to_N b <? 245)%N; [|right; now left].
    right; right.
    exists 3, (if (Byte.to_N b =? 240)%N then 144 else 128)%N,
           (if (Byte.to_N b =? 244)%N then 143 else 191)%N,
           (Byte.to_N b - 240)%N.
    split; [destruct (Byte.to_N b =? 240)%N; lia | reflexivity].
Qed.

Lemma utf8_decode_zero (s : list byte) :
  utf8_decode s = MbZero -> s <> [] /\ deref s = NUL.
Proof.
  destruct s as [|b s]; [discriminate|]. intros H. split; [discriminate|].
  destruct (utf8_decode_head b) as [[-> _] | [_ [Hc | [Hi | [need [lo [hi [acc [_ Ht]]]]]]]]].
  - reflexivity.
  - rewrite Hc in H. discriminate.
  - rewrite Hi in H. discriminate.
  - rewrite Ht in H. now apply utf8_tail_not_zero in H.
Qed.

(** A decoded character lies within the bytes given and holds no NUL. *)
Lemma utf8_decode_char (s : list byte) (n : positive) (wc : wchar) :
  utf8_decode s = MbChar n wc ->
  Pos.to_nat n <= length s /\ Forall nonzero (firstn (Pos.to_nat n) s).
Proof.
  destruct s as [|b s]; [discriminate|]. intros H.
  destruct (utf8_decode_head b)
    as [[_ Hz] | [Hb [Hc | [Hi | [need [lo [hi [acc [Hlo Ht]]]]]]]]].
  - rewrite Hz in H. discriminate.
  - rewrite Hc in H. inversion H; subst. cbn. split; [lia|].
    constructor; [exact Hb | constructor].
  - rewrite Hi in H. discriminate.
  - rewrite Ht in H. apply utf8_tail_char in H as [H1 [H2 H3]]; [|exact Hlo].
    rewrite H1. cbn. split; [lia|]. now constructor.
Qed.

(** Once the decoder has answered, further bytes do not change the
    answer. *)
Lemma utf8_decode_app (s t : list byte) :
  utf8_decode s <> MbIncomplete ->
  utf8_decode (s ++ t) = utf8_decode s.
Proof.
  destruct s as [|b s]; [now cbn|]. intros H. cbn [app].
  destruct (utf8_decode_head b)
    as [[_ Hz] | [Hb [Hc | [Hi | [need [lo [hi [acc [Hlo Ht]]]]]]]]].
  - now rewrite !Hz.
  - now rewrite !Hc.
  - now rewrite !Hi.
  - rewrite !Ht in *. now apply utf8_tail_app.
Qed.

Lemma mbrtowc_init (s : list byte) :
  mbrtowc s mbstate_init
  = (utf8_decode s,
     match utf8_decode s with
     | MbIncomplete => mkState s
     | _ => mbstate_init
     end).
Proof.
  unfold mbrtowc. cbn [pending mbstate_init app length].
  destruct (utf8_decode s) as [| | |n wc]; try reflexivity.
  now rewrite Nat.sub_0_r, Pos2Nat.id.
Qed.

Lemma to_N_byte_of (x : N) : (x < 256)%N -> Byte.to_N (byte_of x) = x.
Proof.
  intros H. unfold byte_of. destruct (Byte.of_N x) as [b|] eqn:E.
  - now apply Byte.to_of_N.
  - apply Byte.of_N_None_iff in E. lia.
Qed.

Ltac lia_div := zify; Z.to_euclidean_division_equations; lia.

Ltac decide_tests :=
  repeat match goal with
         | |- context [(?a =? ?b)%N] => destruct (N.eqb_spec a b); try lia_div
         | |- context [(?a <? ?b)%N] => destruct (N.ltb_spec a b); try lia_div
         | |- context [(?a <=? ?b)%N] => destruct (N.leb_spec a b); try lia_div
         end.

(** The decoder reads back what UTF-8 encodes. *)
Lemma utf8_decode_encode (cp : N) (rest : list byte) :
  is_scalar cp = true -> cp <> 0%N ->
  utf8_decode (utf8_encode cp ++ rest)
  = MbChar (Pos.of_nat (length (utf8_encode cp))) cp.
Proof.
  intros Hs Hz. unfold is_scalar in Hs.
  assert (Hr : (cp < 55296 \/ 57343 < cp <= 1114111)%N).
  { apply orb_prop in Hs as [H|H].
    - left. now apply N.ltb_lt.
    - right. apply andb_prop in H as [H1 H2].
      apply N.ltb_lt in H1. apply N.leb_le in H2. lia. }
  clear Hs. unfold utf8_encode.
  destruct (N.ltb_spec cp 128); [|destruct (N.ltb_spec cp 2048);
                                   [|destruct (N.ltb_spec cp 65536)]];
    cbn [app length Pos.of_nat]; unfold utf8_decode, utf8_tail, in_range;
    rewrite ?to_N_byte_of by lia_div.
  - decide_tests. reflexivity.
  - decide_tests. cbn [andb]. f_equal. lia_div.
  - decide_tests; cbn [andb]; f_equal; lia_div.
  - decide_tests; cbn [andb]; f_equal; lia_div.
Qed.

Lemma utf8_encode_length (cp : N) : 0 < length (utf8_encode cp).
Proof.
  unfold utf8_encode.
  destruct (cp <? 128)%N; [|destruct (cp <? 2048)%N; [|destruct (cp <? 65536)%N]];
    cbn; lia.
Qed.

End Decoder.

(* ===================================================================== *)
(** * The width of a line                                                 *)
(* ===================================================================== *)

Section WidthFacts.

Variable wcwidth : wchar -> Z.

Local Abbreviation width_of := (displayWidth_spec wcwidth).

(** One turn of the loop of [getDisplayWidth]; the conversion state is the
    initial one at every turn. *)
Lemma width_loop_S (ptr : cptr) (l : nat) (width : Z) :
  width_loop wcwidth ptr (S l) mbstate_init width
  = match utf8_decode (firstn (S l) ptr) with
    | MbInvalid | MbIncomplete =>
        width_loop wcwidth (tl ptr) l mbstate_init (width + 1)
    | MbZero => width
    | MbChar n wc =>
        width_loop wcwidth (skipn (Pos.to_nat n) ptr) (S l - Pos.to_nat n)
                   mbstate_init (width + column_width wcwidth wc)
    end.
Proof.
  rewrite width_loop_equation_2, mbrtowc_init.
  destruct (utf8_decode (firstn (S l) ptr)); reflexivity.
Qed.

Lemma width_loop_acc (len : nat) :
  forall (ptr : cptr) (width : Z),
    width_loop wcwidth ptr len mbstate_init width
    = (width + width_loop wcwidth ptr len mbstate_init 0)%Z.
Proof.
  induction len as [len IH] using lt_wf_ind. intros ptr width.
  destruct len as [|l].
  - rewrite !width_loop_equation_1. lia.
  - rewrite !width_loop_S.
    destruct (utf8_decode (firstn (S l) ptr)) as [| | |n wc].
    + rewrite (IH l (Nat.lt_succ_diag_r l) _ (width + 1)%Z).
      rewrite (IH l (Nat.lt_succ_diag_r l) _ (0 + 1)%Z). lia.
    + rewrite (IH l (Nat.lt_succ_diag_r l) _ (width + 1)%Z).
      rewrite (IH l (Nat.lt_succ_diag_r l) _ (0 + 1)%Z). lia.
    + lia.
    + assert (Hlt : S l - Pos.to_nat n < S l)
        by (pose proof (Pos2Nat.is_pos n); lia).
      rewrite (IH _ Hlt _ (width + _)%Z). rewrite (IH _ Hlt _ (0 + _)%Z). lia.
Qed.

Lemma firstn_strlen (p : cptr) : firstn (strlen p) p = cstr p.
Proof.
  unfold strlen. induction p as [|b p IH]; [reflexivity|]. cbn [cstr].
  destruct (Byte.eqb b NUL); [reflexivity|]. cbn [length firstn]. now f_equal.
Qed.

Lemma strlen_0 (p : cptr) : strlen p = 0 -> p = [] \/ exists s, p = NUL :: s.
Proof.
  destruct p as [|b p]; [now left|]. unfold strlen. cbn [cstr].
  byte_cases b NUL; [right; now exists p | discriminate].
Qed.

Lemma strlen_S (p : cptr) (l : nat) :
  strlen p = S l -> exists b s, p = b :: s /\ b <> NUL /\ strlen s = l.
Proof.
  destruct p as [|b p]; [discriminate|]. unfold strlen. cbn [cstr].
  byte_cases b NUL; [discriminate|]. cbn [length]. intros [= H].
  now exists b, p.
Qed.

(** The loop computes the width that the specification describes. *)
Lemma width_loop_spec (len : nat) :
  forall ptr : cptr,
    strlen ptr = len ->
    width_of ptr (width_loop wcwidth ptr len mbstate_init 0).
Proof.
  induction len as [len IH] using lt_wf_ind. intros ptr Hlen.
  destruct len as [|l].
  - rewrite width_loop_equation_1.
    destruct (strlen_0 _ Hlen) as [-> | [s ->]]; constructor.
  - rewrite width_loop_S, <- Hlen, firstn_strlen.
    destruct (utf8_decode (cstr ptr)) as [| | |n wc] eqn:D.
    + destruct (strlen_S _ Hlen) as [b [s [-> [Hb Hs]]]]. cbn [tl].
      rewrite width_loop_acc. apply dw_bad; [exact Hb | now left |].
      now apply (IH l (Nat.lt_succ_diag_r l)).
    + destruct (strlen_S _ Hlen) as [b [s [-> [Hb Hs]]]]. cbn [tl].
      rewrite width_loop_acc. apply dw_bad; [exact Hb | now right |].
      now apply (IH l (Nat.lt_succ_diag_r l)).
    + exfalso. apply utf8_decode_zero in D as [Hne Hd].
      pose proof (cstr_nonzero ptr) as Hz.
      destruct (cstr ptr) as [|b s]; [congruence|].
      cbn in Hd. subst b. now inversion Hz.
    + rewrite width_loop_acc. rewrite Z.add_0_l.
      destruct (utf8_decode_char _ D) as [Hn _].
      pose proof (Pos2Nat.is_pos n) as Hpos.
      apply dw_char with (n := n); [exact D|].
      apply IH; [fold (strlen ptr) in Hn; lia|].
      apply strlen_skipn. exact Hn.
Qed.

Lemma getDisplayWidth_spec (str : cptr) :
  width_of str (getDisplayWidth wcwidth str).
Proof. unfold getDisplayWidth. now apply width_loop_spec. Qed.

(** The specification fixes the width. *)
Lemma displayWidth_spec_unique (s : cptr) (w1 w2 : Z) :
  width_of s w1 -> width_of s w2 -> w1 = w2.
Proof.
  intros H1. revert w2.
  induction H1 as [| s | s n wc w D _ IH | b s w Hb D _ IH]; intros w2 H2.
  - inversion H2 as [| | s' n' wc' w' D' | ]; subst; [reflexivity|].
    discriminate D'.
  - inversion H2 as [| | s' n' wc' w' D' | b' s' w' Hb' ]; subst;
      [reflexivity | discriminate D' | congruence].
  - inversion H2 as [| s' | s' n' wc' w' D' H' | b' s' w' Hb' D' H' ]; subst.
    + discriminate D.
    + discriminate D.
    + rewrite D in D'. inversion D'; subst. f_equal. now apply IH.
    + rewrite D in D'. destruct D'; discriminate.
  - inversion H2 as [| s' | s' n' wc' w' D' H' | b' s' w' Hb' D' H' ]; subst.
    + congruence.
    + rewrite D' in D. destruct D; discriminate.
    + f_equal. now apply IH.
Qed.

(** The width of a buffer is the width of the string it holds. *)
Lemma displayWidth_spec_cstr (s : cptr) (w : Z) :
  width_of (cstr s) w -> width_of s w.
Proof.
  intros H. remember (cstr s) as c eqn:Ec. revert s Ec.
  induction H as [| c | c n wc w D _ IH | b c w Hb D _ IH]; intros s Ec.
  - destruct s as [|x s]; [constructor|]. cbn [cstr] in Ec.
    byte_cases x NUL; [constructor | discriminate].
  - pose proof (cstr_nonzero s) as Hz. rewrite <- Ec in Hz.
    inversion Hz as [|? ? Hn _]. now contradiction Hn.
  - subst c. rewrite cstr_idem in D. apply dw_char with (n := n); [exact D|].
    apply IH. destruct (utf8_decode_char _ D) as [Hn _]. now apply skipn_cstr.
  - destruct s as [|x s]; [discriminate|]. cbn [cstr] in Ec.
    byte_cases x NUL; [discriminate|]. inversion Ec; subst.
    apply dw_bad; [exact Hb | | now apply IH].
    replace (cstr (x :: s)) with (x :: cstr s)
      by (cbn [cstr]; now rewrite (byte_eqb_neq Hb)).
    replace (cstr (x :: cstr s)) with (x :: cstr s) in D
      by (cbn [cstr]; now rewrite (byte_eqb_neq Hb), cstr_idem).
    exact D.
Qed.

Lemma getDisplayWidth_cstr (s : cptr) :
  getDisplayWidth wcwidth (cstr s) = getDisplayWidth wcwidth s.
Proof.
  apply displayWidth_spec_unique with (s := s).
  - apply displayWidth_spec_cstr, getDisplayWidth_spec.
  - apply getDisplayWidth_spec.
Qed.

Lemma getDisplayWidth_nonneg_spec (s : cptr) (w : Z) :
  (forall wc, 0 <= column_width wcwidth wc)%Z -> width_of s w -> (0 <= w)%Z.
Proof. intros Hc. induction 1; try lia. specialize (Hc wc). lia. Qed.

End WidthFacts.

(* ===================================================================== *)
(** * Widths add up across a character boundary                           *)
(* ===================================================================== *)

Section Boundary.

Variable wcwidth : wchar -> Z.

Lemma ends_on_boundary_cons (b : byte) (a : list byte) :
  ends_on_boundary (b :: a)
  = match utf8_decode (b :: a) with
    | MbChar n wc => ends_on_boundary (skipn (Pos.to_nat n) (b :: a))
    | MbInvalid | MbZero => ends_on_boundary a
    | MbIncomplete => false
    end.
Proof.
  rewrite ends_on_boundary_equation_2.
  destruct (utf8_decode (b :: a)); reflexivity.
Qed.

Lemma skipn_shorter (n : positive) (a : list byte) :
  a <> [] -> length (skipn (Pos.to_nat n) a) < length a.
Proof.
  intros Ha. rewrite length_skipn. pose proof (Pos2Nat.is_pos n).
  destruct a; [congruence | cbn [length]; lia].
Qed.

Lemma Forall_skipn_nonzero (n : nat) (a : list byte) :
  Forall nonzero a -> Forall nonzero (skipn n a).
Proof.
  intros H. rewrite <- (firstn_skipn n a) in H. now apply Forall_app in H.
Qed.

(** The specified width of a string without NUL that ends on a boundary,
    followed by another string, is the sum of the two widths. *)
Lemma displayWidth_spec_app (k : nat) :
  forall (a b : list byte) (wa wb : Z),
    length a <= k -> Forall nonzero a -> ends_on_boundary a = true ->
    displayWidth_spec wcwidth a wa -> displayWidth_spec wcwidth b wb ->
    displayWidth_spec wcwidth (a ++ b) (wa + wb).
Proof.
  induction k as [|k IH]; intros a b wa wb Hk Hz Ha Hwa Hwb.
  - destruct a; [|cbn in Hk; lia].
    inversion Hwa as [| | s n wc w D | ]; subst; [exact Hwb | discriminate D].
  - destruct a as [|x a].
    { inversion Hwa as [| | s n wc w D | ]; subst; [exact Hwb | discriminate D]. }
    pose proof (cstr_id Hz) as Hc.
    assert (Hx : x <> NUL) by now inversion Hz.
    assert (Hza : Forall nonzero a) by now inversion Hz.
    rewrite ends_on_boundary_cons in Ha.
    destruct (utf8_decode (x :: a)) as [| | |n wc] eqn:D; try discriminate.
    + (* a malformed sequence *)
      inversion Hwa as [| s | s n wc w D' H' | x' s w Hx' D' H' ]; subst.
      * congruence.
      * rewrite Hc, D in D'. discriminate.
      * cbn [app]. rewrite <- Z.add_assoc. apply dw_bad; [exact Hx | |].
        -- left. rewrite <- D. change (x :: a ++ b) with ((x :: a) ++ b).
           rewrite (cstr_app _ Hz). apply utf8_decode_app. rewrite D. discriminate.
        -- apply IH; [cbn in Hk; lia | assumption..].
    + (* the first byte is not a NUL *)
      apply utf8_decode_zero in D as [_ D]. now contradiction Hx.
    + (* a character *)
      destruct (utf8_decode_char _ D) as [Hn _].
      inversion Hwa as [| s | s n' wc' w D' H' | x' s w Hx' D' H' ]; subst.
      * congruence.
      * rewrite Hc, D in D'. inversion D'; subst n' wc'.
        rewrite <- Z.add_assoc. apply dw_char with (n := n).
        -- rewrite <- D. rewrite (cstr_app _ Hz). apply utf8_decode_app.
           rewrite D. discriminate.
        -- rewrite skipn_app.
           replace (Pos.to_nat n - length (x :: a)) with 0 by lia.
           cbn [skipn]. apply IH; [| now apply Forall_skipn_nonzero | assumption..].
           pose proof (@skipn_shorter n (x :: a) ltac:(discriminate)) as Hs.
           cbn [length] in *. lia.
      * rewrite Hc, D in D'. destruct D'; discriminate.
Qed.

Lemma getDisplayWidth_app (a b : list byte) :
  cstr a = a ->
  ends_on_boundary a = true ->
  getDisplayWidth wcwidth (a ++ b)
  = (getDisplayWidth wcwidth a + getDisplayWidth wcwidth b)%Z.
Proof.
  intros Hc Ha.
  assert (Hz : Forall nonzero a) by (rewrite <- Hc; apply cstr_nonzero).
  apply displayWidth_spec_unique with (wcwidth := wcwidth) (s := a ++ b).
  - apply getDisplayWidth_spec.
  - apply displayWidth_spec_app with (k := length a);
      [lia | exact Hz | exact Ha | apply getDisplayWidth_spec..].
Qed.

(** The width of a string that begins with the UTF-8 encoding of a code
    point other than U+0000 is the column width of that code point, plus the
    width of the rest. *)
Lemma getDisplayWidth_encoded (cp : N) (rest : list byte) :
  is_scalar cp = true -> cp <> 0%N ->
  getDisplayWidth wcwidth (utf8_encode cp ++ rest)
  = (column_width wcwidth cp + getDisplayWidth wcwidth rest)%Z.
Proof.
  intros Hs Hz.
  pose proof (utf8_decode_encode [] Hs Hz) as D. rewrite app_nil_r in D.
  pose proof (utf8_encode_length cp) as Hlen.
  destruct (utf8_decode_char _ D) as [_ Hnz].
  rewrite Nat2Pos.id, firstn_all in Hnz by lia.
  assert (Hw : getDisplayWidth wcwidth (utf8_encode cp) = column_width wcwidth cp).
  { apply displayWidth_spec_unique with (wcwidth := wcwidth) (s := utf8_encode cp).
    - apply getDisplayWidth_spec.
    - rewrite <- (Z.add_0_r (column_width wcwidth cp)).
      apply dw_char with (n := Pos.of_nat (length (utf8_encode cp))).
      + now rewrite (cstr_id Hnz).
      + rewrite Nat2Pos.id, skipn_all by lia. constructor. }
  rewrite getDisplayWidth_app, Hw; [reflexivity | now apply cstr_id |].
  destruct (utf8_encode cp) as [|b e] eqn:E; [reflexivity|].
  rewrite ends_on_boundary_cons, D.
  rewrite Nat2Pos.id, skipn_all by (cbn [length]; lia). reflexivity.
Qed.

End Boundary.

(* ===================================================================== *)
(** * The renderer                                                        *)
(* ===================================================================== *)

Section RenderFacts.

Variable wcwidth : wchar -> Z.

(** The padding loop writes one space for each step from [k] up to
    [padding]. *)
Lemma pad_loop_repeat (n : nat) :
  forall k padding : Z,
    Z.to_nat (padding - k) = n -> pad_loop k padding = repeat SP n.
Proof.
  induction n as [|n IH]; intros k padding Hn;
    rewrite pad_loop_equation_1; destruct (Z_lt_dec k padding) as [Hlt|Hge];
    cbn; try lia; try reflexivity.
  f_equal. apply IH. lia.
Qed.

Lemma print_line_eq (terminalWidth : Z) (line : cptr) :
  print_line wcwidth terminalWidth line
  = repeat SP (Z.to_nat (Z.max (Z.quot (terminalWidth
                                        - getDisplayWidth wcwidth line) 2) 0))
    ++ cstr line ++ [NL].
Proof.
  unfold print_line. f_equal.
  set (q := Z.quot (terminalWidth - getDisplayWidth wcwidth line) 2).
  destruct (Z.ltb_spec q 0) as [Hq|Hq].
  - rewrite Z.max_r by lia. now apply pad_loop_repeat.
  - rewrite Z.max_l by lia. apply pad_loop_repeat. f_equal. lia.
Qed.

Lemma print_paragraphs_join (terminalWidth : Z) (ps : list Paragraph) :
  forall i paragraphCount : Z,
    paragraphCount = (i + Z.of_nat (length ps))%Z ->
    print_paragraphs wcwidth terminalWidth paragraphCount i ps
    = join [NL] (map (fun para => print_lines wcwidth terminalWidth (lines para)) ps).
Proof.
  induction ps as [|para rest IH]; intros i count Hc; [reflexivity|].
  cbn [print_paragraphs map]. rewrite (IH (i + 1)%Z count)
    by (cbn [length] in Hc; lia).
  destruct rest as [|para' rest].
  - cbn [length] in Hc. replace (i <? count - 1)%Z with false
      by (symmetry; apply Z.ltb_ge; lia).
    cbn [map join]. now rewrite !app_nil_r.
  - cbn [length] in Hc. replace (i <? count - 1)%Z with true
      by (symmetry; apply Z.ltb_lt; lia).
    reflexivity.
Qed.

(** The output for a document: the lines of each paragraph, each rendered
    by [print_line], and one newline more between two paragraphs. *)
Lemma printCenteredDocument_eq (ioctl_winsz : option winsize) (doc : Document) :
  printCenteredDocument wcwidth ioctl_winsz (Some doc)
  = join [NL]
      (map (fun para =>
              print_lines wcwidth (getTerminalWidth ioctl_winsz) (lines para))
           (paragraphs doc)).
Proof.
  unfold printCenteredDocument. apply print_paragraphs_join.
  unfold paragraphCount. lia.
Qed.

End RenderFacts.

(* ===================================================================== *)
(** * Squeezing and stripping                                             *)
(* ===================================================================== *)

Section SqueezeStrip.

Lemma squeeze_newlines_trailing (t nls : list byte) :
  Forall (eq NL) nls ->
  forall (started : bool) (k : nat),
    squeeze_newlines started k (t ++ nls) = squeeze_newlines started k t.
Proof.
  intros Hn. induction t as [|b t IH]; intros started k; cbn [app].
  - rewrite <- (app_nil_r nls), (squeeze_newlines_run _ _ _ Hn). reflexivity.
  - cbn [squeeze_newlines]. destruct (Byte.eqb b NL); now rewrite IH.
Qed.

Lemma squeeze_newlines_unstarted (t : list byte) :
  forall k k' : nat,
    squeeze_newlines false k t = squeeze_newlines false k' t.
Proof.
  induction t as [|b t IH]; intros k k'; [reflexivity|].
  cbn [squeeze_newlines]. destruct (Byte.eqb b NL); [apply IH | reflexivity].
Qed.

Lemma has_triple_newline_tail (b : byte) (s : list byte) :
  has_triple_newline (b :: s) = false -> has_triple_newline s = false.
Proof. cbn [has_triple_newline]. now intros [_ H]%orb_false_elim. Qed.

Lemma repeat_snoc (k : nat) (t : list byte) :
  repeat NL k ++ NL :: t = repeat NL (S k) ++ t.
Proof.
  induction k as [|k IH]; [reflexivity|].
  cbn [repeat app] in *. now rewrite IH.
Qed.

Lemma has_triple_newline_skip (k : nat) (t : list byte) :
  has_triple_newline (repeat NL k ++ t) = false ->
  has_triple_newline t = false.
Proof.
  induction k as [|k IH]; [trivial|]. cbn [repeat app].
  intros H. apply IH. exact (has_triple_newline_tail _ _ H).
Qed.

Lemma ends_in_text_tail (b : byte) (t : list byte) :
  ends_in_text (b :: t) -> t = [] /\ b <> NL \/ ends_in_text t.
Proof.
  intros [t' [c [E Hc]]]. destruct t' as [|x t'].
  - cbn in E. inversion E; subst. now left.
  - cbn in E. inversion E; subst. right. now exists t', c.
Qed.

(** A text without three newlines in a row that ends in content is left as
    it is, behind the newlines that are pending. *)
Lemma squeeze_newlines_fixed (t : list byte) :
  forall k : nat,
    k <= 2 -> ends_in_text t ->
    has_triple_newline (repeat NL k ++ t) = false ->
    squeeze_newlines true k t = repeat NL k ++ t.
Proof.
  induction t as [|b t IH]; intros k Hk He Ht.
  - destruct He as [t' [c [E _]]]. now destruct t'.
  - cbn [squeeze_newlines]. byte_cases b NL.
    + destruct (ends_in_text_tail He) as [[_ Hb] | He']; [congruence|].
      rewrite repeat_snoc in *. apply IH; [|exact He' | exact Ht].
      destruct (Nat.eq_dec k 2) as [-> | Hk2]; [|lia]. exfalso.
      cbn in Ht. discriminate Ht.
    + rewrite Nat.min_l by exact Hk. do 2 f_equal.
      destruct (ends_in_text_tail He) as [[-> _] | He']; [reflexivity|].
      apply (IH 0); [lia | exact He' |].
      exact (has_triple_newline_tail _ _ (has_triple_newline_skip _ _ Ht)).
Qed.

Lemma drop_leading_newlines_split (s : list byte) :
  exists nls, Forall (eq NL) nls /\ s = nls ++ drop_leading_newlines s
              /\ deref (drop_leading_newlines s) <> NL.
Proof.
  induction s as [|b s [nls [Hn [E Hd]]]].
  - exists []. repeat split; [constructor | discriminate].
  - cbn [drop_leading_newlines]. byte_cases b NL.
    + exists (NL :: nls). repeat split; [now constructor | | assumption].
      cbn [app]. now f_equal.
    + exists []. repeat split; [constructor | assumption].
Qed.

Lemma strip_newlines_split (s : list byte) :
  exists nls1 nls2,
    Forall (eq NL) nls1 /\ Forall (eq NL) nls2
    /\ s = nls1 ++ strip_newlines s ++ nls2
    /\ (strip_newlines s = []
        \/ deref (strip_newlines s) <> NL /\ ends_in_text (strip_newlines s)).
Proof.
  unfold strip_newlines, drop_trailing_newlines.
  destruct (drop_leading_newlines_split s) as [nls1 [H1 [E1 Hd1]]].
  set (t0 := drop_leading_newlines s) in *.
  destruct (drop_leading_newlines_split (rev t0)) as [nls2 [H2 [E2 Hd2]]].
  set (u := drop_leading_newlines (rev t0)) in *.
  assert (E0 : t0 = rev u ++ rev nls2).
  { rewrite <- (rev_involutive t0), E2. apply rev_app_distr. }
  exists nls1, (rev nls2). repeat split.
  - exact H1.
  - now apply Forall_rev.
  - now rewrite <- E0.
  - destruct u as [|c u]; [now left|]. right. cbn [deref] in Hd2. split.
    + cbn [rev]. rewrite E0 in Hd1. cbn [rev] in Hd1.
      destruct (rev u) as [|x r]; cbn in *; assumption.
    + exists (rev u), c. split; [reflexivity | exact Hd2].
Qed.

(** For a text whose stripped form has no three newlines in a row,
    squeezing and stripping agree. *)
Lemma squeeze_newlines_strip (s : list byte) :
  has_triple_newline (strip_newlines s) = false ->
  squeeze_newlines false 0 s = strip_newlines s.
Proof.
  intros Ht. destruct (strip_newlines_split s) as [nls1 [nls2 [H1 [H2 [E Hs]]]]].
  rewrite E at 1. rewrite (squeeze_newlines_run _ _ _ H1).
  rewrite (squeeze_newlines_trailing _ H2).
  rewrite (squeeze_newlines_unstarted _ _ 0).
  destruct Hs as [-> | [Hd He]]; [reflexivity|].
  destruct (strip_newlines s) as [|b t]; [reflexivity|].
  cbn [deref] in Hd. cbn [squeeze_newlines]. rewrite (byte_eqb_neq Hd).
  cbn [app]. f_equal.
  destruct (ends_in_text_tail He) as [[-> _] | He']; [reflexivity|].
  apply (@squeeze_newlines_fixed t 0); [lia | exact He' |].
  exact (has_triple_newline_tail _ _ Ht).
Qed.

End SqueezeStrip.

(* ===================================================================== *)
(** * The end-to-end scenarios of the specification                      *)
(* ===================================================================== *)

Section Scenarios.

Let run_on (text : cptr) : option run :=
  fst (main_after_read never_fails wcwidth_sample tty20 (Some text) 0).

Example scenario_S1 :
  run_on text_hi = Some (mkRun 0 (repeat SP 9 ++ [x68; x69; NL])).
Proof. reflexivity. Qed.

Example scenario_S2 :
  run_on text_hi_world
  = Some (mkRun 0 (repeat SP 9 ++ [x68; x69; NL; NL]
                   ++ repeat SP 7 ++ [x77; x6f; x72; x6c; x64; NL])).
Proof. reflexivity. Qed.

Example scenario_S3 :
  run_on text_abc
  = Some (mkRun 0 (repeat SP 9 ++ [x61; NL] ++ repeat SP 9 ++ [x62; NL; NL]
                   ++ repeat SP 9 ++ [x63; NL])).
Proof. reflexivity. Qed.

Example scenario_S4 :
  run_on text_blank_hi = Some (mkRun 0 (repeat SP 9 ++ [x68; x69; NL])).
Proof. reflexivity. Qed.

Example scenario_S5 :
  run_on text_nihon
  = Some (mkRun 0 (repeat SP 8 ++ [xe6; x97; xa5; xe6; x9c; xac; NL])).
Proof. reflexivity. Qed.

Example scenario_S6 :
  run_on (repeat x78 38 ++ [NL]) = Some (mkRun 0 (repeat x78 38 ++ [NL])).
Proof. reflexivity. Qed.

(** Inside a character the widths do not add up, and a string with a NUL
    in it hides what follows. *)
Example width_inside_character :
  ends_on_boundary nichi_cut = false
  /\ getDisplayWidth wcwidth_sample (nichi_cut ++ [xa5]) = 2%Z
  /\ getDisplayWidth wcwidth_sample nichi_cut = 2%Z
  /\ getDisplayWidth wcwidth_sample [xa5] = 1%Z.
Proof. repeat split. Qed.

End Scenarios.

(* ===================================================================== *)
(** * The properties of the specification                                 *)
(* ===================================================================== *)

(** C1, as the specification states it, fails: the text ["a\n\n\nb"] is
    parsed into the paragraphs ["a"] and ["b"], which join into
    ["a\n\nb"], while the text stripped of leading and trailing newlines
    is the text itself. *)
Lemma C1_roundtrip_counterexample :
  roundtrip text_wide_gap = Ret [x61; NL; NL; x62]
  /\ strip_newlines (cstr text_wide_gap) = [x61; NL; NL; NL; x62]
  /\ roundtrip text_wide_gap <> Ret (strip_newlines (cstr text_wide_gap)).
Proof. repeat split. discriminate. Qed.

(** C1, amended: when no allocation fails, every input is parsed into a
    document, and joining
    the lines of each paragraph with a newline and the paragraphs with two
    newlines yields the input (up to its first NUL) without its leading and
    trailing newline bytes and with every longer run of newline bytes between
    two other bytes cut down to two.  When the stripped input holds no three
    newlines in a row, this is the stripped input itself. *)
Theorem C1_roundtrip_squeezed (text : cptr) (n : nat) :
  exists doc n',
    parseDocument never_fails text n = (Ret doc, n')
    /\ join_document doc = squeeze_newlines false 0 (cstr text)
    /\ (has_triple_newline (strip_newlines (cstr text)) = false ->
        join_document doc = strip_newlines (cstr text)).
Proof.
  destruct (parseDocument_shape text n) as [doc [n' [E Hs]]].
  exists doc, n'. split; [exact E|].
  assert (Hj : join_document doc = squeeze_newlines false 0 (cstr text)).
  { rewrite (@squeeze_newlines_paras _ _ Hs false 0 (or_introl eq_refl)).
    unfold join_document. fold (joined (doc_lines doc)).
    now destruct (doc_lines doc). }
  split; [exact Hj|]. intros Ht. rewrite Hj. now apply squeeze_newlines_strip.
Qed.

(** C2, as the specification states it, fails: a line that holds only a
    zero-width space has width zero and is written behind 40 spaces on a
    terminal of 80 columns, as the run of the program on that line shows; so
    is the empty line, whatever the width table. *)
Lemma C2_zero_width_counterexample :
  getDisplayWidth wcwidth_sample zwsp = 0%Z
  /\ print_line wcwidth_sample 80 zwsp = repeat SP 40 ++ zwsp ++ [NL]
  /\ fst (main_after_read never_fails wcwidth_sample tty80
                          (Some (zwsp ++ [NL])) 0)
     = Some (mkRun 0 (repeat SP 40 ++ zwsp ++ [NL]))
  /\ (forall wcwidth,
         getDisplayWidth wcwidth [] = 0%Z
         /\ print_line wcwidth 80 [] = repeat SP 40 ++ [NL]).
Proof. repeat split. Qed.

(** C2, amended: a line of display width zero is rendered like every other
    line: half the terminal width (rounded down, none for a negative width)
    in spaces, the bytes of the line, a newline. *)
Theorem C2_zero_width_line (wcwidth : wchar -> Z) (terminalWidth : Z)
        (line : cptr) :
  getDisplayWidth wcwidth line = 0%Z ->
  print_line wcwidth terminalWidth line
  = repeat SP (Z.to_nat (Z.quot terminalWidth 2)) ++ cstr line ++ [NL].
Proof.
  intros Hw. rewrite print_line_eq, Hw, Z.sub_0_r. do 2 f_equal.
  destruct (Z.le_gt_cases 0 (Z.quot terminalWidth 2)); [now rewrite Z.max_l|].
  rewrite Z.max_r by lia. lia.
Qed.

Lemma C2_zero_width_line_witness :
  print_line wcwidth_sample 80 zwsp
  = repeat SP (Z.to_nat (Z.quot 80 2)) ++ cstr zwsp ++ [NL].
Proof. apply (@C2_zero_width_line wcwidth_sample 80 zwsp). reflexivity. Defined.

(** C4: the code at the failing input.  When the [strdup] of
    [addLineToParagraph] fails on the text ["a"] (the sixth allocation
    request), the line is dropped and the document that the parser returns
    holds a paragraph without a line.  When no allocation fails, every
    paragraph of the returned document holds at least one line, for every
    input. *)
Theorem C4_paragraph_left_empty :
  (exists doc,
      fst (parseDocument (fails_at 5) text_a 0) = Ret doc
      /\ Exists (fun para => lineCount para = 0%Z) (paragraphs doc))
  /\ forall (text : cptr) (n : nat),
      exists doc n',
        parseDocument never_fails text n = (Ret doc, n')
        /\ Forall (fun para => (1 <= lineCount para)%Z) (paragraphs doc).
Proof.
  split.
  - exists (mkDocument [mkParagraph [] 8] 8). split; [reflexivity|].
    constructor. reflexivity.
  - intros text n.
    destruct (parseDocument_shape text n) as [doc [n' [E Hs]]].
    exists doc, n'. split; [exact E|].
    apply paras_of_good in Hs. unfold doc_lines in Hs.
    rewrite Forall_map in Hs. eapply Forall_impl; [|exact Hs].
    intros para [Hne _]. unfold lineCount.
    destruct (lines para); [now contradiction Hne | cbn [length]; lia].
Qed.

(** C5: the code at the failing input.  The text of nine one-line
    paragraphs has nine runs of content separated by blank lines; when the
    [realloc] of [addParagraphToDocument] fails (allocation request 39),
    the ninth paragraph is dropped and the parser returns eight.  When no
    allocation fails, for every input the paragraphs and their lines are
    the ones that the boundaries bound: a run of two or more newlines ends
    a paragraph, a single newline ends a line of it; so the paragraphs are
    as many as the runs of content separated by blank lines, and the lines
    as many as the runs of content separated by newlines. *)
Theorem C5_paragraph_boundaries :
  (exists doc,
      fst (parseDocument (fails_at 38) text_nine 0) = Ret doc
      /\ length (paragraphs doc) = 8
      /\ length (paragraphs_of_text (cstr text_nine)) = 9
      /\ count_starts 2 false 0 (cstr text_nine) = 9)
  /\ forall (text : cptr) (n : nat),
      exists doc n',
        parseDocument never_fails text n = (Ret doc, n')
        /\ doc_lines doc = paragraphs_of_text (cstr text)
        /\ length (paragraphs doc) = count_starts 2 false 0 (cstr text)
        /\ list_sum (map (fun para => length (lines para)) (paragraphs doc))
           = count_starts 1 false 0 (cstr text).
Proof.
  split.
  - destruct (fst (parseDocument (fails_at 38) text_nine 0)) as [doc| |] eqn:E;
      [|discriminate E..].
    exists doc. split; [reflexivity|].
    assert (H : Ret doc = fst (parseDocument (fails_at 38) text_nine 0))
      by (now rewrite E).
    vm_compute in H. injection H as ->. repeat split.
  - intros text n.
    destruct (parseDocument_shape text n) as [doc [n' [E Hs]]].
    exists doc, n'. split; [exact E|]. split; [|split].
    + symmetry. now apply paragraphs_of_text_paras.
    + rewrite (@count_starts_paras 2 ltac:(lia) _ _ ltac:(lia) Hs false 0
                 (or_introl eq_refl)).
      change (hit 2 true 1) with 0.
      rewrite (map_ext _ (fun _ => 1)) by (intros; lia).
      rewrite list_sum_ones. unfold doc_lines. now rewrite length_map.
    + rewrite (@count_starts_paras 1 ltac:(lia) _ _ ltac:(lia) Hs false 0
                 (or_introl eq_refl)).
      change (hit 1 true 1) with 1.
      rewrite (list_sum_lengths (paras_of_good Hs)).
      unfold doc_lines. now rewrite map_map.
Qed.

(** C6: [getDisplayWidth] computes the width that the specification
    describes, and no other: the scan ends at the first NUL or at the end of
    the buffer, a decoded character counts for its column width (1 when the
    table answers a negative number), and a malformed or incomplete sequence
    counts for 1 and is left behind by one byte, with a fresh decoder.  The
    input is read as UTF-8: the encoding of a code point counts for the
    column width of that code point. *)
Theorem C6_display_width (wcwidth : wchar -> Z) (str : cptr) :
  displayWidth_spec wcwidth str (getDisplayWidth wcwidth str)
  /\ (forall w, displayWidth_spec wcwidth str w ->
                w = getDisplayWidth wcwidth str)
  /\ (forall cp, is_scalar cp = true -> cp <> 0%N ->
                 getDisplayWidth wcwidth (utf8_encode cp ++ str)
                 = ((if (wcwidth cp <? 0)%Z then 1 else wcwidth cp)
                    + getDisplayWidth wcwidth str)%Z).
Proof.
  split; [apply getDisplayWidth_spec|]. split.
  - intros w Hw.
    exact (displayWidth_spec_unique Hw (getDisplayWidth_spec wcwidth str)).
  - intros cp Hs Hz. now apply getDisplayWidth_encoded.
Qed.

(** C7, as the specification states it, fails: the one byte NUL is a
    complete character, and the width of a NUL followed by ["a"] is 0, not
    0 + 1, because the scan ends at the NUL. *)
Lemma C7_width_additive_counterexample :
  ends_on_boundary [NUL] = true
  /\ getDisplayWidth wcwidth_sample ([NUL] ++ text_a) = 0%Z
  /\ getDisplayWidth wcwidth_sample [NUL] = 0%Z
  /\ getDisplayWidth wcwidth_sample text_a = 1%Z.
Proof. repeat split. Qed.

(** C7, amended: when [a] holds no NUL and ends on a character boundary, the
    width of [a ++ b] is the sum of the widths of [a] and of [b]. *)
Theorem C7_width_additive (wcwidth : wchar -> Z) (a b : list byte) :
  cstr a = a ->
  ends_on_boundary a = true ->
  getDisplayWidth wcwidth (a ++ b)
  = (getDisplayWidth wcwidth a + getDisplayWidth wcwidth b)%Z.
Proof. apply getDisplayWidth_app. Qed.

Lemma C7_width_additive_witness :
  getDisplayWidth wcwidth_sample (nichi ++ text_nihon)
  = (getDisplayWidth wcwidth_sample nichi
     + getDisplayWidth wcwidth_sample text_nihon)%Z.
Proof.
  apply (@C7_width_additive wcwidth_sample nichi text_nihon); reflexivity.
Defined.

(** C8, as the specification states it, fails: when the window-size query
    succeeds and reports no columns, the width returned is 0. *)
Lemma C8_terminal_width_counterexample :
  getTerminalWidth tty0 = 0%Z.
Proof. reflexivity. Qed.

(** C8, amended: [getTerminalWidth] returns the column count that the
    window-size query reports and exactly 80 when the query fails; the
    result is never negative, and it is positive unless the query reports
    zero columns. *)
Theorem C8_terminal_width :
  getTerminalWidth None = 80%Z
  /\ (forall w, getTerminalWidth (Some w) = Z.of_N (ws_col w))
  /\ (forall r, (0 <= getTerminalWidth r)%Z)
  /\ (forall w, (0 < getTerminalWidth (Some w))%Z <-> ws_col w <> 0%N).
Proof.
  repeat split.
  - intros [w|]; cbn; lia.
  - cbn. lia.
  - cbn. lia.
Qed.

(** C9: the code at the failing input.  When the [strdup] of
    [addLineToParagraph] fails on the text ["a"] (the sixth allocation), the
    parser returns a document with one paragraph and no line, and the driver
    exits with status 0; when the [realloc] of [addParagraphToDocument]
    fails on a text of nine paragraphs (allocation 39), the parser returns
    the first eight.  A failure of the allocation just before, the [malloc]
    of the line buffer in [parseDocument], is reported by a null result. *)
Theorem C9_allocation_failure_absorbed :
  fst (parseDocument (fails_at 5) text_a 0)
  = Ret (mkDocument [mkParagraph [] 8] 8)
  /\ fst (main_after_read (fails_at 5) wcwidth_sample tty80 (Some text_a) 0)
     = Some (mkRun 0 [])
  /\ option_map (fun doc => length (paragraphs doc))
       (match fst (parseDocument (fails_at 38) text_nine 0) with
        | Ret doc => Some doc
        | _ => None
        end) = Some 8
  /\ fst (parseDocument (fails_at 4) text_a 0) = Null.
Proof. repeat split. Qed.

(** C10: two input buffers that agree up to their first NUL are parsed into
    the same document, have the same display width, and make the program
    write the same output, whatever the allocator, the width table and the
    terminal do. *)
Theorem C10_bytes_after_nul_ignored (alloc_ok : nat -> bool)
        (wcwidth : wchar -> Z) (ioctl_winsz : option winsize)
        (buffer1 buffer2 : cptr) (n : nat) :
  cstr buffer1 = cstr buffer2 ->
  parseDocument alloc_ok buffer1 n = parseDocument alloc_ok buffer2 n
  /\ getDisplayWidth wcwidth buffer1 = getDisplayWidth wcwidth buffer2
  /\ main_after_read alloc_ok wcwidth ioctl_winsz (Some buffer1) n
     = main_after_read alloc_ok wcwidth ioctl_winsz (Some buffer2) n.
Proof.
  intros H.
  assert (Hp : parseDocument alloc_ok buffer1 n = parseDocument alloc_ok buffer2 n).
  { rewrite <- (parseDocument_cstr alloc_ok buffer1),
            <- (parseDocument_cstr alloc_ok buffer2). now rewrite H. }
  repeat split.
  - exact Hp.
  - rewrite <- (getDisplayWidth_cstr wcwidth buffer1),
            <- (getDisplayWidth_cstr wcwidth buffer2). now rewrite H.
  - unfold main_after_read, bind. now rewrite Hp.
Qed.

Lemma C10_bytes_after_nul_ignored_witness :
  parseDocument never_fails buffer_one 0 = parseDocument never_fails buffer_two 0
  /\ getDisplayWidth wcwidth_sample buffer_one
     = getDisplayWidth wcwidth_sample buffer_two
  /\ main_after_read never_fails wcwidth_sample tty20 (Some buffer_one) 0
     = main_after_read never_fails wcwidth_sample tty20 (Some buffer_two) 0.
Proof.
  apply (@C10_bytes_after_nul_ignored never_fails wcwidth_sample tty20
           buffer_one buffer_two 0).
  reflexivity.
Defined.

(* ===================================================================== *)
(** * The parser under any allocator                                      *)
(* ===================================================================== *)

Section ParserAnyAllocator.

Variable alloc_ok : nat -> bool.

Local Abbreviation some_request_fails := (request_fails alloc_ok).

Lemma some_request_fails_later (n m m' n' : nat) :
  n <= m -> m' <= n' -> some_request_fails m m' -> some_request_fails n n'.
Proof. intros H H' [k [Hk E]]. exists k. split; [lia | exact E]. Qed.

Lemma createParagraph_outcome (n : nat) :
  n <= snd (createParagraph alloc_ok n)
  /\ (fst (createParagraph alloc_ok n) = Some (mkParagraph [] 8)
      \/ fst (createParagraph alloc_ok n) = None
         /\ some_request_fails n (snd (createParagraph alloc_ok n))).
Proof.
  unfold createParagraph, bind, malloc, ret.
  destruct (alloc_ok n) eqn:E1; cbn.
  - destruct (alloc_ok (S n)) eqn:E2; cbn.
    + split; [lia | now left].
    + split; [lia|]. right. split; [reflexivity|]. exists (S n). split; [lia|assumption].
  - split; [lia|]. right. split; [reflexivity|]. exists n. split; [lia|assumption].
Qed.

Lemma createDocument_outcome (n : nat) :
  n <= snd (createDocument alloc_ok n)
  /\ (fst (createDocument alloc_ok n) = Some (mkDocument [] 8)
      \/ fst (createDocument alloc_ok n) = None
         /\ some_request_fails n (snd (createDocument alloc_ok n))).
Proof.
  unfold createDocument, bind, malloc, ret.
  destruct (alloc_ok n) eqn:E1; cbn.
  - destruct (alloc_ok (S n)) eqn:E2; cbn.
    + split; [lia | now left].
    + split; [lia|]. right. split; [reflexivity|]. exists (S n). split; [lia|assumption].
  - split; [lia|]. right. split; [reflexivity|]. exists n. split; [lia|assumption].
Qed.

(** What [addLineToParagraph] does to a paragraph: the line is appended or
    the paragraph keeps its lines; the capacity stays or, when the array was
    full, doubles. *)
Lemma addLineToParagraph_outcome (para : Paragraph) (line : cptr) (n : nat) :
  let para' := fst (addLineToParagraph alloc_ok para line n) in
  n <= snd (addLineToParagraph alloc_ok para line n)
  /\ (lines para' = lines para \/ lines para' = lines para ++ [cstr line])
  /\ (capacity para' = capacity para
      \/ (capacity para <= lineCount para)%Z
         /\ capacity para' = (capacity para * 2)%Z).
Proof.
  unfold addLineToParagraph, bind, strdup, malloc, ret, strdup_content.
  destruct (Z.geb_spec (lineCount para) (capacity para)) as [Hfull|Hroom]; cbn.
  - destruct (alloc_ok n); cbn.
    + destruct (alloc_ok (S n)); cbn.
      * split; [lia|]. split; [now right | right; lia].
      * split; [lia|]. split; [now left | right; lia].
    + split; [lia|]. split; now left.
  - destruct (alloc_ok n); cbn.
    + split; [lia|]. split; [now right | now left].
    + split; [lia|]. split; now left.
Qed.

Lemma addParagraphToDocument_outcome (doc : Document) (para : Paragraph)
      (n : nat) :
  let doc' := fst (addParagraphToDocument alloc_ok doc para n) in
  n <= snd (addParagraphToDocument alloc_ok doc para n)
  /\ (paragraphs doc' = paragraphs doc
      \/ paragraphs doc' = paragraphs doc ++ [para])
  /\ (docCapacity doc' = docCapacity doc
      \/ (docCapacity doc <= paragraphCount doc)%Z
         /\ docCapacity doc' = (docCapacity doc * 2)%Z).
Proof.
  unfold addParagraphToDocument, bind, malloc, ret.
  destruct (Z.geb_spec (paragraphCount doc) (docCapacity doc)) as [Hfull|Hroom]; cbn.
  - destruct (alloc_ok n); cbn.
    + split; [lia|]. split; [now right | right; lia].
    + split; [lia|]. split; now left.
  - split; [lia|]. split; [now right | now left].
Qed.

Lemma line_loop_0 (p : cptr) (room : nat) (para : Paragraph) (n : nat) :
  line_loop alloc_ok 0 p room para n = (OutOfFuel, n).
Proof. reflexivity. Qed.

Lemma parse_loop_0 (doc : Document) (s : cptr) (n : nat) :
  parse_loop alloc_ok 0 doc s n = (OutOfFuel, n).
Proof. reflexivity. Qed.

(** The line loop ends with a null result only when one of its requests
    has failed. *)
Lemma line_loop_outcome (fuel : nat) :
  forall (p : cptr) (room : nat) (para : Paragraph) (n : nat),
    n <= snd (line_loop alloc_ok fuel p room para n)
    /\ (fst (line_loop alloc_ok fuel p room para n) = Null ->
        some_request_fails n (snd (line_loop alloc_ok fuel p room para n))).
Proof.
  induction fuel as [|fuel IH]; intros p room para n.
  - rewrite line_loop_0. cbn. split; [lia | discriminate].
  - rewrite line_loop_S.
    destruct ((0 <? room) && negb (Byte.eqb (deref p) NUL));
      [|cbn; split; [lia | discriminate]].
    cbv zeta. unfold bind. cbn [malloc].
    destruct (alloc_ok n) eqn:E; cbn [negb].
    + unfold bind.
      pose proof (addLineToParagraph_outcome para
                    (strncpy p (find_line_end room p) ++ [NUL]) (S n)) as [Hn _].
      destruct (addLineToParagraph alloc_ok para _ (S n)) as [para' n'].
      cbn [snd] in Hn.
      destruct ((0 <? room - find_line_end room p)
                && Byte.eqb (deref (skipn (find_line_end room p) p)) NL).
      * destruct (IH (tl (skipn (find_line_end room p) p))
                     (room - find_line_end room p - 1) para' n') as [H1 H2].
        split; [lia|]. intros H. destruct (H2 H) as [k [Hk Ek]].
        exists k. split; [lia | exact Ek].
      * destruct (IH (skipn (find_line_end room p) p)
                     (room - find_line_end room p) para' n') as [H1 H2].
        split; [lia|]. intros H. destruct (H2 H) as [k [Hk Ek]].
        exists k. split; [lia | exact Ek].
    + cbn. split; [lia|]. intros _. exists n. split; [lia | exact E].
Qed.

Lemma parse_loop_outcome (fuel : nat) :
  forall (doc : Document) (s : cptr) (n : nat),
    n <= snd (parse_loop alloc_ok fuel doc s n)
    /\ (fst (parse_loop alloc_ok fuel doc s n) = Null ->
        some_request_fails n (snd (parse_loop alloc_ok fuel doc s n))).
Proof.
  induction fuel as [|fuel IH]; intros doc s n.
  - rewrite parse_loop_0. cbn. split; [lia | discriminate].
  - rewrite parse_loop_S.
    destruct (Byte.eqb (deref s) NUL); [cbn; split; [lia | discriminate]|].
    cbv zeta.
    destruct (Byte.eqb (deref (skip_newlines s)) NUL);
      [cbn; split; [lia | discriminate]|].
    set (p := skip_newlines s).
    destruct (match strstr p [NL; NL] with
              | Some q => (q, skipn (q + 2) p)
              | None => (strlen p, skipn (strlen p) p)
              end) as [paraEnd next].
    unfold bind.
    destruct (createParagraph_outcome n) as [Hn Hc].
    destruct (createParagraph alloc_ok n) as [[para|] n1]; cbn [fst snd] in *.
    2:{ cbn. split; [lia|]. intros _.
        destruct Hc as [Hc | [_ Hc]]; [discriminate | exact Hc]. }
    unfold bind.
    destruct (line_loop_outcome (S paraEnd) p paraEnd para n1) as [Hn1 Hl].
    destruct (line_loop alloc_ok (S paraEnd) p paraEnd para n1) as [[para'| |] n2];
      cbn [fst snd] in *.
    + unfold bind.
      pose proof (addParagraphToDocument_outcome doc para' n2) as [Hn2 _].
      destruct (addParagraphToDocument alloc_ok doc para' n2) as [doc' n3].
      cbn [snd] in Hn2. destruct (IH doc' next n3) as [H1 H2].
      split; [lia|]. intros H. destruct (H2 H) as [k [Hk Ek]].
      exists k. split; [lia | exact Ek].
    + cbn. split; [lia|]. intros _. destruct (Hl eq_refl) as [k [Hk Ek]].
      exists k. split; [lia | exact Ek].
    + cbn. split; [lia | discriminate].
Qed.

End ParserAnyAllocator.

(** X1: whatever the allocator does and whatever the text holds,
    [parseDocument] returns a document, or it returns a null pointer and
    then one of the allocation requests that this call made has failed. *)
Theorem parseDocument_fails_only_on_allocation (alloc_ok : nat -> bool)
        (text : cptr) (n : nat) :
  (exists doc, fst (parseDocument alloc_ok text n) = Ret doc)
  \/ (fst (parseDocument alloc_ok text n) = Null
      /\ request_fails alloc_ok n (snd (parseDocument alloc_ok text n))).
Proof.
  pose proof (parseDocument_returns alloc_ok text n) as Hret.
  destruct (fst (parseDocument alloc_ok text n)) as [doc| |] eqn:E.
  - left. now exists doc.
  - right. split; [reflexivity|]. revert E.
    unfold parseDocument. unfold bind.
    destruct (createDocument_outcome alloc_ok n) as [Hn Hc].
    destruct (createDocument alloc_ok n) as [[doc|] n1]; cbn [fst snd] in *.
    + intros E.
      destruct (parse_loop_outcome alloc_ok (S (strlen text)) doc text n1)
        as [_ H].
      destruct (H E) as [k [Hk Ek]]. exists k. split; [lia | exact Ek].
    + intros _. destruct Hc as [Hc | [_ Hc]]; [discriminate | exact Hc].
  - now contradiction Hret.
Qed.

(* ===================================================================== *)
(** * What every returned document satisfies                              *)
(* ===================================================================== *)

Section ParserInvariants.

Variable alloc_ok : nat -> bool.

Lemma Forall_firstn_nonzero (n : nat) (a : list byte) :
  Forall nonzero a -> Forall nonzero (firstn n a).
Proof.
  intros H. rewrite <- (firstn_skipn n a) in H. now apply Forall_app in H.
Qed.

(** The string stored for a line: the first [n] bytes of the source
    string. *)
Lemma cstr_strncpy (p : cptr) (n : nat) :
  cstr (strncpy p n ++ [NUL]) = firstn n (cstr p).
Proof.
  unfold strncpy. destruct (Nat.le_gt_cases n (length (cstr p))) as [H|H].
  - rewrite firstn_app. replace (n - length (cstr p)) with 0 by lia.
    rewrite firstn_0, app_nil_r.
    assert (Hz : Forall nonzero (firstn n (cstr p)))
      by (apply Forall_firstn_nonzero, cstr_nonzero).
    rewrite (cstr_app _ Hz). cbn. apply app_nil_r.
  - rewrite firstn_app, (@firstn_all2 _ n (cstr p)) by lia.
    rewrite <- app_assoc, (cstr_app _ (cstr_nonzero p)).
    assert (Hz : forall k m, cstr (firstn k (repeat NUL m) ++ [NUL]) = [])
      by (intros [|k] [|m]; reflexivity).
    rewrite Hz. apply app_nil_r.
Qed.

Lemma find_line_end_clean (room : nat) :
  forall p : cptr, clean_line (firstn (find_line_end room p) (cstr p)).
Proof.
  unfold clean_line.
  induction room as [|room IH]; intros p; cbn [find_line_end]; [constructor|].
  byte_cases (deref p) NL; [constructor|].
  destruct p as [|b p]; [constructor|]. cbn [deref tl cstr] in *.
  byte_cases b NUL; [constructor|]. cbn [firstn].
  constructor; [now split | apply IH].
Qed.

Lemma addLineToParagraph_cases (para : Paragraph) (line : cptr) (n : nat) :
  let para' := fst (addLineToParagraph alloc_ok para line n) in
  para' = para
  \/ ((lineCount para < capacity para)%Z
      /\ para' = mkParagraph (lines para ++ [cstr line]) (capacity para))
  \/ ((capacity para <= lineCount para)%Z
      /\ para' = mkParagraph (lines para) (capacity para * 2))
  \/ ((capacity para <= lineCount para)%Z
      /\ para' = mkParagraph (lines para ++ [cstr line]) (capacity para * 2)).
Proof.
  unfold addLineToParagraph, bind, strdup, malloc, ret, strdup_content.
  destruct (Z.geb_spec (lineCount para) (capacity para)) as [Hfull|Hroom]; cbn.
  - destruct (alloc_ok n); cbn; [|now left].
    destruct (alloc_ok (S n)); cbn.
    + right; right; right. split; [lia | reflexivity].
    + right; right; left. split; [lia | reflexivity].
  - destruct (alloc_ok n); cbn; [|now left].
    right; left. split; [lia | reflexivity].
Qed.

Lemma addParagraphToDocument_cases (doc : Document) (para : Paragraph)
      (n : nat) :
  let doc' := fst (addParagraphToDocument alloc_ok doc para n) in
  doc' = doc
  \/ ((paragraphCount doc < docCapacity doc)%Z
      /\ doc' = mkDocument (paragraphs doc ++ [para]) (docCapacity doc))
  \/ ((docCapacity doc <= paragraphCount doc)%Z
      /\ doc' = mkDocument (paragraphs doc ++ [para]) (docCapacity doc * 2)).
Proof.
  unfold addParagraphToDocument, bind, malloc, ret.
  destruct (Z.geb_spec (paragraphCount doc) (docCapacity doc)) as [Hfull|Hroom]; cbn.
  - destruct (alloc_ok n); cbn; [|now left].
    right; right. split; [lia | reflexivity].
  - right; left. split; [lia | reflexivity].
Qed.

(** A property of paragraphs that [addLineToParagraph] keeps for clean
    lines holds behind the line loop. *)
Lemma line_loop_invariant (P : Paragraph -> Prop) :
  (forall para line n,
      P para -> clean_line (cstr line) ->
      P (fst (addLineToParagraph alloc_ok para line n))) ->
  forall (fuel : nat) (p : cptr) (room : nat) (para : Paragraph) (n : nat)
         (para' : Paragraph),
    P para ->
    fst (line_loop alloc_ok fuel p room para n) = Ret para' ->
    P para'.
Proof.
  intros Hadd. induction fuel as [|fuel IH]; intros p room para n para' HP.
  - rewrite line_loop_0. discriminate.
  - rewrite line_loop_S.
    destruct ((0 <? room) && negb (Byte.eqb (deref p) NUL)).
    2:{ cbn. now intros [= <-]. }
    cbv zeta. unfold bind. cbn [malloc].
    destruct (alloc_ok n); cbn [negb]; [|discriminate].
    pose proof (Hadd para (strncpy p (find_line_end room p) ++ [NUL]) (S n) HP)
      as HP'.
    rewrite cstr_strncpy in HP'. specialize (HP' (find_line_end_clean room p)).
    destruct (addLineToParagraph alloc_ok para _ (S n)) as [para1 n1].
    cbn [fst] in HP'.
    destruct ((0 <? room - find_line_end room p)
              && Byte.eqb (deref (skipn (find_line_end room p) p)) NL);
      now apply IH.
Qed.

(** A property of documents that [addParagraphToDocument] keeps for the
    paragraphs built by the line loop holds behind the main loop. *)
Lemma parse_loop_invariant (P : Paragraph -> Prop) (Q : Document -> Prop) :
  (forall para line n,
      P para -> clean_line (cstr line) ->
      P (fst (addLineToParagraph alloc_ok para line n))) ->
  (forall doc para n,
      Q doc -> P para -> Q (fst (addParagraphToDocument alloc_ok doc para n))) ->
  P (mkParagraph [] 8) ->
  forall (fuel : nat) (doc : Document) (s : cptr) (n : nat) (doc' : Document),
    Q doc ->
    fst (parse_loop alloc_ok fuel doc s n) = Ret doc' ->
    Q doc'.
Proof.
  intros Hline Hpara Hnew.
  induction fuel as [|fuel IH]; intros doc s n doc' HQ.
  - rewrite parse_loop_0. discriminate.
  - rewrite parse_loop_S.
    destruct (Byte.eqb (deref s) NUL); [cbn; now intros [= <-]|].
    cbv zeta.
    destruct (Byte.eqb (deref (skip_newlines s)) NUL); [cbn; now intros [= <-]|].
    set (p := skip_newlines s).
    destruct (match strstr p [NL; NL] with
              | Some q => (q, skipn (q + 2) p)
              | None => (strlen p, skipn (strlen p) p)
              end) as [paraEnd next].
    unfold bind.
    destruct (createParagraph_outcome alloc_ok n) as [_ Hc].
    destruct (createParagraph alloc_ok n) as [[para|] n1]; cbn [fst] in *;
      [|discriminate].
    destruct Hc as [[= ->] | [Hc _]]; [|discriminate].
    pose proof (@line_loop_invariant P Hline (S paraEnd) p paraEnd
                  (mkParagraph [] 8) n1) as HL.
    destruct (line_loop alloc_ok (S paraEnd) p paraEnd (mkParagraph [] 8) n1)
      as [[para'| |] n2]; cbn [fst] in *; try discriminate.
    specialize (HL para' Hnew eq_refl).
    pose proof (Hpara doc para' n2 HQ HL) as HQ'.
    destruct (addParagraphToDocument alloc_ok doc para' n2) as [doc1 n3].
    now apply IH.
Qed.

Lemma parseDocument_invariant (P : Paragraph -> Prop) (Q : Document -> Prop) :
  (forall para line n,
      P para -> clean_line (cstr line) ->
      P (fst (addLineToParagraph alloc_ok para line n))) ->
  (forall doc para n,
      Q doc -> P para -> Q (fst (addParagraphToDocument alloc_ok doc para n))) ->
  P (mkParagraph [] 8) ->
  Q (mkDocument [] 8) ->
  forall (text : cptr) (n : nat) (doc : Document),
    fst (parseDocument alloc_ok text n) = Ret doc -> Q doc.
Proof.
  intros Hline Hpara Hnew Hdoc text n doc. unfold parseDocument, bind.
  destruct (createDocument_outcome alloc_ok n) as [_ Hc].
  destruct (createDocument alloc_ok n) as [[doc0|] n1]; cbn [fst] in *;
    [|discriminate].
  destruct Hc as [[= ->] | [Hc _]]; [|discriminate].
  now apply (@parse_loop_invariant P Q Hline Hpara Hnew).
Qed.

Lemma is_doubling_8 : is_doubling 8.
Proof. now exists 0. Qed.

Lemma is_doubling_twice (c : Z) : is_doubling c -> is_doubling (c * 2).
Proof.
  intros [k ->]. exists (S k). rewrite Nat2Z.inj_succ, Z.pow_succ_r by lia. lia.
Qed.

Lemma is_doubling_min (c : Z) : is_doubling c -> (8 <= c)%Z.
Proof.
  intros [k ->]. pose proof (Z.pow_pos_nonneg 2 (Z.of_nat k)). lia.
Qed.

Lemma lineCount_snoc (ls : list cptr) (l : cptr) (c : Z) :
  lineCount (mkParagraph (ls ++ [l]) c) = (Z.of_nat (length ls) + 1)%Z.
Proof. unfold lineCount. cbn [lines]. rewrite length_app. cbn [length]. lia. Qed.

Lemma para_fits_addLine (para : Paragraph) (line : cptr) (n : nat) :
  para_fits para -> para_fits (fst (addLineToParagraph alloc_ok para line n)).
Proof.
  intros (H1 & H2 & H3). pose proof (is_doubling_min H3) as H8.
  destruct (addLineToParagraph_cases para line n)
    as [-> | [[Hc ->] | [[Hc ->] | [Hc ->]]]]; unfold para_fits.
  - auto.
  - rewrite lineCount_snoc. cbn [capacity]. unfold lineCount in *.
    repeat split; [lia | lia | exact H3].
  - unfold lineCount in *. cbn [lines capacity].
    repeat split; [lia | lia | now apply is_doubling_twice].
  - rewrite lineCount_snoc. cbn [capacity]. unfold lineCount in *.
    repeat split; [lia | lia | now apply is_doubling_twice].
Qed.

Lemma doc_fits_addParagraph (doc : Document) (para : Paragraph) (n : nat) :
  doc_fits doc -> doc_fits (fst (addParagraphToDocument alloc_ok doc para n)).
Proof.
  intros (H1 & H2 & H3). pose proof (is_doubling_min H3) as H8.
  destruct (addParagraphToDocument_cases doc para n)
    as [-> | [[Hc ->] | [Hc ->]]]; unfold doc_fits, paragraphCount in *;
    cbn [paragraphs docCapacity]; rewrite ?length_app; cbn [length].
  - auto.
  - repeat split; [lia | lia | exact H3].
  - repeat split; [lia | lia | now apply is_doubling_twice].
Qed.

End ParserInvariants.

(** X2: whatever the allocator does, no line of a document returned by
    [parseDocument] holds a newline or a NUL byte. *)
Theorem parsed_lines_clean (alloc_ok : nat -> bool) (text : cptr) (n : nat)
        (doc : Document) :
  fst (parseDocument alloc_ok text n) = Ret doc ->
  Forall (fun para => Forall clean_line (lines para)) (paragraphs doc).
Proof.
  apply (@parseDocument_invariant alloc_ok
           (fun para => Forall clean_line (lines para))
           (fun doc => Forall (fun para => Forall clean_line (lines para))
                              (paragraphs doc))).
  - intros para line m HP Hl.
    destruct (addLineToParagraph_cases alloc_ok para line m)
      as [-> | [[_ ->] | [[_ ->] | [_ ->]]]]; cbn [lines]; auto;
      apply Forall_app; split; auto.
  - intros d para m HQ HP.
    destruct (addParagraphToDocument_cases alloc_ok d para m)
      as [-> | [[_ ->] | [_ ->]]]; cbn [paragraphs]; auto;
      apply Forall_app; split; auto.
  - constructor.
  - constructor.
Qed.

Lemma parsed_lines_clean_witness :
  Forall (fun para => Forall clean_line (lines para)) (paragraphs doc_abc).
Proof.
  apply (@parsed_lines_clean never_fails text_abc 0 doc_abc). reflexivity.
Defined.

(** X3: whatever the allocator does, in a document returned by
    [parseDocument] the array of the document and the array of every
    paragraph hold their entries ([count <= capacity]), every capacity is 8
    doubled some number of times, and an array larger than 8 is at most
    twice as large as its number of entries. *)
Theorem parsed_arrays_fit (alloc_ok : nat -> bool) (text : cptr) (n : nat)
        (doc : Document) :
  fst (parseDocument alloc_ok text n) = Ret doc ->
  doc_fits doc /\ Forall para_fits (paragraphs doc).
Proof.
  apply (@parseDocument_invariant alloc_ok para_fits
           (fun doc => doc_fits doc /\ Forall para_fits (paragraphs doc))).
  - intros para line m HP _. now apply para_fits_addLine.
  - intros d para m [HQ HF] HP. split; [now apply doc_fits_addParagraph|].
    destruct (addParagraphToDocument_cases alloc_ok d para m)
      as [-> | [[_ ->] | [_ ->]]]; cbn [paragraphs]; auto;
      apply Forall_app; split; auto.
  - unfold para_fits, lineCount. cbn. repeat split; [lia | now left | apply is_doubling_8].
  - split; [|constructor].
    unfold doc_fits, paragraphCount. cbn.
    repeat split; [lia | now left | apply is_doubling_8].
Qed.

Lemma parsed_arrays_fit_witness :
  doc_fits doc_abc /\ Forall para_fits (paragraphs doc_abc).
Proof.
  apply (@parsed_arrays_fit never_fails text_abc 0 doc_abc). reflexivity.
Defined.

(* ===================================================================== *)
(** * The parser finds every paragraph of a well-shaped text              *)
(* ===================================================================== *)

Section ParserComplete.

Lemma join_head (ls : list (list byte)) (l u : list byte) :
  good_line l ->
  exists b m, join [NL] (l :: ls) ++ u = b :: m /\ b <> NL /\ b <> NUL.
Proof.
  intros [Hne Hl]. destruct l as [|b l]; [congruence|].
  inversion Hl as [|? ? [Hb Hz] _]; subst.
  destruct ls; cbn [join app]; eauto.
Qed.

Lemma join_nonzero (ls : list (list byte)) :
  Forall good_line ls -> Forall nonzero (join [NL] ls).
Proof.
  induction 1 as [|l ls Hl Hls IH]; [constructor|].
  destruct ls as [|l2 ls]; [now apply good_line_nonzero|].
  rewrite join_cons by discriminate. apply Forall_app. split.
  - now apply good_line_nonzero.
  - constructor; [discriminate | exact IH].
Qed.

Lemma newlines_nonzero (nls : list byte) :
  Forall (eq NL) nls -> Forall nonzero nls.
Proof. intros H. eapply Forall_impl; [|exact H]. intros b <-. discriminate. Qed.

Lemma paras_of_nonzero (s : list byte) (pss : list (list (list byte))) :
  paras_of s pss -> Forall nonzero s.
Proof.
  induction 1 as [nls Hn | nls ls t Hn [Hne Hg] Ht
                  | nls ls rest pss Hn [Hne Hg] Hrest IH].
  - now apply newlines_nonzero.
  - apply Forall_app. split; [now apply newlines_nonzero|].
    apply Forall_app. split; [now apply join_nonzero|].
    destruct Ht as [-> | ->]; repeat constructor; discriminate.
  - apply Forall_app. split; [now apply newlines_nonzero|].
    apply Forall_app. split; [now apply join_nonzero|].
    repeat constructor; try discriminate. exact IH.
Qed.

Lemma skip_newlines_run (nls x : list byte) :
  Forall (eq NL) nls -> deref x <> NL -> skip_newlines (nls ++ x) = x.
Proof.
  intros Hn Hx. induction Hn as [|b nls <- _ IH]; cbn [app skip_newlines].
  - destruct x as [|c x]; [reflexivity|]. cbn [deref] in Hx. cbn.
    now rewrite (byte_eqb_neq Hx).
  - now rewrite byte_eqb_refl.
Qed.

Lemma deref_run (nls x : list byte) :
  Forall (eq NL) nls -> deref x <> NUL -> deref (nls ++ x) <> NUL.
Proof. intros Hn Hx. destruct Hn as [|b nls <- _]; [exact Hx | discriminate]. Qed.

(** A text of a given shape is parsed into the paragraphs of that shape. *)
Lemma parse_loop_complete (s : list byte) (pss : list (list (list byte))) :
  paras_of s pss ->
  forall (fuel : nat) (doc : Document) (n : nat),
    length s < fuel ->
    exists ps cap n',
      parse_loop never_fails fuel doc s n
      = (Ret (mkDocument (paragraphs doc ++ ps) cap), n')
      /\ map lines ps = pss.
Proof.
  assert (Hstop : forall (doc : Document) (n : nat),
            exists ps cap n',
              (Ret doc, n) = (Ret (mkDocument (paragraphs doc ++ ps) cap), n')
              /\ map lines ps = []).
  { intros [ps cap] n. exists [], cap, n. cbn. now rewrite app_nil_r. }
  induction 1 as [nls Hn | nls ls t Hn [Hne Hg] Ht
                  | nls ls rest pss Hn [Hne Hg] Hrest IH];
    intros fuel doc n Hf; (destruct fuel as [|fuel]; [lia|]).
  - rewrite parse_loop_S.
    destruct (Byte.eqb (deref nls) NUL); [apply Hstop|]. cbv zeta.
    replace (skip_newlines nls) with (@nil byte).
    2:{ rewrite <- (app_nil_r nls). symmetry.
        apply skip_newlines_run; [exact Hn | discriminate]. }
    cbn. apply Hstop.
  - destruct ls as [|l ls]; [congruence|].
    set (body := join [NL] (l :: ls)) in *.
    inversion Hg as [|? ? Hl _]; subst.
    destruct (join_head ls (t ++ []) Hl) as [b [m [Eb [Hb Hz]]]].
    fold body in Eb. rewrite app_nil_r in Eb.
    assert (Hskip : skip_newlines (nls ++ body ++ t) = body ++ t)
      by (apply skip_newlines_run; [exact Hn | now rewrite Eb]).
    assert (Hzp : Forall nonzero (body ++ t)).
    { apply Forall_app. split; [now apply join_nonzero|].
      destruct Ht as [-> | ->]; repeat constructor; discriminate. }
    rewrite (@parse_loop_turn fuel doc (nls ++ body ++ t)
               (length (body ++ t)) [] n).
    + rewrite Hskip. unfold bind at 1.
      destruct (@line_loop_lines ls l t [] (S (length (body ++ t)))
                  (mkParagraph [] 8) (S (S n)) Hg Ht) as [cap [n1 EL]].
      { fold body. lia. }
      fold body in EL. rewrite app_nil_r in EL.
      rewrite EL. cbn [lines app]. unfold bind at 1.
      destruct (addParagraphToDocument_ok doc (mkParagraph (l :: ls) cap) n1)
        as [cap' [n2 ->]].
      assert (Hfuel : 0 < fuel).
      { assert (1 <= length (body ++ t)) by (rewrite Eb; cbn [length]; lia).
        rewrite (length_app nls) in Hf. lia. }
      destruct fuel as [|fuel]; [lia|]. rewrite parse_loop_S. cbn [deref].
      rewrite byte_eqb_refl.
      exists [mkParagraph (l :: ls) cap], cap', n2. split; reflexivity.
    + apply deref_run; [exact Hn | now rewrite Eb].
    + now rewrite Hskip, Eb.
    + rewrite Hskip. unfold strlen. rewrite (cstr_id Hzp), skipn_all.
      unfold body. rewrite (strstr_join _ Hg).
      now destruct Ht as [-> | ->].
  - destruct ls as [|l ls]; [congruence|].
    set (body := join [NL] (l :: ls)) in *.
    inversion Hg as [|? ? Hl _]; subst.
    destruct (join_head ls (NL :: NL :: rest) Hl) as [b [m [Eb [Hb Hz]]]].
    fold body in Eb.
    assert (Hskip : skip_newlines (nls ++ body ++ NL :: NL :: rest)
                    = body ++ NL :: NL :: rest)
      by (apply skip_newlines_run; [exact Hn | now rewrite Eb]).
    rewrite (@parse_loop_turn fuel doc (nls ++ body ++ NL :: NL :: rest)
               (length body) rest n).
    + rewrite Hskip. unfold bind at 1.
      destruct (@line_loop_lines ls l [] (NL :: NL :: rest) (S (length body))
                  (mkParagraph [] 8) (S (S n)) Hg (or_introl eq_refl))
        as [cap [n1 EL]].
      { rewrite app_nil_r. fold body. lia. }
      fold body in EL. rewrite app_nil_r in EL. cbn [app] in EL.
      rewrite EL. cbn [lines app]. unfold bind at 1.
      destruct (addParagraphToDocument_ok doc (mkParagraph (l :: ls) cap) n1)
        as [cap' [n2 ->]].
      destruct (IH fuel
                  (mkDocument (paragraphs doc ++ [mkParagraph (l :: ls) cap]) cap')
                  n2) as [ps [cap'' [n3 [-> Hps]]]].
      { rewrite !length_app in Hf. cbn [length] in Hf. lia. }
      exists (mkParagraph (l :: ls) cap :: ps), cap'', n3.
      cbn [paragraphs map lines]. rewrite <- app_assoc.
      split; [reflexivity | now f_equal].
    + apply deref_run; [exact Hn | now rewrite Eb].
    + now rewrite Hskip, Eb.
    + rewrite Hskip. unfold body. rewrite (strstr_join _ Hg). fold body.
      rewrite strstr_found. cbn [option_map]. rewrite Nat.add_0_r.
      replace (length body + 2) with (length (body ++ [NL; NL]))
        by (rewrite length_app; reflexivity).
      replace (body ++ NL :: NL :: rest) with ((body ++ [NL; NL]) ++ rest)
        by (rewrite <- app_assoc; reflexivity).
      now rewrite skipn_app, skipn_all, Nat.sub_diag.
Qed.

Lemma parseDocument_complete (s : list byte) (pss : list (list (list byte)))
      (n : nat) :
  paras_of s pss ->
  exists doc n',
    parseDocument never_fails s n = (Ret doc, n') /\ doc_lines doc = pss.
Proof.
  intros Hs. unfold parseDocument, bind.
  cbn [createDocument malloc never_fails negb]. unfold bind. cbn.
  pose proof (paras_of_nonzero Hs) as Hz.
  destruct (@parse_loop_complete s pss Hs (S (strlen s)) (mkDocument [] 8) (S (S n)))
    as [ps [cap [n' [E Hps]]]].
  { unfold strlen. rewrite (cstr_id Hz). lia. }
  exists (mkDocument ps cap), n'. split; [exact E | exact Hps].
Qed.

(** The joined paragraphs have the shape that leads back to them. *)
Lemma paras_of_joined (pss : list (list (list byte))) :
  Forall good_para pss -> paras_of (joined pss) pss.
Proof.
  induction 1 as [|ls pss Hls Hpss IH].
  - apply (po_nil (nls := [])). constructor.
  - unfold joined in *. cbn [map].
    destruct pss as [|ls2 pss].
    + cbn [map join].
      rewrite <- (app_nil_r (join [NL] ls)).
      apply (po_last (nls := []) (t := [])); [constructor | exact Hls | now left].
    + rewrite join_cons by discriminate.
      apply (po_cons (nls := [])); [constructor | exact Hls | exact IH].
Qed.

Lemma paras_of_empty (s : list byte) (pss : list (list (list byte))) :
  paras_of s pss -> (pss = [] <-> Forall (eq NL) s).
Proof.
  assert (Hcontent : forall nls ls u,
             good_para ls -> ~ Forall (eq NL) (nls ++ join [NL] ls ++ u)).
  { intros nls ls u [Hne Hg] H. destruct ls as [|l ls]; [congruence|].
    inversion Hg as [|? ? Hl _]; subst.
    destruct (join_head ls u Hl) as [b [m [Eb [Hb _]]]].
    rewrite Eb in H. apply Forall_app in H as [_ H].
    inversion H; subst. congruence. }
  intros H. inversion H; subst.
  - split; auto.
  - split; [discriminate|]. intros Ha. exfalso. eapply Hcontent; eauto.
  - split; [discriminate|]. intros Ha. exfalso. eapply Hcontent; eauto.
Qed.

End ParserComplete.

(** X4: the parser returns a document without paragraphs exactly when the
    text, up to its first NUL, holds nothing but newline bytes; the empty
    text is such a text. *)
Theorem parsed_empty_iff_only_newlines (text : cptr) (n : nat) :
  exists doc n',
    parseDocument never_fails text n = (Ret doc, n')
    /\ (paragraphs doc = [] <-> Forall (eq NL) (cstr text)).
Proof.
  destruct (parseDocument_shape text n) as [doc [n' [E Hs]]].
  exists doc, n'. split; [exact E|].
  rewrite <- (paras_of_empty Hs). unfold doc_lines.
  destruct (paragraphs doc); cbn [map]; split; intros H;
    try reflexivity; discriminate H.
Qed.

(** X5: no line of a parsed document is empty: a paragraph ends at the
    first blank line, and the newlines behind it are skipped. *)
Theorem parsed_lines_not_empty (text : cptr) (n : nat) :
  exists doc n',
    parseDocument never_fails text n = (Ret doc, n')
    /\ Forall (fun para => Forall (fun l => 1 <= strlen l) (lines para))
              (paragraphs doc).
Proof.
  destruct (parseDocument_shape text n) as [doc [n' [E Hs]]].
  exists doc, n'. split; [exact E|].
  apply paras_of_good in Hs. unfold doc_lines in Hs.
  rewrite Forall_map in Hs. eapply Forall_impl; [|exact Hs].
  intros para [_ Hg]. eapply Forall_impl; [|exact Hg].
  intros l Hl. unfold strlen. rewrite (cstr_id (good_line_nonzero Hl)).
  pose proof (good_line_length Hl). lia.
Qed.

(** X6: the joined text of a parsed document is a fixed point: parsing it
    again yields the same paragraphs with the same lines, and joining those
    yields the same text. *)
Theorem reparse_joined_document (text : cptr) (n : nat) :
  exists doc n1 doc' n2,
    parseDocument never_fails text n = (Ret doc, n1)
    /\ parseDocument never_fails (join_document doc) n1 = (Ret doc', n2)
    /\ doc_lines doc' = doc_lines doc
    /\ join_document doc' = join_document doc.
Proof.
  destruct (parseDocument_shape text n) as [doc [n1 [E Hs]]].
  pose proof (paras_of_joined (paras_of_good Hs)) as Hj.
  destruct (parseDocument_complete n1 Hj) as [doc' [n2 [E' Hl]]].
  exists doc, n1, doc', n2. split; [exact E|]. split; [exact E'|].
  split; [exact Hl|]. unfold join_document. now rewrite Hl.
Qed.

(* ===================================================================== *)
(** * Bounds and special cases of the display width                       *)
(* ===================================================================== *)

Section WidthBounds.

Variable wcwidth : wchar -> Z.

Lemma column_width_nonneg (wc : wchar) : (0 <= column_width wcwidth wc)%Z.
Proof. unfold column_width. destruct (Z.ltb_spec (wcwidth wc) 0); lia. Qed.

Lemma strlen_cons (b : byte) (s : list byte) :
  b <> NUL -> strlen (b :: s) = S (strlen s).
Proof. intros Hb. unfold strlen. cbn [cstr]. now rewrite (byte_eqb_neq Hb). Qed.

Lemma displayWidth_spec_bounds (s : cptr) (w : Z) :
  displayWidth_spec wcwidth s w ->
  (0 <= w)%Z
  /\ ((forall wc, (wcwidth wc <= 2)%Z) -> (w <= 2 * Z.of_nat (strlen s))%Z).
Proof.
  induction 1 as [| s | s n wc w D _ [IH1 IH2] | b s w Hb D _ [IH1 IH2]].
  - split; [lia | intros _; cbn; lia].
  - split; [lia | intros _; cbn; lia].
  - pose proof (column_width_nonneg wc) as Hc. split; [lia|]. intros Hw.
    specialize (IH2 Hw). destruct (utf8_decode_char _ D) as [Hn _].
    fold (strlen s) in Hn. rewrite strlen_skipn in IH2 by exact Hn.
    pose proof (Pos2Nat.is_pos n).
    assert (column_width wcwidth wc <= 2)%Z.
    { unfold column_width. specialize (Hw wc).
      destruct (Z.ltb_spec (wcwidth wc) 0); lia. }
    lia.
  - split; [lia|]. intros Hw. specialize (IH2 Hw).
    rewrite (strlen_cons _ Hb). lia.
Qed.

Lemma utf8_decode_ascii (b : byte) (s : list byte) :
  is_ascii b -> utf8_decode (b :: s) = MbChar 1 (Byte.to_N b).
Proof.
  intros [H0 H1]. unfold utf8_decode.
  destruct (N.eqb_spec (Byte.to_N b) 0); [lia|].
  destruct (N.ltb_spec (Byte.to_N b) 128); [reflexivity | lia].
Qed.

Lemma utf8_decode_stray (b : byte) (s : list byte) :
  is_stray b -> utf8_decode (b :: s) = MbInvalid.
Proof.
  intros H. unfold is_stray in H. unfold utf8_decode.
  destruct (N.eqb_spec (Byte.to_N b) 0); [lia|].
  destruct (N.ltb_spec (Byte.to_N b) 128); [lia|].
  destruct (N.ltb_spec (Byte.to_N b) 194); [reflexivity|].
  destruct (N.ltb_spec (Byte.to_N b) 224); [lia|].
  destruct (N.ltb_spec (Byte.to_N b) 240); [lia|].
  destruct (N.ltb_spec (Byte.to_N b) 245); [lia | reflexivity].
Qed.

Lemma is_ascii_nonzero (b : byte) : is_ascii b -> b <> NUL.
Proof. intros [H _] ->. cbn in H. lia. Qed.

Lemma is_stray_nonzero (b : byte) : is_stray b -> b <> NUL.
Proof. intros H ->. unfold is_stray in H. cbn in H. lia. Qed.

Lemma displayWidth_spec_ascii (s : list byte) :
  Forall is_ascii s -> displayWidth_spec wcwidth s (ascii_width wcwidth s).
Proof.
  induction 1 as [|b s Hb Hs IH]; [constructor|]. cbn [ascii_width fold_right].
  apply dw_char with (n := 1%positive); [|exact IH].
  cbn [cstr]. rewrite (byte_eqb_neq (is_ascii_nonzero Hb)).
  now apply utf8_decode_ascii.
Qed.

Lemma displayWidth_spec_stray (s : list byte) :
  Forall is_stray s -> displayWidth_spec wcwidth s (Z.of_nat (length s)).
Proof.
  induction 1 as [|b s Hb Hs IH]; [constructor|].
  replace (Z.of_nat (length (b :: s))) with (1 + Z.of_nat (length s))%Z
    by (cbn [length]; lia).
  apply dw_bad; [exact (is_stray_nonzero Hb) | | exact IH].
  left. cbn [cstr]. rewrite (byte_eqb_neq (is_stray_nonzero Hb)).
  now apply utf8_decode_stray.
Qed.

End WidthBounds.

(** X7: the display width is never negative, whatever the width table
    answers; when the table answers 2 at most, the width is at most twice
    the length of the string. *)
Theorem getDisplayWidth_bounds (wcwidth : wchar -> Z) (str : cptr) :
  (0 <= getDisplayWidth wcwidth str)%Z
  /\ ((forall wc, (wcwidth wc <= 2)%Z) ->
      (getDisplayWidth wcwidth str <= 2 * Z.of_nat (strlen str))%Z).
Proof.
  exact (displayWidth_spec_bounds (getDisplayWidth_spec wcwidth str)).
Qed.

(** X8: in a string of 7-bit bytes every byte is a character of its own:
    the width is the sum of the column widths of the bytes, so the length of
    the string when each has width 1. *)
Theorem getDisplayWidth_ascii (wcwidth : wchar -> Z) (s : list byte) :
  Forall is_ascii s ->
  getDisplayWidth wcwidth s = ascii_width wcwidth s
  /\ ((forall b, In b s -> wcwidth (Byte.to_N b) = 1%Z) ->
      getDisplayWidth wcwidth s = Z.of_nat (length s)).
Proof.
  intros Hs.
  assert (E : getDisplayWidth wcwidth s = ascii_width wcwidth s).
  { apply displayWidth_spec_unique with (wcwidth := wcwidth) (s := s).
    - apply getDisplayWidth_spec.
    - now apply displayWidth_spec_ascii. }
  split; [exact E|]. intros Hw. rewrite E. clear E Hs.
  induction s as [|b s IH]; [reflexivity|]. cbn [ascii_width fold_right length].
  fold (ascii_width wcwidth s). rewrite IH by (intros c Hc; apply Hw; now right).
  unfold column_width. rewrite (Hw b) by now left.
  change (1 <? 0)%Z with false. cbv iota. lia.
Qed.

Lemma getDisplayWidth_ascii_witness :
  getDisplayWidth wcwidth_sample text_a = ascii_width wcwidth_sample text_a
  /\ ((forall b, In b text_a -> wcwidth_sample (Byte.to_N b) = 1%Z) ->
      getDisplayWidth wcwidth_sample text_a = Z.of_nat (length text_a)).
Proof.
  apply (@getDisplayWidth_ascii wcwidth_sample text_a).
  repeat constructor.
Defined.

(** X9: bytes that begin a character in no form of UTF-8 (the continuation
    bytes 80 to BF and the bytes C0, C1, FE and FF) count one column each,
    whatever the width table answers. *)
Theorem getDisplayWidth_stray (wcwidth : wchar -> Z) (s : list byte) :
  Forall is_stray s ->
  getDisplayWidth wcwidth s = Z.of_nat (length s).
Proof.
  intros Hs. apply displayWidth_spec_unique with (wcwidth := wcwidth) (s := s).
  - apply getDisplayWidth_spec.
  - now apply displayWidth_spec_stray.
Qed.

Lemma getDisplayWidth_stray_witness :
  getDisplayWidth wcwidth_sample stray_bytes = Z.of_nat (length stray_bytes).
Proof.
  apply (@getDisplayWidth_stray wcwidth_sample stray_bytes).
  repeat constructor; unfold is_stray; cbn; lia.
Defined.

(* ===================================================================== *)
(** * The rendering of lines and documents                                *)
(* ===================================================================== *)

Lemma print_lines_concat (wcwidth : wchar -> Z) (terminalWidth : Z)
      (ls : list cptr) :
  print_lines wcwidth terminalWidth ls
  = concat (map (print_line wcwidth terminalWidth) ls).
Proof.
  induction ls as [|l ls IH]; [reflexivity|].
  cbn [print_lines map concat]. now rewrite IH.
Qed.

(** C3: the renderer writes, for every line [L] of the document in its
    order, [max ((terminalColumns - w) / 2, 0)] spaces, where [w] is the
    display width of [L], [terminalColumns] the width that the terminal
    probe reports and the division truncates toward zero, then the bytes of
    the string [L], then one newline (and one newline more between two
    paragraphs); when [w <= terminalColumns] the number of spaces is the
    floor of [(terminalColumns - w) / 2].  The lines of a document that the
    parser returned hold no NUL, so the bytes of the string are all the
    bytes of the line. *)
Theorem C3_line_rendering (wcwidth : wchar -> Z)
        (ioctl_winsz : option winsize) (doc : Document) :
  let terminalColumns := getTerminalWidth ioctl_winsz in
  let pad (L : cptr) :=
    Z.max (Z.quot (terminalColumns - getDisplayWidth wcwidth L) 2) 0 in
  printCenteredDocument wcwidth ioctl_winsz (Some doc)
  = join [NL]
      (map (fun para =>
              concat (map (fun L => repeat SP (Z.to_nat (pad L))
                                    ++ cstr L ++ [NL])
                          (lines para)))
           (paragraphs doc))
  /\ (forall L : cptr,
         (getDisplayWidth wcwidth L <= terminalColumns)%Z ->
         pad L = ((terminalColumns - getDisplayWidth wcwidth L) / 2)%Z)
  /\ (forall (alloc_ok : nat -> bool) (text : cptr) (n : nat),
         fst (parseDocument alloc_ok text n) = Ret doc ->
         Forall (fun para => Forall (fun L => cstr L = L) (lines para))
                (paragraphs doc)).
Proof.
  cbv zeta. split; [|split].
  - rewrite printCenteredDocument_eq. f_equal.
    apply map_ext. intros para. rewrite print_lines_concat. f_equal.
    apply map_ext. intros L. apply print_line_eq.
  - intros L Hw. rewrite Z.quot_div_nonneg by lia.
    apply Z.max_l. apply Z.div_pos; lia.
  - intros alloc_ok text n.
    apply (@parseDocument_invariant alloc_ok
             (fun para => Forall (fun L => cstr L = L) (lines para))
             (fun d => Forall (fun para =>
                                 Forall (fun L => cstr L = L) (lines para))
                              (paragraphs d))).
    + intros para line m HP _.
      destruct (addLineToParagraph_cases alloc_ok para line m)
        as [-> | [[_ ->] | [[_ ->] | [_ ->]]]]; cbn [lines]; auto;
        (apply Forall_app; split; [exact HP|]);
        (constructor; [apply cstr_idem | constructor]).
    + intros d para m HQ HP.
      destruct (addParagraphToDocument_cases alloc_ok d para m)
        as [-> | [[_ ->] | [_ ->]]]; cbn [paragraphs]; auto;
        apply Forall_app; split; auto.
    + constructor.
    + constructor.
Qed.

(** X10: a line that fits the terminal is written with a left margin that
    is never larger than the right margin and smaller by one column at most,
    so margin and line fit the terminal; a line as wide as the terminal, up
    to one column, or wider is written without margin. *)
Theorem print_line_margins (wcwidth : wchar -> Z) (terminalWidth : Z)
        (line : cptr) :
  let w := getDisplayWidth wcwidth line in
  ((w <= terminalWidth)%Z ->
   exists pad : Z,
     print_line wcwidth terminalWidth line
     = repeat SP (Z.to_nat pad) ++ cstr line ++ [NL]
     /\ (0 <= pad)%Z
     /\ (pad <= terminalWidth - w - pad <= pad + 1)%Z)
  /\ ((terminalWidth <= w + 1)%Z ->
      print_line wcwidth terminalWidth line = cstr line ++ [NL]).
Proof.
  cbv zeta. split.
  - intros Hw. exists (Z.quot (terminalWidth - getDisplayWidth wcwidth line) 2).
    rewrite print_line_eq.
    pose proof (Z.quot_pos (terminalWidth - getDisplayWidth wcwidth line) 2
                  ltac:(lia) ltac:(lia)) as Hq.
    rewrite Z.max_l by lia. split; [reflexivity|]. split; [exact Hq|].
    rewrite Z.quot_div_nonneg in * by lia.
    pose proof (Z.div_mod (terminalWidth - getDisplayWidth wcwidth line) 2
                  ltac:(lia)).
    pose proof (Z.mod_pos_bound (terminalWidth - getDisplayWidth wcwidth line) 2
                  ltac:(lia)).
    lia.
  - intros Hw. rewrite print_line_eq.
    replace (Z.max (Z.quot (terminalWidth - getDisplayWidth wcwidth line) 2) 0)
      with 0%Z; [reflexivity|].
    symmetry. apply Z.max_r.
    destruct (Z.le_gt_cases (terminalWidth - getDisplayWidth wcwidth line) 0).
    + apply Z.quot_le_upper_bound; lia.
    + replace (terminalWidth - getDisplayWidth wcwidth line)%Z with 1%Z by lia.
      cbn. lia.
Qed.

(** X11: with memory to spare, the program exits with status 0 and writes
    the lines of the parsed document in their order, each rendered on its
    own, with one newline more between two paragraphs and nothing behind the
    last. *)
Theorem main_output (wcwidth : wchar -> Z) (ioctl_winsz : option winsize)
        (text : cptr) (n : nat) :
  exists doc n',
    parseDocument never_fails text n = (Ret doc, n')
    /\ main_after_read never_fails wcwidth ioctl_winsz (Some text) n
       = (Some (mkRun 0
            (join [NL]
               (map (fun para =>
                       concat (map (print_line wcwidth
                                      (getTerminalWidth ioctl_winsz))
                                   (lines para)))
                    (paragraphs doc)))), n').
Proof.
  destruct (parseDocument_shape text n) as [doc [n' [E _]]].
  exists doc, n'. split; [exact E|].
  unfold main_after_read, bind. rewrite E. unfold ret. do 3 f_equal.
  rewrite printCenteredDocument_eq. f_equal.
  apply map_ext. intros para. apply print_lines_concat.
Qed.

(* ===================================================================== *)
(** * Word wrapping                                                       *)
(* ===================================================================== *)

Section WrapFacts.

Variable alloc_ok : nat -> bool.
Variable wcwidth : wchar -> Z.
Variable wspace : byte -> bool.

Lemma skip_spaces_length (p : cptr) : length (skip_spaces wspace p) <= length p.
Proof.
  induction p as [|b p IH]; cbn [skip_spaces]; [lia|].
  destruct (negb (Byte.eqb b NUL) && wspace b); cbn [length]; lia.
Qed.

Lemma skip_spaces_head (p : cptr) :
  deref (skip_spaces wspace p) <> NUL ->
  exists b q, skip_spaces wspace p = b :: q /\ b <> NUL /\ wspace b = false.
Proof.
  induction p as [|b p IH]; cbn [skip_spaces]; [cbn; congruence|].
  byte_cases b NUL; cbn [negb andb]; [cbn; congruence|].
  destruct (wspace b) eqn:Ew; [exact IH|].
  intros _. now exists b, p.
Qed.

Lemma skip_spaces_word (p : cptr) :
  deref p <> NUL -> wspace (deref p) = false -> skip_spaces wspace p = p.
Proof.
  destruct p as [|b p]; cbn [deref skip_spaces]; [reflexivity|].
  intros _ ->. now rewrite andb_false_r.
Qed.

Lemma word_loop_spec (textLen : nat) (p : cptr) :
  forall word : list byte,
    let r := word_loop wspace textLen p word in
    length (snd r) <= length p
    /\ (Forall (word_byte wspace) word -> Forall (word_byte wspace) (fst r))
    /\ (length word <= textLen -> length (fst r) <= textLen).
Proof.
  induction p as [|b p IH]; intros word; cbn [word_loop].
  - cbn. auto.
  - byte_cases b NUL; cbn [negb andb]; [cbn; auto|].
    destruct (wspace b) eqn:Ew; cbn [negb]; [cbn; auto|].
    destruct (IH (if length word <? textLen then word ++ [b] else word))
      as [Hl [Hf Hn]].
    split; [cbn [length]; lia|]. split.
    + intros Hw. apply Hf.
      destruct (length word <? textLen); [|assumption].
      apply Forall_app. split; [assumption|].
      constructor; [|constructor]. now split.
    + intros Hw. apply Hn.
      destruct (Nat.ltb_spec (length word) textLen); [|assumption].
      rewrite length_app. cbn. lia.
Qed.

Lemma word_loop_head (textLen : nat) (b : byte) (p : cptr) (word : list byte) :
  b <> NUL -> wspace b = false ->
  length (snd (word_loop wspace textLen (b :: p) word)) < S (length p).
Proof.
  intros Hb Hw. cbn [word_loop].
  byte_cases b NUL; [congruence|]. rewrite Hw. cbn [negb andb].
  pose proof (word_loop_spec textLen p
                (if length word <? textLen then word ++ [b] else word)) as H.
  cbv zeta in H. lia.
Qed.

(** A text without white space is one word. *)
Lemma word_loop_one_word (textLen : nat) (p : cptr) :
  Forall (fun b => wspace b = false) (cstr p) ->
  forall word : list byte,
    length word + strlen p <= textLen ->
    word_loop wspace textLen p word = (word ++ cstr p, skipn (strlen p) p).
Proof.
  unfold strlen.
  induction p as [|b p IH]; intros Hp word Hlen; cbn [word_loop cstr].
  - now rewrite app_nil_r.
  - cbn [cstr] in Hp, Hlen. byte_cases b NUL; cbn [negb andb].
    + now rewrite app_nil_r.
    + cbn [length] in Hlen. inversion Hp as [|? ? Hb Hp']; subst.
      rewrite Hb. cbn [negb].
      destruct (Nat.ltb_spec (length word) textLen); [|lia].
      rewrite IH; [|assumption|rewrite length_app; cbn; lia].
      rewrite <- app_assoc. reflexivity.
Qed.

Lemma deref_skipn_strlen (p : cptr) : deref (skipn (strlen p) p) = NUL.
Proof.
  unfold strlen. induction p as [|b p IH]; cbn [cstr]; [reflexivity|].
  byte_cases b NUL; [reflexivity|]. exact IH.
Qed.

Lemma cstr_terminated (w : list byte) : cstr (cstr w ++ [NUL]) = cstr w.
Proof.
  induction w as [|b w IH]; cbn [cstr app]; [reflexivity|].
  byte_cases b NUL; [reflexivity|].
  cbn [cstr app]. byte_cases b NUL; [congruence|]. now rewrite IH.
Qed.

Lemma word_wrapped (w : list byte) :
  Forall (word_byte wspace) w -> Forall (wrapped_byte wspace) w.
Proof.
  apply Forall_impl. intros b [Hb Hw]. split; [assumption | now right].
Qed.

Lemma wrapped_nonzero (l : list byte) :
  Forall (wrapped_byte wspace) l -> cstr l = l.
Proof.
  intros Hl. apply cstr_id. eapply Forall_impl; [|exact Hl].
  intros b [Hb _]. exact Hb.
Qed.

Lemma cstr_word (w : list byte) :
  Forall (word_byte wspace) w -> cstr (w ++ [NUL]) = w.
Proof.
  intros Hw. pose proof (wrapped_nonzero (word_wrapped Hw)) as E.
  rewrite <- E at 1. now rewrite cstr_terminated.
Qed.

(** The width counted for a word: never negative, and 0 for no word. *)
Lemma word_width (w : list byte) :
  Forall (word_byte wspace) w ->
  (0 <= getDisplayWidth wcwidth (w ++ [NUL]))%Z
  /\ (w = [] -> getDisplayWidth wcwidth (w ++ [NUL]) = 0%Z).
Proof.
  intros Hw. split.
  - exact (proj1 (displayWidth_spec_bounds
                    (getDisplayWidth_spec wcwidth (w ++ [NUL])))).
  - intros ->. rewrite <- getDisplayWidth_cstr. cbn [app cstr].
    change (Byte.eqb NUL NUL) with true. cbn iota.
    apply displayWidth_spec_unique with (wcwidth := wcwidth) (s := []).
    + apply getDisplayWidth_spec.
    + constructor.
Qed.

Lemma addLineToParagraph_lines (para : Paragraph) (line : cptr) (n : nat) :
  lines (fst (addLineToParagraph alloc_ok para line n)) = lines para
  \/ lines (fst (addLineToParagraph alloc_ok para line n))
     = lines para ++ [cstr line].
Proof.
  destruct (@addLineToParagraph_cases alloc_ok para line n)
    as [E|[[_ E]|[[_ E]|[_ E]]]]; cbv zeta in E; rewrite E; cbn; auto.
Qed.

Section Buffer.

Variable textLen : nat.

Lemma line_buffer_nonzero (cur : list byte) (w : Z) :
  line_buffer wspace textLen cur w -> cstr cur = cur.
Proof. intros [H _]. now apply wrapped_nonzero. Qed.

(** A buffer of positive width is a line. *)
Lemma line_buffer_line (cur : list byte) (w : Z) :
  line_buffer wspace textLen cur w -> (0 < w)%Z ->
  wrapped_line wspace textLen cur.
Proof.
  intros [Hb [Hl [Hw Hh]]] Hpos. split; [assumption|]. split; [assumption|].
  destruct cur as [|b cur]; [lia|]. now exists b, cur.
Qed.

Lemma line_buffer_space (cur : list byte) (w : Z) :
  line_buffer wspace textLen cur w -> (0 < w)%Z ->
  length cur + 1 < textLen ->
  line_buffer wspace textLen (cur ++ [SP]) (w + 1).
Proof.
  intros [Hb [Hl [Hw Hh]]] Hpos Hroom. split; [|split; [|split]].
  - apply Forall_app. split; [assumption|].
    constructor; [|constructor]. split; [discriminate | now left].
  - rewrite length_app. cbn [length]. lia.
  - lia.
  - destruct cur as [|b cur]; [lia | exact Hh].
Qed.

Lemma line_buffer_word (cur word : list byte) (w wordWidth : Z) :
  line_buffer wspace textLen cur w ->
  Forall (word_byte wspace) word ->
  (0 <= wordWidth)%Z -> (word = [] -> wordWidth = 0%Z) ->
  length cur + length word < textLen ->
  line_buffer wspace textLen (cur ++ word) (w + wordWidth).
Proof.
  intros [Hb [Hl [Hw Hh]]] Hword Hpos Hnil Hroom. split; [|split; [|split]].
  - apply Forall_app. split; [assumption | now apply word_wrapped].
  - rewrite length_app. lia.
  - lia.
  - destruct cur as [|b cur]; [|exact Hh]. cbn [app].
    destruct word as [|b word]; [rewrite Hnil by reflexivity; lia|].
    now inversion Hword.
Qed.

Lemma line_buffer_copy (word : list byte) (wordWidth : Z) :
  Forall (word_byte wspace) word -> length word <= textLen ->
  (0 <= wordWidth)%Z -> (word = [] -> wordWidth = 0%Z) ->
  line_buffer wspace textLen word wordWidth.
Proof.
  intros Hword Hl Hpos Hnil. split; [|split; [|split]].
  - now apply word_wrapped.
  - assumption.
  - assumption.
  - destruct word as [|b word]; [now apply Hnil | now inversion Hword].
Qed.

Lemma line_buffer_empty : line_buffer wspace textLen [] 0.
Proof. split; [constructor|]. split; [cbn; lia|]. split; [lia | reflexivity]. Qed.

Lemma paragraph_with_line (para : Paragraph) (cur : list byte) (w : Z)
      (n : nat) :
  line_buffer wspace textLen cur w -> (0 < w)%Z ->
  Forall (wrapped_line wspace textLen) (lines para) ->
  Forall (wrapped_line wspace textLen)
         (lines (fst (addLineToParagraph alloc_ok para cur n))).
Proof.
  intros Hc Hpos Hp.
  destruct (addLineToParagraph_lines para cur n) as [-> | ->]; [assumption|].
  apply Forall_app. split; [assumption|]. constructor; [|constructor].
  rewrite (line_buffer_nonzero Hc). now apply line_buffer_line with (w := w).
Qed.

Lemma wrap_finish_invariant (currentLine : cptr) (currentLineWidth : Z)
      (para : Paragraph) (n : nat) :
  line_buffer wspace textLen currentLine currentLineWidth ->
  Forall (wrapped_line wspace textLen) (lines para) ->
  exists para',
    fst (wrap_finish alloc_ok currentLine currentLineWidth para n) = Ret para'
    /\ Forall (wrapped_line wspace textLen) (lines para').
Proof.
  intros Hc Hp. unfold wrap_finish.
  destruct (Z.ltb_spec 0 currentLineWidth) as [Hpos|Hzero].
  - unfold bind, ret.
    pose proof (@paragraph_with_line para currentLine currentLineWidth n
                  Hc Hpos Hp) as H.
    destruct (addLineToParagraph alloc_ok para currentLine n) as [para' n'].
    now exists para'.
  - exists para. now split.
Qed.

(** The loop of [wrapTextToWidth] ends, and the lines it adds are made of
    words of the text and single spaces, and begin with a word. *)
Lemma wrap_loop_invariant (maxWidth : Z) :
  forall (fuel : nat) (ptr : cptr) (currentLine : cptr)
         (currentLineWidth : Z) (para : Paragraph) (n : nat),
    length ptr < fuel ->
    line_buffer wspace textLen currentLine currentLineWidth ->
    Forall (wrapped_line wspace textLen) (lines para) ->
    exists para',
      fst (wrap_loop alloc_ok wcwidth wspace fuel textLen maxWidth ptr
                     currentLine currentLineWidth para n) = Ret para'
      /\ Forall (wrapped_line wspace textLen) (lines para').
Proof.
  induction fuel as [|fuel IH]; intros ptr cur w para n Hfuel Hc Hp; [lia|].
  cbn [wrap_loop].
  byte_cases (deref ptr) NUL; [now apply wrap_finish_invariant|].
  byte_cases (deref (skip_spaces wspace ptr)) NUL;
    [now apply wrap_finish_invariant|].
  destruct (skip_spaces_head ptr) as [b [q [Eq [Hb Hw]]]]; [assumption|].
  pose proof (skip_spaces_length ptr) as Hskip. rewrite Eq in *.
  pose proof (@word_loop_head textLen b q [] Hb Hw) as Hshort.
  pose proof (word_loop_spec textLen (b :: q) []) as [_ [Hbytes Hlen]].
  destruct (word_loop wspace textLen (b :: q) []) as [word rest].
  cbn [fst snd length] in *.
  specialize (Hbytes (Forall_nil _)). specialize (Hlen (Nat.le_0_l _)).
  assert (Hword : strlen (word ++ [NUL]) = length word)
    by (unfold strlen; now rewrite cstr_word).
  destruct (word_width Hbytes) as [Hpos Hnil].
  assert (Hcur : strlen cur = length cur)
    by (unfold strlen; now rewrite (line_buffer_nonzero Hc)).
  destruct ((w =? 0)%Z
            || (w + 1 + getDisplayWidth wcwidth (word ++ [NUL]) <=? maxWidth)%Z)
    eqn:Efits.
  - set (st1 := if (0 <? w)%Z
                then if strlen cur + 1 <? textLen
                     then (strcat cur [SP], (w + 1)%Z) else (cur, w)
                else (cur, w)).
    assert (H1 : line_buffer wspace textLen (fst st1) (snd st1)).
    { subst st1. destruct (Z.ltb_spec 0 w); [|assumption].
      destruct (Nat.ltb_spec (strlen cur + 1) textLen); [|assumption].
      cbn [fst snd]. unfold strcat. rewrite (line_buffer_nonzero Hc).
      change (cstr [SP]) with [SP]. apply line_buffer_space; [assumption..|lia]. }
    destruct st1 as [cur1 w1]. cbn [fst snd] in H1.
    assert (Hcur1 : strlen cur1 = length cur1)
      by (unfold strlen; now rewrite (line_buffer_nonzero H1)).
    set (st2 := if strlen cur1 + strlen (word ++ [NUL]) <? textLen
                then (strcat cur1 (word ++ [NUL]),
                      (w1 + getDisplayWidth wcwidth (word ++ [NUL]))%Z)
                else (cur1, w1)).
    assert (H2 : line_buffer wspace textLen (fst st2) (snd st2)).
    { subst st2.
      destruct (Nat.ltb_spec (strlen cur1 + strlen (word ++ [NUL])) textLen);
        [|assumption].
      cbn [fst snd]. unfold strcat.
      rewrite (line_buffer_nonzero H1), cstr_word by assumption.
      apply line_buffer_word; [assumption..|lia]. }
    destruct st2 as [cur2 w2]. cbn [fst snd] in H2.
    apply IH; [lia | assumption | assumption].
  - apply orb_false_iff in Efits. destruct Efits as [Hw0 _].
    apply Z.eqb_neq in Hw0.
    assert (Hwpos : (0 < w)%Z) by (destruct Hc as [_ [_ [? _]]]; lia).
    unfold bind.
    pose proof (@paragraph_with_line para cur w n Hc Hwpos Hp) as Hp'.
    destruct (addLineToParagraph alloc_ok para cur n) as [para' n'].
    cbn [fst] in Hp'.
    set (st := if strlen (word ++ [NUL]) <? textLen + 1
               then (strcpy (word ++ [NUL]),
                     getDisplayWidth wcwidth (word ++ [NUL]))
               else ([], 0%Z)).
    assert (H1 : line_buffer wspace textLen (fst st) (snd st)).
    { subst st. destruct (strlen (word ++ [NUL]) <? textLen + 1);
        cbn [fst snd]; [|apply line_buffer_empty].
      unfold strcpy. rewrite cstr_word by assumption.
      now apply line_buffer_copy. }
    destruct st as [cur' w']. cbn [fst snd] in H1.
    apply IH; [lia | assumption | assumption].
Qed.

End Buffer.

(** [wrapTextToWidth] makes four allocation requests before its loop,
    and reaches the loop unless one of them fails. *)
Lemma wrapTextToWidth_prelude (text : cptr) (maxWidth : Z) (n : nat) :
  ((forall k, n <= k < 4 + n -> alloc_ok k = true)
   /\ wrapTextToWidth alloc_ok wcwidth wspace text maxWidth n
      = wrap_loop alloc_ok wcwidth wspace (S (length text)) (strlen text)
                  maxWidth text [] 0 (mkParagraph [] 8) (4 + n))
  \/ (fst (wrapTextToWidth alloc_ok wcwidth wspace text maxWidth n) = Null
      /\ request_fails alloc_ok n
           (snd (wrapTextToWidth alloc_ok wcwidth wspace text maxWidth n))
      /\ request_fails alloc_ok n (4 + n)).
Proof.
  assert (Hc : createParagraph alloc_ok n
               = if alloc_ok n
                 then if alloc_ok (S n)
                      then (Some (mkParagraph [] 8), S (S n))
                      else (None, S (S n))
                 else (None, S n)).
  { unfold createParagraph, bind, malloc, ret.
    destruct (alloc_ok n); cbn; [destruct (alloc_ok (S n))|]; reflexivity. }
  unfold wrapTextToWidth, bind. rewrite Hc. unfold malloc, ret.
  destruct (alloc_ok n) eqn:E0;
    [|right; cbn [fst snd]; split; [reflexivity|];
      split; exists n; (split; [lia | assumption])].
  destruct (alloc_ok (S n)) eqn:E1;
    [|right; cbn [fst snd]; split; [reflexivity|];
      split; exists (S n); (split; [lia | assumption])].
  destruct (alloc_ok (S (S n))) eqn:E2; cbn [negb];
    [|right; cbn [fst snd]; split; [reflexivity|];
      split; exists (S (S n)); (split; [lia | assumption])].
  destruct (alloc_ok (S (S (S n)))) eqn:E3; cbn [negb];
    [|right; cbn [fst snd]; split; [reflexivity|];
      split; exists (S (S (S n))); (split; [lia | assumption])].
  left. split; [|reflexivity]. intros k Hk.
  assert (Hcases : k = n \/ k = S n \/ k = S (S n) \/ k = S (S (S n))) by lia.
  destruct Hcases as [-> | [-> | [-> | ->]]]; assumption.
Qed.

End WrapFacts.

(** X12: [wrapTextToWidth] gives up only when one of the allocation
    requests that the call made has failed; otherwise it returns a
    paragraph, and each of its lines begins with a byte of a word, so is
    not empty, holds no NUL and no white space other than the space, and
    has no more bytes than the text. *)
Theorem wrapTextToWidth_lines (alloc_ok : nat -> bool) (wcwidth : wchar -> Z)
        (wspace : byte -> bool) (text : cptr) (maxWidth : Z) (n : nat) :
  (exists para,
      fst (wrapTextToWidth alloc_ok wcwidth wspace text maxWidth n) = Ret para
      /\ Forall (wrapped_line wspace (strlen text)) (lines para))
  \/ (fst (wrapTextToWidth alloc_ok wcwidth wspace text maxWidth n) = Null
      /\ request_fails alloc_ok n
           (snd (wrapTextToWidth alloc_ok wcwidth wspace text maxWidth n))).
Proof.
  destruct (wrapTextToWidth_prelude alloc_ok wcwidth wspace text maxWidth n)
    as [[_ ->] | [H1 [H2 _]]]; [|now right].
  left. apply wrap_loop_invariant; [lia | | constructor].
  apply line_buffer_empty.
Qed.

(** X13: a text that holds no white space, a single word, is wrapped to a
    paragraph without lines when the four allocation requests of the call
    succeed: the word is as long as the text, and the test that guards its
    copy into the line buffer asks for less.  When one of the four
    requests fails, the result is a null pointer. *)
Theorem wrapTextToWidth_single_word (alloc_ok : nat -> bool)
        (wcwidth : wchar -> Z) (wspace : byte -> bool) (text : cptr)
        (maxWidth : Z) (n : nat) :
  Forall (fun b => wspace b = false) (cstr text) ->
  ((forall k, n <= k < 4 + n -> alloc_ok k = true) ->
   wrapTextToWidth alloc_ok wcwidth wspace text maxWidth n
   = (Ret (mkParagraph [] 8), 4 + n))
  /\ (request_fails alloc_ok n (4 + n) ->
      fst (wrapTextToWidth alloc_ok wcwidth wspace text maxWidth n) = Null).
Proof.
  intros Htext.
  destruct (wrapTextToWidth_prelude alloc_ok wcwidth wspace text maxWidth n)
    as [[Hall ->] | [HN [_ [k [Hk Ek]]]]].
  2:{ split; [|intros _; exact HN].
      intros Hall. rewrite Hall in Ek by lia. discriminate. }
  split; [intros _ | intros [k [Hk Ek]]; rewrite Hall in Ek by lia;
                     discriminate].
  cbn [wrap_loop].
  byte_cases (deref text) NUL; [reflexivity|].
  assert (Hhead : wspace (deref text) = false).
  { destruct text as [|b t]; [now cbn in E|]. cbn [deref cstr] in *.
    byte_cases b NUL; [congruence|]. now inversion Htext. }
  rewrite skip_spaces_word by assumption.
  byte_cases (deref text) NUL; [congruence|].
  rewrite (@word_loop_one_word wspace (strlen text) text Htext [])
    by (cbn; lia).
  cbn [app].
  assert (Hlen : strlen (cstr text ++ [NUL]) = strlen text)
    by (unfold strlen; now rewrite cstr_terminated).
  rewrite Hlen. cbn [Z.eqb orb Z.ltb Z.compare].
  change (strlen []) with 0. cbn [Nat.add].
  rewrite Nat.ltb_irrefl.
  destruct text as [|b t]; [now cbn in E|]. cbn [length wrap_loop].
  rewrite deref_skipn_strlen.
  byte_cases NUL NUL; [reflexivity | congruence].
Qed.

Lemma wrapTextToWidth_single_word_witness :
  Forall (fun b => wspace_c b = false) (cstr text_a)
  /\ wrapTextToWidth never_fails wcwidth_sample wspace_c text_a 80 0
     = (Ret (mkParagraph [] 8), 4).
Proof.
  assert (H : Forall (fun b => wspace_c b = false) (cstr text_a))
    by (repeat constructor).
  split; [exact H|].
  exact (proj1 (@wrapTextToWidth_single_word never_fails wcwidth_sample
                  wspace_c text_a 80 0 H)
               (fun k _ => eq_refl)).
Defined.

(* ===================================================================== *)
(** * Word wrapping of narrow text                                        *)
(* ===================================================================== *)

Section WrapNarrow.

Variable wcwidth : wchar -> Z.
Variable wspace : byte -> bool.

Local Abbreviation gap p := (deref p = NUL \/ wspace (deref p) = true).

Lemma skip_spaces_spec (p : cptr) :
  exists ws,
    cstr p = ws ++ cstr (skip_spaces wspace p)
    /\ Forall (fun b => wspace b = true) ws
    /\ (deref p <> NUL -> wspace (deref p) = true -> ws <> []).
Proof.
  induction p as [|b p [ws [E [Hws Hne]]]]; cbn [skip_spaces cstr deref].
  - exists []. repeat split; [constructor | congruence].
  - byte_cases b NUL; cbn [negb andb].
    + exists []. cbn [app cstr]. change (Byte.eqb NUL NUL) with true.
      repeat split; [constructor | congruence].
    + destruct (wspace b) eqn:Ew.
      * exists (b :: ws). cbn [app]. rewrite E.
        repeat split; [now constructor | discriminate].
      * exists []. cbn [app cstr]. rewrite (byte_eqb_neq E0).
        repeat split; [constructor | congruence].
Qed.

Lemma word_loop_run (textLen : nat) (p : cptr) :
  forall word : list byte,
    length word + strlen p <= textLen ->
    exists run rest,
      word_loop wspace textLen p word = (word ++ run, rest)
      /\ cstr p = run ++ cstr rest
      /\ Forall (word_byte wspace) run
      /\ gap rest
      /\ length rest <= length p.
Proof.
  unfold strlen.
  induction p as [|b p IH]; intros word Hlen; cbn [word_loop cstr].
  - exists [], []. rewrite app_nil_r. repeat split; [constructor | now left | lia].
  - cbn [cstr] in Hlen. byte_cases b NUL; cbn [negb andb].
    + exists [], (NUL :: p). rewrite app_nil_r. cbn [app cstr].
      change (Byte.eqb NUL NUL) with true.
      repeat split; [constructor | now left | lia].
    + destruct (wspace b) eqn:Ew; cbn [negb].
      * exists [], (b :: p). rewrite app_nil_r. cbn [app cstr].
        rewrite (byte_eqb_neq E).
        repeat split; [constructor | now right | lia].
      * cbn [length] in Hlen.
        destruct (Nat.ltb_spec (length word) textLen); [|lia].
        destruct (IH (word ++ [b])) as [run [rest [Hw [Hc [Hr [Hg Hl]]]]]];
          [rewrite length_app; cbn; lia|].
        exists (b :: run), rest. rewrite Hw, <- app_assoc. cbn [app].
        rewrite Hc. repeat split; try assumption.
        -- constructor; [now split | assumption].
        -- cbn [length]. lia.
Qed.

Lemma cstr_gap (p : cptr) :
  gap p -> cstr p = [] \/ exists c r, cstr p = c :: r /\ wspace c = true.
Proof.
  destruct p as [|b p]; cbn [deref cstr]; [now left|].
  byte_cases b NUL; [now left|]. intros [H|H]; [congruence|].
  right. now exists b, (cstr p).
Qed.

Lemma words_space (ws s : list byte) :
  Forall (fun b => wspace b = true) ws ->
  words wspace (ws ++ s) [] = words wspace s [].
Proof.
  induction 1 as [|b ws Hb _ IH]; [reflexivity|].
  cbn [app words]. now rewrite Hb.
Qed.

Lemma words_run (run s : list byte) :
  Forall (word_byte wspace) run ->
  forall word, words wspace (run ++ s) word = words wspace s (word ++ run).
Proof.
  induction 1 as [|b run [_ Hb] _ IH]; intros word;
    [now rewrite app_nil_r|].
  cbn [app words]. rewrite Hb, IH, <- app_assoc. reflexivity.
Qed.

Lemma words_gap (word s : list byte) :
  word <> [] ->
  s = [] \/ (exists c r, s = c :: r /\ wspace c = true) ->
  words wspace s word = word :: words wspace s [].
Proof.
  intros Hne [-> | [c [r [-> Hc]]]]; cbn [words].
  - destruct word; [congruence | reflexivity].
  - rewrite Hc. destruct word; [congruence | reflexivity].
Qed.

Lemma join_snoc (sep x : list byte) (xs : list (list byte)) :
  xs <> [] -> join sep (xs ++ [x]) = join sep xs ++ sep ++ x.
Proof.
  induction xs as [|y xs IH]; [congruence|]. intros _.
  destruct xs as [|z xs]; [reflexivity|].
  change ((y :: z :: xs) ++ [x]) with (y :: ((z :: xs) ++ [x])).
  rewrite join_cons by (cbn; discriminate).
  rewrite IH by discriminate.
  rewrite (@join_cons sep y (z :: xs)) by discriminate.
  now rewrite <- !app_assoc.
Qed.

Lemma join_words_nil (ws : list (list byte)) :
  Forall (fun w => w <> [] /\ Forall (word_byte wspace) w) ws ->
  join [SP] ws = [] -> ws = [].
Proof.
  intros H E. destruct ws as [|w ws]; [reflexivity|].
  inversion H as [|? ? [Hw _] _]; subst.
  destruct ws; cbn [join] in E; destruct w; cbn in E; congruence.
Qed.

Lemma join_words_nonzero (ws : list (list byte)) :
  Forall (fun w => w <> [] /\ Forall (word_byte wspace) w) ws ->
  cstr (join [SP] ws) = join [SP] ws.
Proof.
  intros H. apply cstr_id.
  induction H as [|w ws [_ Hw] Hws IH]; [constructor|].
  assert (Hn : Forall nonzero w)
    by (eapply Forall_impl; [|exact Hw]; now intros b [Hb _]).
  destruct ws as [|w2 ws]; [exact Hn|].
  rewrite join_cons by discriminate.
  apply Forall_app. split; [exact Hn|].
  apply Forall_app. split; [|exact IH].
  constructor; [discriminate | constructor].
Qed.

Lemma last_word (done run : list byte) :
  run <> [] -> Forall (word_byte wspace) run ->
  wspace (last (done ++ run) NUL) = false.
Proof.
  intros Hne Hrun.
  rewrite (app_removelast_last NUL Hne), app_assoc, last_last.
  rewrite Forall_forall in Hrun.
  destruct (Hrun (last run NUL)) as [_ H]; [|exact H].
  destruct run as [|b run]; [congruence|].
  apply (@exists_last _ (b :: run)) in Hne. destruct Hne as [l [a E]].
  rewrite E, last_last. apply in_or_app. right. now left.
Qed.

Lemma narrow_width (run : list byte) :
  Forall (narrow_byte wcwidth) run -> Forall (word_byte wspace) run ->
  getDisplayWidth wcwidth (run ++ [NUL]) = Z.of_nat (length run).
Proof.
  intros Hn Hw.
  rewrite <- getDisplayWidth_cstr, (@cstr_word wspace run Hw).
  transitivity (ascii_width wcwidth run).
  - apply displayWidth_spec_unique with (wcwidth := wcwidth) (s := run).
    + apply getDisplayWidth_spec.
    + apply displayWidth_spec_ascii.
      eapply Forall_impl; [|exact Hn]. now intros b [Hb _].
  - clear Hw. induction Hn as [|b run [_ Hb] _ IH]; [reflexivity|].
    cbn [ascii_width fold_right length]. fold (ascii_width wcwidth run).
    rewrite IH, Hb. lia.
Qed.

Section Loop.

Variable maxWidth : Z.
Variable total : list byte.
Hypothesis total_narrow : Forall (narrow_byte wcwidth) total.
Hypothesis total_ends : wspace (last total NUL) = true.

Local Abbreviation word_list ws :=
  (Forall (fun w : list byte => w <> [] /\ Forall (word_byte wspace) w) ws).

Lemma wrap_finish_words (cur : cptr) (w : Z) (para : Paragraph) (n : nat)
      (wss : list (list (list byte))) (curw : list (list byte)) :
  lines para = map (join [SP]) wss ->
  cur = join [SP] curw ->
  word_list curw ->
  concat wss ++ curw = words wspace total [] ->
  w = Z.of_nat (length cur) ->
  Forall (fun ws => ws <> [] /\ fits maxWidth ws) wss ->
  (curw = [] \/ fits maxWidth curw) ->
  exists para' n',
    wrap_finish never_fails cur w para n = (Ret para', n')
    /\ wrapped wspace maxWidth total (lines para').
Proof.
  intros Hlines Hcur Hcurw Hwords Hw Hfits Hfit. unfold wrap_finish.
  destruct (Z.ltb_spec 0 w) as [Hpos|Hzero].
  - unfold bind, ret.
    destruct (addLineToParagraph_ok para cur n) as [cap [n' ->]].
    eexists _, n'. split; [reflexivity|]. cbn [lines].
    assert (Hne : curw <> []) by (intros ->; cbn in Hcur; subst cur; cbn in *; lia).
    exists (wss ++ [curw]). split; [|split].
    + rewrite map_app, Hlines. cbn [map]. f_equal. f_equal.
      subst cur. now apply join_words_nonzero.
    + rewrite concat_app. cbn [concat]. now rewrite app_nil_r.
    + apply Forall_app. split; [assumption|]. constructor; [|constructor].
      split; [assumption|]. now destruct Hfit.
  - exists para, n. split; [reflexivity|].
    assert (curw = []) as ->.
    { apply join_words_nil; [assumption|]. rewrite <- Hcur.
      destruct cur; [reflexivity | cbn [length] in *; lia]. }
    rewrite app_nil_r in Hwords. now exists wss.
Qed.

(** The loop of [wrapTextToWidth] on narrow text that ends in white space:
    [done] is the part of the text behind [ptr], [wss] the words of the
    lines added so far and [curw] the words in the line buffer. *)
Lemma wrap_loop_words :
  forall (fuel : nat) (ptr : cptr) (cur : cptr) (w : Z) (para : Paragraph)
         (n : nat) (done : list byte) (wss : list (list (list byte)))
         (curw : list (list byte)),
    length ptr < fuel ->
    total = done ++ cstr ptr ->
    (done = [] \/ gap ptr) ->
    length cur <= length done ->
    lines para = map (join [SP]) wss ->
    cur = join [SP] curw ->
    word_list curw ->
    concat wss ++ curw ++ words wspace (cstr ptr) [] = words wspace total [] ->
    w = Z.of_nat (length cur) ->
    Forall (fun ws => ws <> [] /\ fits maxWidth ws) wss ->
    (curw = [] \/ fits maxWidth curw) ->
    exists para' n',
      wrap_loop never_fails wcwidth wspace fuel (length total) maxWidth ptr
                cur w para n = (Ret para', n')
      /\ wrapped wspace maxWidth total (lines para').
Proof.
  induction fuel as [|fuel IH];
    intros ptr cur w para n done wss curw Hfuel Htotal Hgap Hlen Hlines Hcur
           Hcurw Hwords Hw Hfits Hfit; [lia|].
  cbn [wrap_loop].
  byte_cases (deref ptr) NUL.
  { apply wrap_finish_words with (wss := wss) (curw := curw); try assumption.
    rewrite <- Hwords. f_equal.
    destruct ptr as [|b ptr]; cbn [deref cstr] in *;
      [now rewrite app_nil_r|].
    subst b. change (Byte.eqb NUL NUL) with true. now rewrite app_nil_r. }
  destruct (skip_spaces_spec ptr) as [ws [Eskip [Hws Hwsne]]].
  byte_cases (deref (skip_spaces wspace ptr)) NUL.
  { apply wrap_finish_words with (wss := wss) (curw := curw); try assumption.
    rewrite <- Hwords. f_equal. rewrite Eskip, words_space by assumption.
    destruct (skip_spaces wspace ptr) as [|b q]; cbn [deref cstr] in *;
      [now rewrite app_nil_r|].
    subst b. change (Byte.eqb NUL NUL) with true. now rewrite app_nil_r. }
  destruct (@skip_spaces_head wspace ptr) as [b [q [Eq [Hb Hbw]]]];
    [assumption|].
  pose proof (@skip_spaces_length wspace ptr) as Hskip. rewrite Eq in *.
  assert (Hsize : length total
                  = length done + length ws + strlen (b :: q)).
  { rewrite Htotal, Eskip, !length_app. unfold strlen. lia. }
  destruct (@word_loop_run (length total) (b :: q) [])
    as [run [rest [Hloop [Hcstr [Hrun [Hrest Hshort]]]]]];
    [cbn [length]; lia|].
  cbn [app] in Hloop.
  assert (Hrunne : run <> []).
  { intros ->. cbn [app] in Hcstr.
    assert (Hq : cstr (b :: q) = b :: cstr q)
      by (cbn [cstr]; now rewrite (byte_eqb_neq Hb)).
    destruct (@cstr_gap rest Hrest) as [Hc | [c [r [Hc Hcw]]]];
      rewrite Hc in Hcstr; rewrite Hq in Hcstr; [discriminate|].
    injection Hcstr as -> _. congruence. }
  assert (Hshorter : length rest < length (b :: q)).
  { pose proof (@word_loop_head wspace (length total) b q [] Hb Hbw) as H.
    rewrite Hloop in H. cbn [snd length] in *. lia. }
  rewrite Hloop.
  assert (Htotal' : total = (done ++ ws ++ run) ++ cstr rest).
  { rewrite Htotal, Eskip, Hcstr, <- !app_assoc. reflexivity. }
  assert (Hrestne : 1 <= strlen rest).
  { unfold strlen. destruct (cstr rest) eqn:Er; [|cbn; lia]. exfalso.
    rewrite app_nil_r, app_assoc in Htotal'.
    pose proof (@last_word (done ++ ws) run Hrunne Hrun) as H.
    rewrite <- Htotal' in H. congruence. }
  assert (Hsize' : length total
                   = length done + length ws + length run + strlen rest).
  { rewrite Htotal', !length_app. unfold strlen. lia. }
  assert (Hrunpos : 1 <= length run)
    by (destruct run; [congruence | cbn; lia]).
  assert (Hnarrow : Forall (narrow_byte wcwidth) run).
  { pose proof total_narrow as H. rewrite Htotal' in H.
    apply Forall_app in H. destruct H as [H _].
    apply Forall_app in H. destruct H as [_ H].
    apply Forall_app in H. now destruct H. }
  assert (Hword : strlen (run ++ [NUL]) = length run)
    by (unfold strlen; now rewrite (@cstr_word wspace run Hrun)).
  assert (Hcurz : cstr cur = cur)
    by (subst cur; now apply join_words_nonzero).
  assert (Hcurl : strlen cur = length cur)
    by (unfold strlen; now rewrite Hcurz).
  assert (Hwords' : words wspace (cstr ptr) []
                    = run :: words wspace (cstr rest) []).
  { rewrite Eskip, words_space, Hcstr by assumption.
    rewrite words_run by assumption. cbn [app].
    apply words_gap; [assumption | exact (@cstr_gap rest Hrest)]. }
  rewrite (narrow_width Hnarrow Hrun).
  destruct ((w =? 0)%Z || (w + 1 + Z.of_nat (length run) <=? maxWidth)%Z)
    eqn:Efits.
  - destruct (Z.ltb_spec 0 w) as [Hpos|Hzero].
    + (* a space, then the word *)
      assert (Hcurne : curw <> [])
        by (intros ->; cbn in Hcur; subst cur; cbn in *; lia).
      assert (Hwsne' : 1 <= length ws).
      { destruct Hgap as [-> | Hgap]; [cbn [length] in *; lia|].
        destruct Hgap as [Hg|Hg]; [congruence|].
        specialize (Hwsne E Hg). destruct ws; [congruence | cbn; lia]. }
      destruct (Nat.ltb_spec (strlen cur + 1) (length total)); [|lia].
      assert (Hcat : strcat cur [SP] = cur ++ [SP])
        by (unfold strcat; now rewrite Hcurz).
      rewrite Hcat.
      assert (Hcatz : cstr (cur ++ [SP]) = cur ++ [SP]).
      { apply cstr_id. apply Forall_app. split.
        - rewrite <- Hcurz. apply cstr_nonzero.
        - constructor; [discriminate | constructor]. }
      assert (Hcatl : strlen (cur ++ [SP]) = length cur + 1)
        by (unfold strlen; rewrite Hcatz, length_app; reflexivity).
      rewrite Hcatl, Hword.
      destruct (Nat.ltb_spec (length cur + 1 + length run) (length total));
        [|lia].
      unfold strcat. rewrite Hcatz, (@cstr_word wspace run Hrun).
      apply IH with (done := done ++ ws ++ run) (wss := wss)
                    (curw := curw ++ [run]).
      * lia.
      * exact Htotal'.
      * now right.
      * rewrite !length_app. cbn [length]. lia.
      * assumption.
      * rewrite join_snoc by assumption. rewrite <- Hcur, <- app_assoc.
        reflexivity.
      * apply Forall_app. split; [assumption|].
        constructor; [now split | constructor].
      * rewrite <- Hwords, Hwords', <- app_assoc. reflexivity.
      * rewrite !length_app. cbn [length]. lia.
      * assumption.
      * right. right. rewrite join_snoc by assumption.
        rewrite <- Hcur, !length_app. cbn [length].
        apply orb_true_iff in Efits. destruct Efits as [Hz|Hle];
          [apply Z.eqb_eq in Hz; lia|].
        apply Z.leb_le in Hle. lia.
    + (* the first word of a line *)
      assert (w = 0%Z) by lia. subst w.
      assert (cur = []) as -> by (destruct cur; [reflexivity | cbn in *; lia]).
      assert (curw = []) as -> by (now apply join_words_nil).
      change (strlen []) with 0. rewrite Hword. cbn [Nat.add].
      destruct (Nat.ltb_spec (length run) (length total)); [|lia].
      unfold strcat. cbn [cstr app]. rewrite (@cstr_word wspace run Hrun).
      apply IH with (done := done ++ ws ++ run) (wss := wss) (curw := [run]).
      * lia.
      * exact Htotal'.
      * now right.
      * rewrite !length_app. lia.
      * assumption.
      * reflexivity.
      * constructor; [now split | constructor].
      * rewrite <- Hwords, Hwords'. reflexivity.
      * lia.
      * assumption.
      * right. now left.
  - (* the word opens the next line *)
    apply orb_false_iff in Efits. destruct Efits as [Hw0 _].
    apply Z.eqb_neq in Hw0.
    assert (Hcurne : curw <> [])
      by (intros ->; cbn in Hcur; subst cur; cbn in *; lia).
    unfold bind.
    destruct (addLineToParagraph_ok para cur n) as [cap [n' ->]].
    rewrite Hword.
    destruct (Nat.ltb_spec (length run) (length total + 1)); [|lia].
    unfold strcpy. rewrite (@cstr_word wspace run Hrun).
    apply IH with (done := done ++ ws ++ run) (wss := wss ++ [curw])
                  (curw := [run]).
    + lia.
    + exact Htotal'.
    + now right.
    + rewrite !length_app. lia.
    + cbn [lines]. rewrite map_app, Hlines, Hcurz, Hcur. reflexivity.
    + reflexivity.
    + constructor; [now split | constructor].
    + rewrite concat_app. cbn [concat]. rewrite app_nil_r.
      rewrite <- Hwords, Hwords', <- app_assoc. reflexivity.
    + reflexivity.
    + apply Forall_app. split; [assumption|]. constructor; [|constructor].
      split; [assumption|]. now destruct Hfit.
    + right. now left.
Qed.

End Loop.

End WrapNarrow.

(** X14: narrow text, 7-bit bytes of one column each, that ends in white
    space is wrapped without loss when memory is to spare: every line is
    made of words of the text joined by single spaces, the words of the
    lines in their order are the words of the text, and a line of more
    than one word has [maxWidth] bytes at most. *)
Theorem wrapTextToWidth_narrow (wcwidth : wchar -> Z) (wspace : byte -> bool)
        (text : cptr) (maxWidth : Z) (n : nat) :
  Forall (narrow_byte wcwidth) (cstr text) ->
  wspace (last (cstr text) NUL) = true ->
  exists para n',
    wrapTextToWidth never_fails wcwidth wspace text maxWidth n
    = (Ret para, n')
    /\ wrapped wspace maxWidth (cstr text) (lines para).
Proof.
  intros Hnarrow Hend. unfold wrapTextToWidth, bind.
  rewrite createParagraph_ok. unfold malloc, never_fails at 1 2.
  cbn [negb]. unfold strlen.
  apply (@wrap_loop_words wcwidth wspace maxWidth (cstr text) Hnarrow Hend
           (S (length text)) text [] 0%Z (mkParagraph [] 8) (S (S (S (S n))))
           [] [] []).
  - lia.
  - reflexivity.
  - now left.
  - cbn. lia.
  - reflexivity.
  - reflexivity.
  - constructor.
  - reflexivity.
  - reflexivity.
  - constructor.
  - now left.
Qed.

Lemma wrapTextToWidth_narrow_witness :
  Forall (narrow_byte wcwidth_sample) (cstr text_hi_world)
  /\ wspace_c (last (cstr text_hi_world) NUL) = true
  /\ exists para n',
      wrapTextToWidth never_fails wcwidth_sample wspace_c text_hi_world 6 0
      = (Ret para, n')
      /\ wrapped wspace_c 6 (cstr text_hi_world) (lines para).
Proof.
  assert (H1 : Forall (narrow_byte wcwidth_sample) (cstr text_hi_world)).
  { repeat (constructor;
            [split; [unfold is_ascii; cbn; lia | reflexivity]|]).
    constructor. }
  assert (H2 : wspace_c (last (cstr text_hi_world) NUL) = true)
    by reflexivity.
  split; [exact H1|]. split; [exact H2|].
  exact (@wrapTextToWidth_narrow wcwidth_sample wspace_c text_hi_world 6 0
           H1 H2).
Defined.


(* ===================================================================== *)
(** * Reading standard input                                              *)
(* ===================================================================== *)

Section LoaderFacts.

Lemma size_sub_small (a b : N) :
  (b <= a)%N -> (a < SIZE_MOD)%N -> size_sub a b = (a - b)%N.
Proof.
  unfold size_sub, SIZE_MOD. intros Hb Ha.
  rewrite (N.mod_small b) by lia.
  replace (a + 2 ^ 64 - b)%N with (a - b + 1 * 2 ^ 64)%N by lia.
  rewrite N.Div0.mod_add. apply N.mod_small. lia.
Qed.

Lemma size_mul_small (a : N) :
  (a < 2 ^ 63)%N -> size_mul a 2 = (2 * a)%N.
Proof.
  unfold size_mul, SIZE_MOD. intros Ha.
  rewrite N.mod_small; [lia|].
  change (2 ^ 64)%N with (2 * 2 ^ 63)%N. lia.
Qed.

Lemma is_buffer_size_twice (c : N) :
  is_buffer_size c -> is_buffer_size (2 * c).
Proof.
  intros [k ->]. exists (S k).
  rewrite Nat2N.inj_succ, N.pow_succ_r'. lia.
Qed.




(** With memory to spare and no read error the loop reads the stream to
    its end. *)
Lemma read_loop_complete :
  forall (fuel : nat) (buffer : list byte) (capacity : N) (stdin : stream)
         (n : nat),
    fails stdin = false ->
    length (data stdin) < fuel ->
    (N.of_nat (length buffer) + 1 < capacity)%N ->
    (capacity <= 2 ^ 63)%N ->
    is_buffer_size capacity ->
    (N.of_nat (length buffer + length (data stdin)) < 2 ^ 62)%N ->
    exists capacity' n',
      read_loop never_fails fuel buffer capacity stdin n
      = (Ret (buffer ++ data stdin, capacity'), n')
      /\ (N.of_nat (length (buffer ++ data stdin)) < capacity')%N
      /\ is_buffer_size capacity'.
Proof.
  induction fuel as [|fuel IH];
    intros buffer capacity stdin n Hf Hfuel Hsize Hc Hcap Hbound; [lia|].
  cbn [read_loop].
  rewrite (@size_sub_small capacity (N.of_nat (length buffer)))
    by (unfold SIZE_MOD; change (2 ^ 64)%N with (2 * 2 ^ 63)%N; lia).
  rewrite size_sub_small
    by (unfold SIZE_MOD; change (2 ^ 64)%N with (2 * 2 ^ 63)%N; lia).
  rewrite (@size_sub_small capacity 1)
    by (unfold SIZE_MOD; change (2 ^ 64)%N with (2 * 2 ^ 63)%N; lia).
  unfold fread. destruct stdin as [d f]. cbn [data fails] in *. subst f.
  set (request := N.to_nat (capacity - N.of_nat (length buffer) - 1)).
  assert (Hreq : 0 < request) by (subst request; lia).
  destruct d as [|b d].
  - rewrite firstn_nil. cbn [length N.of_nat N.ltb N.compare].
    exists capacity, n. rewrite app_nil_r. split; [reflexivity|].
    split; [lia | assumption].
  - assert (Hchunk : 0 < length (firstn request (b :: d)))
      by (rewrite length_firstn; cbn [length]; lia).
    destruct (N.ltb_spec 0 (N.of_nat (length (firstn request (b :: d)))));
      [|lia].
    assert (Hle : length (firstn request (b :: d)) <= request)
      by (rewrite length_firstn; lia).
    assert (Hsplit : length (firstn request (b :: d))
                     + length (skipn request (b :: d)) = length (b :: d))
      by (rewrite <- length_app, firstn_skipn; reflexivity).
    assert (Happ : (buffer ++ firstn request (b :: d))
                   ++ skipn request (b :: d) = buffer ++ b :: d)
      by (rewrite <- app_assoc, firstn_skipn; reflexivity).
    destruct (N.leb_spec (capacity - 1)
                (N.of_nat (length (buffer ++ firstn request (b :: d)))))
      as [Hfull|Hroom].
    + rewrite length_app in Hfull.
      assert (Hc' : (capacity <= 2 ^ 62)%N).
      { cbn [length] in *. lia. }
      rewrite size_mul_small
        by (change (2 ^ 63)%N with (2 * 2 ^ 62)%N; lia).
      destruct (N.ltb_spec (2 * capacity) capacity); [lia|].
      unfold bind, malloc, ret, never_fails. cbn [negb].
      destruct (IH (buffer ++ firstn request (b :: d)) (2 * capacity)%N
                   (mkStream (skipn request (b :: d)) false) (S n))
        as [capacity' [n' [E [H1 H2]]]]; cbn [data fails].
      * reflexivity.
      * lia.
      * rewrite length_app. subst request. lia.
      * change (2 ^ 63)%N with (2 * 2 ^ 62)%N. lia.
      * now apply is_buffer_size_twice.
      * rewrite ?length_app in *. cbn [length] in *. lia.
      * cbn [data] in E, H1. rewrite Happ in E, H1.
        exists capacity', n'. now split.
    + rewrite length_app in Hroom.
      destruct (IH (buffer ++ firstn request (b :: d)) capacity
                   (mkStream (skipn request (b :: d)) false) n)
        as [capacity' [n' [E [H1 H2]]]]; cbn [data fails].
      * reflexivity.
      * lia.
      * rewrite length_app. lia.
      * assumption.
      * assumption.
      * rewrite ?length_app in *. cbn [length] in *. lia.
      * cbn [data] in E, H1. rewrite Happ in E, H1.
        exists capacity', n'. now split.
Qed.

Lemma main_after_read_prints (wcwidth : wchar -> Z)
      (ioctl_winsz : option winsize) (text : cptr) (n : nat) :
  exists doc n',
    parseDocument never_fails text n = (Ret doc, n')
    /\ main_after_read never_fails wcwidth ioctl_winsz (Some text) n
       = (Some (mkRun 0
            (join [NL]
               (map (fun para =>
                       concat (map (print_line wcwidth
                                      (getTerminalWidth ioctl_winsz))
                                   (lines para)))
                    (paragraphs doc)))), n').
Proof.
  destruct (parseDocument_shape text n) as [doc [n' [E _]]].
  exists doc, n'. split; [exact E|].
  unfold main_after_read, bind. rewrite E. unfold ret. do 3 f_equal.
  rewrite printCenteredDocument_eq. f_equal.
  apply map_ext. intros para. apply print_lines_concat.
Qed.

End LoaderFacts.

(** X15: with memory to spare, a standard input of fewer than 2^62 bytes
    that ends without a read error is returned whole, whatever its bytes,
    in a block of 1024 * 2^k bytes that has room for the NUL stored behind
    the last byte. *)
Theorem readStdinToString_complete (stdin : stream) (n : nat) :
  fails stdin = false ->
  (N.of_nat (length (data stdin)) < 2 ^ 62)%N ->
  exists capacity n',
    readStdinToString never_fails stdin n = (Ret (data stdin, capacity), n')
    /\ (N.of_nat (length (data stdin)) < capacity)%N
    /\ is_buffer_size capacity.
Proof.
  intros Hf Hlen. unfold readStdinToString, bind, malloc, ret, never_fails.
  cbn [negb].
  destruct (@read_loop_complete (S (length (data stdin))) [] 1024%N stdin
              (S n)) as [capacity [n' [E [H1 H2]]]].
  - assumption.
  - lia.
  - cbn. lia.
  - change (2 ^ 63)%N with (2 ^ 53 * 1024)%N. lia.
  - exists 0. reflexivity.
  - cbn [length Nat.add]. assumption.
  - exists capacity, n'. now split.
Qed.

Lemma readStdinToString_complete_witness :
  fails (mkStream text_hi_world false) = false
  /\ (N.of_nat (length (data (mkStream text_hi_world false))) < 2 ^ 62)%N
  /\ exists capacity n',
      readStdinToString never_fails (mkStream text_hi_world false) 0
      = (Ret (data (mkStream text_hi_world false), capacity), n')
      /\ (N.of_nat (length (data (mkStream text_hi_world false)))
          < capacity)%N
      /\ is_buffer_size capacity.
Proof.
  assert (H1 : fails (mkStream text_hi_world false) = false) by reflexivity.
  assert (H2 : (N.of_nat (length (data (mkStream text_hi_world false)))
                < 2 ^ 62)%N) by (vm_compute; reflexivity).
  split; [exact H1|]. split; [exact H2|].
  exact (@readStdinToString_complete (mkStream text_hi_world false) 0 H1 H2).
Defined.



(** X17: run without arguments, with memory to spare, on a standard input
    of fewer than 2^62 bytes that ends without a read error, the program
    exits with status 0 and writes the centred lines of the document
    parsed from these bytes. *)
Theorem main_stdin_output (wcwidth : wchar -> Z)
        (ioctl_winsz : option winsize) (stdin : stream) (n : nat) :
  fails stdin = false ->
  (N.of_nat (length (data stdin)) < 2 ^ 62)%N ->
  exists doc n1 n2,
    parseDocument never_fails (data stdin) n1 = (Ret doc, n2)
    /\ main_stdin never_fails wcwidth ioctl_winsz stdin n
       = (Some (mkRun 0
            (join [NL]
               (map (fun para =>
                       concat (map (print_line wcwidth
                                      (getTerminalWidth ioctl_winsz))
                                   (lines para)))
                    (paragraphs doc)))), n2).
Proof.
  intros Hf Hlen.
  assert (Hread : exists capacity n',
             readStdinToString never_fails stdin n
             = (Ret (data stdin, capacity), n')).
  { unfold readStdinToString, bind, malloc, ret, never_fails. cbn [negb].
    destruct (@read_loop_complete (S (length (data stdin))) [] 1024%N stdin
                (S n)) as [capacity [n' [E _]]];
      [assumption | lia | cbn; lia
       | change (2 ^ 63)%N with (2 ^ 53 * 1024)%N; lia
       | exists 0; reflexivity
       | cbn [length Nat.add]; assumption |].
    now exists capacity, n'. }
  destruct Hread as [capacity [n1 Hread]].
  destruct (main_after_read_prints wcwidth ioctl_winsz (data stdin) n1)
    as [doc [n2 [Hparse Hmain]]].
  exists doc, n1, n2. split; [exact Hparse|].
  unfold main_stdin, bind. rewrite Hread. exact Hmain.
Qed.

Lemma main_stdin_output_witness :
  fails (mkStream text_hi_world false) = false
  /\ (N.of_nat (length (data (mkStream text_hi_world false))) < 2 ^ 62)%N
  /\ exists doc n1 n2,
      parseDocument never_fails (data (mkStream text_hi_world false)) n1
      = (Ret doc, n2)
      /\ main_stdin never_fails wcwidth_sample tty20
           (mkStream text_hi_world false) 0
         = (Some (mkRun 0
              (join [NL]
                 (map (fun para =>
                         concat (map (print_line wcwidth_sample
                                        (getTerminalWidth tty20))
                                     (lines para)))
                      (paragraphs doc)))), n2).
Proof.
  assert (H1 : fails (mkStream text_hi_world false) = false) by reflexivity.
  assert (H2 : (N.of_nat (length (data (mkStream text_hi_world false)))
                < 2 ^ 62)%N) by (vm_compute; reflexivity).
  split; [exact H1|]. split; [exact H2|].
  exact (@main_stdin_output wcwidth_sample tty20
           (mkStream text_hi_world false) 0 H1 H2).
Defined.
